(** * Seeding and invoice-query route handlers: model and verification

    Shallow embedding of [src/app/seed/route.ts] and [src/app/query/route.ts].

    The handlers are asynchronous JavaScript running against PostgreSQL
    (through [@vercel/postgres]).  A handler is a function from a world to an
    outcome and a world: a state monad that can also throw.  The world holds
    the database session, the console, the counters from which generated
    values (UUIDs, bcrypt salts) are drawn, and the callbacks that a rejected
    fan-out has left running.  Statements sent on one client are executed in
    the order in which they are sent; what is not fixed by the code (the order
    in which hashes complete, the order in which the server returns the rows
    of a SELECT without ORDER BY, which round trips fail, which texts the
    server reads as dates) is taken from the environment.  The database, the
    hash and the placeholder data are not part of the two files: the database
    is modelled from the DDL and the statements the files contain, the hash
    and the data are parameters. *)

From Stdlib Require Import List String Ascii ZArith Lia Bool Arith DecimalString.
From Stdlib Require Import Permutation.
Import ListNotations.
Local Open Scope list_scope.

Notation "a +++ b" := (String.append a b) (at level 60, right associativity).

(** ** Data model *)

(** A [uuid] as the code handles it: the text handed over by the caller, or a
    value drawn by [uuid_generate_v4()].  Drawn values are numbered by the
    draw, which makes two draws distinct from one another and from every
    text. *)
Inductive uuid : Type :=
| Literal (s : string)
| Generated (n : nat).

(** The server's reading of a uuid text ([string_to_uuid]): sixteen bytes,
    each two hexadecimal digits of either case, an optional hyphen after
    every second byte, optional braces around the whole. *)
Definition hex_value (c : ascii) : option nat :=
  let n := nat_of_ascii c in
  if (48 <=? n) && (n <=? 57) then Some (n - 48)
  else if (97 <=? n) && (n <=? 102) then Some (n - 87)
  else if (65 <=? n) && (n <=? 70) then Some (n - 55)
  else None.

Fixpoint uuid_bytes (k i : nat) (s : string) : option (list nat * string) :=
  match k with
  | 0 => Some ([], s)
  | S k' =>
      match s with
      | String a (String b rest) =>
          match hex_value a, hex_value b with
          | Some x, Some y =>
              let rest' :=
                match rest with
                | String "-" r => if Nat.odd i && (i <? 15) then r else rest
                | _ => rest
                end in
              match uuid_bytes k' (S i) rest' with
              | Some (bs, tl) => Some (16 * x + y :: bs, tl)
              | None => None
              end
          | _, _ => None
          end
      | _ => None
      end
  end.

Definition uuid_in (s : string) : option (list nat) :=
  match s with
  | String "{" s' =>
      match uuid_bytes 16 0 s' with
      | Some (bs, String "}" EmptyString) => Some bs
      | _ => None
      end
  | _ =>
      match uuid_bytes 16 0 s with
      | Some (bs, EmptyString) => Some bs
      | _ => None
      end
  end.

(** The value the server holds for a uuid, if the text is one. *)
Definition uuid_value (u : uuid) : option (list nat + nat) :=
  match u with
  | Literal s => option_map inl (uuid_in s)
  | Generated n => Some (inr n)
  end.

Definition value_eqb (x y : list nat + nat) : bool :=
  match x, y with
  | inl a, inl b => if list_eq_dec Nat.eq_dec a b then true else false
  | inr n, inr m => Nat.eqb n m
  | _, _ => false
  end.

(** Equality of uuids is equality of their values: two texts that differ in
    letter case, hyphens or braces are one key. *)
Definition uuid_eqb (a b : uuid) : bool :=
  match uuid_value a, uuid_value b with
  | Some x, Some y => value_eqb x y
  | _, _ => false
  end.

Lemma value_eqb_spec x y : reflect (x = y) (value_eqb x y).
Proof.
  destruct x as [a|n], y as [b|m]; simpl; try (constructor; discriminate).
  - destruct (list_eq_dec Nat.eq_dec a b); constructor; congruence.
  - destruct (Nat.eqb_spec n m); constructor; congruence.
Qed.

Lemma uuid_eqb_true a b :
  uuid_eqb a b = true <-> exists x, uuid_value a = Some x /\ uuid_value b = Some x.
Proof.
  unfold uuid_eqb. destruct (uuid_value a) as [x|], (uuid_value b) as [y|]; split;
    try discriminate; try (intros [z [H1 H2]]; discriminate).
  - intros H. destruct (value_eqb_spec x y); [subst; eauto | discriminate].
  - intros [z [H1 H2]]. destruct (value_eqb_spec x y); congruence.
Qed.

(** The entries of [../lib/placeholder-data] and the rows of the four
    tables.  A [users] row has the shape of a placeholder user (with the
    password column holding whatever the insert passes); an [invoices] row
    is a placeholder invoice together with its primary key. *)
Record User : Type := mkUser
  { user_id : uuid; user_name : string; user_email : string; user_password : string }.

Record Customer : Type := mkCustomer
  { customer_id : uuid; customer_name : string; customer_email : string;
    customer_image_url : string }.

Record Invoice : Type := mkInvoice
  { invoice_customer_id : uuid; invoice_amount : Z; invoice_status : string;
    invoice_date : string }.

Record InvoiceRow : Type := mkInvoiceRow
  { inv_id : uuid; inv_fields : Invoice }.

Record Revenue : Type := mkRevenue
  { rev_month : string; rev_revenue : Z }.

(** ** The database *)

(** A relation is [None] until it is created. *)
Record tables : Type := mkTables
  { uuid_ossp : bool;
    users_t : option (list User);
    customers_t : option (list Customer);
    invoices_t : option (list InvoiceRow);
    revenue_t : option (list Revenue) }.

Definition empty_tables : tables := mkTables false None None None None.

Inductive table : Type := Users | Customers | Invoices | RevenueT.

(** The statements the two route files send. *)
Inductive stmt : Type :=
| BEGIN
| COMMIT
| ROLLBACK
| CREATE_EXTENSION
| CREATE_TABLE (t : table)
| INSERT_USER (u : User)
| INSERT_CUSTOMER (c : Customer)
| INSERT_INVOICE (i : Invoice)
| INSERT_REVENUE (r : Revenue)
| SELECT_INVOICES.

Definition is_control (s : stmt) : bool :=
  match s with BEGIN | COMMIT | ROLLBACK => true | _ => false end.

Definition is_ddl (s : stmt) : bool :=
  match s with CREATE_EXTENSION | CREATE_TABLE _ => true | _ => false end.

Definition is_insert (s : stmt) : bool :=
  match s with
  | INSERT_USER _ | INSERT_CUSTOMER _ | INSERT_INVOICE _ | INSERT_REVENUE _ => true
  | _ => false
  end.


(** The rows of the SELECT in [listInvoices]. *)
Record InvoiceLine : Type := mkLine { amount : Z; name : string }.

Record QueryResult : Type := mkResult { rowCount : nat; rows : list InvoiceLine }.

Definition done (n : nat) : QueryResult := mkResult n [].

(** SQLSTATE codes raised by the model. *)
Definition undefined_table : string := "42P01".
Definition undefined_function : string := "42883".
Definition unique_violation : string := "23505".
Definition foreign_key_violation : string := "23503".
Definition string_data_right_truncation : string := "22001".
Definition numeric_value_out_of_range : string := "22003".
Definition invalid_text_representation : string := "22P02".
Definition in_failed_sql_transaction : string := "25P02".
Definition internal_error : string := "XX000".

(** Column types.  [VARCHAR(n)] counts characters; a string is UTF-8, so the
    characters are the bytes that are not continuation bytes. *)
Definition is_continuation (c : ascii) : bool :=
  let n := nat_of_ascii c in (128 <=? n) && (n <? 192).

Fixpoint char_length (s : string) : nat :=
  match s with
  | EmptyString => 0
  | String c s' => (if is_continuation c then 0 else 1) + char_length s'
  end.

Definition varchar (n : nat) (s : string) : bool := char_length s <=? n.

(** The first [n] characters of a string, and what follows them. *)
Fixpoint clip (n : nat) (s : string) : string :=
  match s with
  | EmptyString => EmptyString
  | String c s' =>
      if is_continuation c then String c (clip n s')
      else match n with
           | 0 => EmptyString
           | S n' => String c (clip n' s')
           end
  end.

Fixpoint excess (n : nat) (s : string) : string :=
  match s with
  | EmptyString => EmptyString
  | String c s' =>
      if is_continuation c then excess n s'
      else match n with
           | 0 => s
           | S n' => excess n' s'
           end
  end.

Fixpoint blank (s : string) : bool :=
  match s with
  | EmptyString => true
  | String c s' => Ascii.eqb c " " && blank s'
  end.

(** Storing a text in a [VARCHAR(n)] column: as it is when it fits; cut to
    [n] characters when all that exceeds them is spaces; refused otherwise. *)
Definition fit (n : nat) (s : string) : option string :=
  if varchar n s then Some s
  else if blank (excess n s) then Some (clip n s)
  else None.

Lemma fit_fits n s : varchar n s = true -> fit n s = Some s.
Proof. unfold fit. intros ->. reflexivity. Qed.

(** Two texts are the same value of a [VARCHAR(n)] column when the column
    holds the same text for them. *)
Definition varchar_eqb (n : nat) (a b : string) : bool :=
  match fit n a, fit n b with
  | Some x, Some y => String.eqb x y
  | _, _ => false
  end.

Definition int4 (z : Z) : bool := ((-2147483648 <=? z) && (z <=? 2147483647))%Z.

(** [SELECT invoices.amount, customers.name FROM invoices
     JOIN customers ON invoices.customer_id = customers.id
     WHERE invoices.amount = 666]: the rows of the join, listed by invoice
    and then by customer.  The statement has no ORDER BY; the order in which
    the server returns these rows is that of its plan, see [pool_sql]. *)
Definition select_invoices (invs : list InvoiceRow) (cs : list Customer) : list InvoiceLine :=
  flat_map
    (fun i =>
       map (fun c => mkLine (invoice_amount (inv_fields i)) (customer_name c))
           (filter (fun c => uuid_eqb (invoice_customer_id (inv_fields i)) (customer_id c)) cs))
    (filter (fun i => (invoice_amount (inv_fields i) =? 666)%Z) invs).

(** One statement against the tables, once the server has read its
    parameters (see [bind_error]).  [fresh] is the value [uuid_generate_v4()]
    returns if the statement evaluates it.  The result is the SQLSTATE of the
    error, or the new tables and the result. *)
Definition run (s : stmt) (fresh : uuid) (t : tables) : string + tables * QueryResult :=
  match s with
  | BEGIN | COMMIT | ROLLBACK => inr (t, done 0)
  | CREATE_EXTENSION =>
      inr (mkTables true (users_t t) (customers_t t) (invoices_t t) (revenue_t t), done 0)
  | CREATE_TABLE Users =>
      match users_t t with
      | Some _ => inr (t, done 0)
      | None =>
          if uuid_ossp t
          then inr (mkTables (uuid_ossp t) (Some []) (customers_t t) (invoices_t t)
                             (revenue_t t), done 0)
          else inl undefined_function
      end
  | CREATE_TABLE Customers =>
      match customers_t t with
      | Some _ => inr (t, done 0)
      | None =>
          if uuid_ossp t
          then inr (mkTables (uuid_ossp t) (users_t t) (Some []) (invoices_t t)
                             (revenue_t t), done 0)
          else inl undefined_function
      end
  | CREATE_TABLE Invoices =>
      match invoices_t t with
      | Some _ => inr (t, done 0)
      | None =>
          match customers_t t with
          | None => inl undefined_table
          | Some _ =>
              if uuid_ossp t
              then inr (mkTables (uuid_ossp t) (users_t t) (customers_t t) (Some [])
                                 (revenue_t t), done 0)
              else inl undefined_function
          end
      end
  | CREATE_TABLE RevenueT =>
      match revenue_t t with
      | Some _ => inr (t, done 0)
      | None =>
          inr (mkTables (uuid_ossp t) (users_t t) (customers_t t) (invoices_t t) (Some []),
               done 0)
      end
  | INSERT_USER u =>
      match users_t t with
      | None => inl undefined_table
      | Some us =>
          match fit 255 (user_name u) with
          | None => inl string_data_right_truncation
          | Some nm =>
              if existsb (fun x => uuid_eqb (user_id x) (user_id u)) us
              then inr (t, done 0)
              else if existsb (fun x => String.eqb (user_email x) (user_email u)) us
              then inl unique_violation
              else inr (mkTables (uuid_ossp t)
                                 (Some (us ++ [mkUser (user_id u) nm (user_email u)
                                                      (user_password u)]))
                                 (customers_t t) (invoices_t t) (revenue_t t), done 1)
          end
      end
  | INSERT_CUSTOMER c =>
      match customers_t t with
      | None => inl undefined_table
      | Some cs =>
          match fit 255 (customer_name c), fit 255 (customer_email c),
                fit 255 (customer_image_url c) with
          | Some nm, Some em, Some url =>
              if existsb (fun x => uuid_eqb (customer_id x) (customer_id c)) cs
              then inr (t, done 0)
              else if existsb (fun x => String.eqb (customer_email x) em) cs
              then inl unique_violation
              else inr (mkTables (uuid_ossp t) (users_t t)
                                 (Some (cs ++ [mkCustomer (customer_id c) nm em url]))
                                 (invoices_t t) (revenue_t t), done 1)
          | _, _, _ => inl string_data_right_truncation
          end
      end
  | INSERT_INVOICE i =>
      match invoices_t t, customers_t t with
      | Some rs, Some cs =>
          if negb (int4 (invoice_amount i)) then inl numeric_value_out_of_range
          else match fit 255 (invoice_status i) with
               | None => inl string_data_right_truncation
               | Some st =>
                   if existsb (fun x => uuid_eqb (inv_id x) fresh) rs
                   then inr (t, done 0)
                   else if existsb (fun c => uuid_eqb (customer_id c) (invoice_customer_id i)) cs
                   then inr (mkTables (uuid_ossp t) (users_t t) (customers_t t)
                                      (Some (rs ++ [mkInvoiceRow fresh
                                                      (mkInvoice (invoice_customer_id i)
                                                                 (invoice_amount i) st
                                                                 (invoice_date i))]))
                                      (revenue_t t), done 1)
                   else inl foreign_key_violation
               end
      | _, _ => inl undefined_table
      end
  | INSERT_REVENUE r =>
      match revenue_t t with
      | None => inl undefined_table
      | Some rs =>
          if negb (int4 (rev_revenue r)) then inl numeric_value_out_of_range
          else match fit 4 (rev_month r) with
               | None => inl string_data_right_truncation
               | Some m =>
                   if existsb (fun x => varchar_eqb 4 (rev_month x) m) rs
                   then inr (t, done 0)
                   else inr (mkTables (uuid_ossp t) (users_t t) (customers_t t) (invoices_t t)
                                      (Some (rs ++ [mkRevenue m (rev_revenue r)])), done 1)
               end
      end
  | SELECT_INVOICES =>
      match invoices_t t, customers_t t with
      | Some rs, Some cs =>
          let out := select_invoices rs cs in inr (t, mkResult (List.length out) out)
      | _, _ => inl undefined_table
      end
  end.

(** What the server makes of the parameters of a statement before it runs
    it: a uuid text it cannot read, an integer outside [INT], a text it does
    not read as a date.  [date_error] is the server's date input: [None] for a
    text it reads as a date, the SQLSTATE otherwise (22007 for a malformed
    text, 22008 for a field out of range). *)
Definition uuid_error (u : uuid) : option string :=
  match uuid_value u with
  | Some _ => None
  | None => Some invalid_text_representation
  end.

Definition int_error (z : Z) : option string :=
  if int4 z then None else Some numeric_value_out_of_range.

Definition first_error (a b : option string) : option string :=
  match a with Some _ => a | None => b end.

Definition bind_error (date_error : string -> option string) (s : stmt) : option string :=
  match s with
  | INSERT_USER u => uuid_error (user_id u)
  | INSERT_CUSTOMER c => uuid_error (customer_id c)
  | INSERT_INVOICE i =>
      first_error (uuid_error (invoice_customer_id i))
        (first_error (int_error (invoice_amount i)) (date_error (invoice_date i)))
  | INSERT_REVENUE r => int_error (rev_revenue r)
  | _ => None
  end.

(** A session is the tables as the session sees them and the state of its
    transaction block.  [InTx saved] and [Failed saved] keep the tables as they
    were when the block was opened; [Failed] is the state PostgreSQL enters
    when a statement of the block raised. *)
Inductive tx_status : Type :=
| Idle
| InTx (saved : tables)
| Failed (saved : tables).

Record session : Type := mkSession { store : tables; tx : tx_status }.

(** What other sessions see, and what stays if the session ends now. *)
Definition committed (d : session) : tables :=
  match tx d with
  | Idle => store d
  | InTx t | Failed t => t
  end.

(** What a failed statement does to the enclosing transaction block.
    PostgreSQL aborts the block ([AbortTransaction]): until the block is
    ended, every further command is refused with SQLSTATE 25P02, and COMMIT
    ends it by rolling back.  The other mode, a server that undoes the failed
    statement alone and leaves the block open, is kept to state what the
    per-row error handling of the seeding steps would need. *)
Inductive error_mode : Type := AbortTransaction | StatementRollback.

Definition fail_in (mode : error_mode) (d : session) : session :=
  match mode, tx d with
  | AbortTransaction, InTx t => mkSession (store d) (Failed t)
  | _, _ => d
  end.

(** One statement on a session.  [fault] makes the statement, whichever it
    is, raise for a reason outside the model (a lost connection, a time-out,
    a missing permission) without taking effect.  Otherwise the transaction
    commands are accepted (outside a block, or for a second BEGIN, the server
    only warns), except that a failed block refuses BEGIN like any other
    command; COMMIT of a failed block rolls it back.  Any other statement is
    refused in a failed block, raises [bind] if the server cannot read its
    parameters, and is run otherwise. *)
Definition exec (mode : error_mode) (s : stmt) (fault : bool) (bind : option string)
           (fresh : uuid) (d : session) : (string + QueryResult) * session :=
  if fault then (inl internal_error, fail_in mode d)
  else
    match s with
    | BEGIN =>
        match tx d with
        | Idle => (inr (done 0), mkSession (store d) (InTx (store d)))
        | InTx _ => (inr (done 0), d)
        | Failed _ => (inl in_failed_sql_transaction, d)
        end
    | COMMIT =>
        match tx d with
        | Idle => (inr (done 0), d)
        | InTx _ => (inr (done 0), mkSession (store d) Idle)
        | Failed t => (inr (done 0), mkSession t Idle)
        end
    | ROLLBACK =>
        match tx d with
        | Idle => (inr (done 0), d)
        | InTx t | Failed t => (inr (done 0), mkSession t Idle)
        end
    | _ =>
        match tx d with
        | Failed _ => (inl in_failed_sql_transaction, d)
        | _ =>
            match bind with
            | Some code => (inl code, fail_in mode d)
            | None =>
                match run s fresh (store d) with
                | inl code => (inl code, fail_in mode d)
                | inr (t', r) => (inr r, mkSession t' (tx d))
                end
            end
        end
    end.

(** ** Worlds and effects *)

(** What a handler can throw. *)
Inductive exn : Type :=
| SqlError (s : stmt) (sqlstate : string)
| BcryptError (plain : string)
| ConnectError.

(** What a run leaves behind, oldest first: every statement with its outcome,
    in the order in which the server ran them (which is the order in which
    they were sent and in which their results came back); every call of the
    hash with what it will answer; every [console.error]; every connection
    taken from and given back to the pool. *)
Inductive event : Type :=
| Sql (s : stmt) (r : string + QueryResult)
| Hash (plain : string) (cost : nat) (r : option string)
| ConsoleError (msg : string) (e : exn)
| Connect (ok : bool)
| Release (c : nat).

(** The rest of a row callback once it has what it awaited:
    [try { return await client.sql`...` } catch (err) { console.error(msg, err) }]. *)
Record guarded : Type := Guarded { guarded_stmt : stmt; guarded_msg : string }.

(** The surroundings a run cannot change: how the server treats a failed
    statement; which round trips fail for outside reasons (by their number);
    the hash ([bcrypt n plain cost] with the [n]-th salt; [None] when the
    library rejects); the server's date input; the order in which the hashes
    of a fan-out complete and the order in which the plan of a SELECT returns
    its rows (both as positions, see [reorder]). *)
Record env : Type := mkEnv
  { mode : error_mode;
    faulty : nat -> bool;
    bcrypt : nat -> string -> nat -> option string;
    date_error : string -> option string;
    completion : list nat;
    plan : list nat }.

Record world : Type := mkWorld
  { pg : session;          (* the session of the seeding module's client, as of the
                              last statement it ran *)
    uuids : nat;           (* values drawn by uuid_generate_v4() *)
    salts : nat;           (* salts drawn by bcrypt *)
    issued : nat;          (* round trips to the server *)
    borrowed : nat;        (* pool clients checked out *)
    history : list event;
    pending : list guarded (* callbacks of a rejected fan-out that are still to run *) }.

Definition M (A : Type) : Type := env -> world -> (exn + A) * world.

Definition ret {A} (a : A) : M A := fun _ w => (inr a, w).

Definition throw {A} (e : exn) : M A := fun _ w => (inl e, w).

Definition bind {A B} (m : M A) (k : A -> M B) : M B :=
  fun e w =>
    match m e w with
    | (inr a, w1) => k a e w1
    | (inl x, w1) => (inl x, w1)
    end.

(** [try { body } catch (err) { handler }] *)
Definition try_catch {A} (body : M A) (handler : exn -> M A) : M A :=
  fun e w =>
    match body e w with
    | (inr a, w1) => (inr a, w1)
    | (inl x, w1) => handler x e w1
    end.

(** [try { body } finally { cleanup }]: the cleanup always runs; what it throws
    replaces the outcome of the body. *)
Definition try_finally {A} (body : M A) (cleanup : M unit) : M A :=
  fun e w =>
    match body e w with
    | (r, w1) =>
        match cleanup e w1 with
        | (inr _, w2) => (r, w2)
        | (inl x, w2) => (inl x, w2)
        end
    end.

Declare Scope js_scope.
Delimit Scope js_scope with js.
Notation "x <- m ;; k" := (bind m (fun x => k))
  (at level 61, m at next level, right associativity) : js_scope.
Notation "m ;; k" := (bind m (fun _ => k))
  (at level 61, right associativity) : js_scope.
Local Open Scope js_scope.

(** [await Promise.all(items.map(async (item) => ...))] for callbacks that
    call [client.sql] before they await anything, as those of the customers,
    invoices and revenue steps do: every callback has sent its statement
    before any result is back, the client runs the statements in the order of
    the list, and each callback handles its own result as it arrives, in that
    order.  No such callback throws (each wraps its whole body in a [try]),
    so the fan-out settles when the last result is handled. *)
Fixpoint Promise_all {A} (ps : list (M A)) : M (list A) :=
  match ps with
  | [] => ret []
  | p :: ps' => (a <- p ;; rest <- Promise_all ps' ;; ret (a :: rest))
  end.

Definition log (ev : event) (w : world) : world :=
  mkWorld (pg w) (uuids w) (salts w) (issued w) (borrowed w) (history w ++ [ev]) (pending w).

Definition console_error (msg : string) (err : exn) : M unit :=
  fun _ w => (inr tt, log (ConsoleError msg err) w).

(** [client.sql] on the seeding module's client.  Any statement, the
    transaction commands included, can fail for an outside reason. *)
Definition client_sql (s : stmt) : M QueryResult :=
  fun e w =>
    let (r, d) := exec (mode e) s (faulty e (issued w)) (bind_error (date_error e) s)
                       (Generated (uuids w)) (pg w) in
    let w1 :=
      mkWorld d (match s with INSERT_INVOICE _ => S (uuids w) | _ => uuids w end)
              (salts w) (S (issued w)) (borrowed w) (history w ++ [Sql s r]) (pending w) in
    match r with
    | inl code => (inl (SqlError s code), w1)
    | inr q => (inr q, w1)
    end.

(** [bcrypt.hash(plain, cost)]: the call, recorded with what the promise it
    returns will settle to. *)
Definition bcrypt_hash (plain : string) (cost : nat) : M string :=
  fun e w =>
    let r := bcrypt e (salts w) plain cost in
    let w1 :=
      mkWorld (pg w) (uuids w) (S (salts w)) (issued w) (borrowed w)
              (history w ++ [Hash plain cost r]) (pending w) in
    match r with
    | Some h => (inr h, w1)
    | None => (inl (BcryptError plain), w1)
    end.

Definition run_guarded (c : guarded) : M (option QueryResult) :=
  try_catch
    (r <- client_sql (guarded_stmt c) ;;
     ret (Some r))
    (fun err =>
       console_error (guarded_msg c) err ;;
       ret None).

(** An order given as positions: each element, from the last to the first,
    is put at the given position of what is already placed (at the end if the
    position is beyond it).  Every order of the list is obtained for some
    positions, and no positions give the list itself. *)
Fixpoint insert_at {A} (k : nat) (x : A) (l : list A) : list A :=
  match k, l with
  | S k', y :: l' => y :: insert_at k' x l'
  | _, _ => x :: l
  end.

Fixpoint reorder {A} (ks : list nat) (l : list A) : list A :=
  match l with
  | [] => []
  | x :: l' => insert_at (hd 0 ks) x (reorder (tl ks) l')
  end.

(** A callback that first awaits an operation off the client's connection
    and then does its guarded statement:
    [async (item) => { const v = await op(item); try { ... } catch { ... } }]. *)
Record awaiting : Type := Await { awaited : M string; and_then : string -> guarded }.

(** The calls of the awaited operations, made one after the other when [map]
    runs the callbacks; each yields what its promise will settle to. *)
Fixpoint call_all (ts : list awaiting) : env -> world -> list (exn + guarded) * world :=
  match ts with
  | [] => fun _ w => ([], w)
  | t :: ts' =>
      fun e w =>
        let (r, w1) := awaited t e w in
        let (rs, w2) := call_all ts' e w1 in
        (match r with inl x => inl x | inr v => inr (and_then t v) end :: rs, w2)
  end.

Definition still_running (todo : list (nat * (exn + guarded))) : list guarded :=
  flat_map (fun p => match snd p with inr c => [c] | inl _ => [] end) todo.

Definition leave_running (cs : list guarded) (w : world) : world :=
  mkWorld (pg w) (uuids w) (salts w) (issued w) (borrowed w) (history w) (pending w ++ cs).

(** The callbacks resume as their promises settle.  One whose promise is
    fulfilled runs its guarded statement to the end; the first one whose
    promise is rejected rejects the fan-out, and the callbacks that have not
    resumed yet stay behind: nothing cancels them. *)
Fixpoint complete (todo : list (nat * (exn + guarded))) (got : list (nat * option QueryResult))
  : M (list (nat * option QueryResult)) :=
  match todo with
  | [] => ret got
  | (i, inr c) :: todo' => (r <- run_guarded c ;; complete todo' (got ++ [(i, r)]))
  | (_, inl x) :: todo' => fun _ w => (inl x, leave_running (still_running todo') w)
  end.

Definition result_at (got : list (nat * option QueryResult)) (i : nat) : option QueryResult :=
  match find (fun p => fst p =? i) got with
  | Some (_, r) => r
  | None => None
  end.

(** [await Promise.all(items.map(async (item) => ...))] for such callbacks, as
    those of the users step are: all the awaited operations are called first,
    in the order of the list; the callbacks resume in the order in which the
    operations complete; the results are in the order of the list. *)
Definition Promise_all_awaiting (ts : list awaiting) : M (list (option QueryResult)) :=
  fun e w =>
    let (rs, w1) := call_all ts e w in
    let n := List.length ts in
    match complete (reorder (completion e) (combine (seq 0 n) rs)) [] e w1 with
    | (inr got, w2) => (inr (map (result_at got) (seq 0 n)), w2)
    | (inl x, w2) => (inl x, w2)
    end.

(** What the callbacks left behind do once the handler is through: each sends
    its statement when its promise settles, after everything the handler has
    sent.  [settle] is the world when none is left. *)
Fixpoint run_all (cs : list guarded) : M unit :=
  match cs with
  | [] => ret tt
  | c :: cs' => (run_guarded c ;; run_all cs')
  end.

Definition settle (e : env) (w : world) : world :=
  snd (run_all (pending w) e
         (mkWorld (pg w) (uuids w) (salts w) (issued w) (borrowed w) (history w) [])).

(** [db.connect()]: a client of the pool, or a rejection. *)
Definition db_connect : M nat :=
  fun e w =>
    if faulty e (issued w)
    then (inl ConnectError,
          mkWorld (pg w) (uuids w) (salts w) (S (issued w)) (borrowed w)
                  (history w ++ [Connect false]) (pending w))
    else (inr (borrowed w),
          mkWorld (pg w) (uuids w) (salts w) (S (issued w)) (S (borrowed w))
                  (history w ++ [Connect true]) (pending w)).

(** [client.release()] *)
Definition release (c : nat) : M unit :=
  fun _ w =>
    (inr tt,
     mkWorld (pg w) (uuids w) (salts w) (issued w) (pred (borrowed w))
             (history w ++ [Release c]) (pending w)).

(** [client.sql] on a client of the pool: a session of its own, outside any
    transaction block, over what is committed.  The rows of a result come in
    the order of the server's plan. *)
Definition set_committed (t : tables) (d : session) : session :=
  match tx d with
  | Idle => mkSession t Idle
  | InTx _ => mkSession (store d) (InTx t)
  | Failed _ => mkSession (store d) (Failed t)
  end.

Definition in_plan_order (ks : list nat) (r : string + QueryResult) : string + QueryResult :=
  match r with
  | inr q => inr (mkResult (rowCount q) (reorder ks (rows q)))
  | inl code => inl code
  end.

Definition pool_sql (c : nat) (s : stmt) : M QueryResult :=
  fun e w =>
    let (r0, d) := exec (mode e) s (faulty e (issued w)) (bind_error (date_error e) s)
                        (Generated (uuids w)) (mkSession (committed (pg w)) Idle) in
    let r := in_plan_order (plan e) r0 in
    let w1 :=
      mkWorld (set_committed (committed d) (pg w))
              (match s with INSERT_INVOICE _ => S (uuids w) | _ => uuids w end)
              (salts w) (S (issued w)) (borrowed w) (history w ++ [Sql s r]) (pending w) in
    match r with
    | inl code => (inl (SqlError s code), w1)
    | inr q => (inr q, w1)
    end.

(** ** Responses and JSON *)

Definition dquote : string := String "034"%char EmptyString.
Definition backslash : string := String "092"%char EmptyString.

#[warnings="-register-all"]
Inductive json : Type :=
| JNumber (z : Z)
| JString (s : string)
| JArray (l : list json)
| JObject (fields : list (string * json)).

Definition hex_digit (n : nat) : ascii :=
  if n <? 10 then ascii_of_nat (48 + n) else ascii_of_nat (87 + n).

(** The escapes of [JSON.stringify]'s QuoteJSONString. *)
Definition quote_char (c : ascii) : string :=
  let n := nat_of_ascii c in
  if n =? 34 then backslash +++ dquote
  else if n =? 92 then backslash +++ backslash
  else if n =? 8 then backslash +++ "b"
  else if n =? 9 then backslash +++ "t"
  else if n =? 10 then backslash +++ "n"
  else if n =? 12 then backslash +++ "f"
  else if n =? 13 then backslash +++ "r"
  else if n <? 32
       then backslash +++ "u00" +++ String (hex_digit (n / 16)) (String (hex_digit (n mod 16)) "")
  else String c "".

Fixpoint quote_chars (s : string) : string :=
  match s with
  | EmptyString => ""
  | String c s' => quote_char c +++ quote_chars s'
  end.

Definition quote_string (s : string) : string := dquote +++ quote_chars s +++ dquote.

Definition number_to_string (z : Z) : string := NilZero.string_of_int (Z.to_int z).

Fixpoint join_with (sep : string) (l : list string) : string :=
  match l with
  | [] => ""
  | [x] => x
  | x :: l' => x +++ sep +++ join_with sep l'
  end.

Fixpoint JSON_stringify (j : json) : string :=
  match j with
  | JNumber z => number_to_string z
  | JString s => quote_string s
  | JArray l => "[" +++ join_with "," (map JSON_stringify l) +++ "]"
  | JObject fs =>
      "{" +++ join_with "," (map (fun kv => quote_string (fst kv) +++ ":" +++ JSON_stringify (snd kv)) fs)
          +++ "}"
  end.

Definition lower_char (c : ascii) : ascii :=
  let n := nat_of_ascii c in
  if (65 <=? n) && (n <=? 90) then ascii_of_nat (n + 32) else c.

Fixpoint lowercase (s : string) : string :=
  match s with
  | EmptyString => ""
  | String c s' => String (lower_char c) (lowercase s')
  end.

Record ResponseInit : Type := mkInit
  { init_status : option nat; init_headers : list (string * string) }.

Record Response : Type := mkResponse
  { status : nat; headers : list (string * string); body : string }.

Fixpoint header_get (h : string) (hs : list (string * string)) : option string :=
  match hs with
  | [] => None
  | (k, v) :: hs' => if String.eqb (lowercase k) (lowercase h) then Some v else header_get h hs'
  end.

(** [new Response(body, init)] for a string body: status 200 unless given, and
    a text/plain content type unless the headers carry one. *)
Definition new_Response (b : string) (init : ResponseInit) : Response :=
  let hs := map (fun kv => (lowercase (fst kv), snd kv)) (init_headers init) in
  mkResponse
    (match init_status init with Some n => n | None => 200 end)
    (match header_get "content-type" hs with
     | Some _ => hs
     | None => hs ++ [("content-type"%string, "text/plain;charset=UTF-8"%string)]
     end)
    b.

Definition content_type (r : Response) : option string := header_get "content-type" (headers r).

(** A result row as the JavaScript object the driver builds: the selected
    columns in the order of the SELECT list. *)
Definition row_to_json (r : InvoiceLine) : json :=
  JObject [("amount"%string, JNumber (amount r)); ("name"%string, JString (name r))].

Definition rows_to_json (l : list InvoiceLine) : json := JArray (map row_to_json l).

Definition uuid_to_string (u : uuid) : string :=
  match u with
  | Literal s => s
  | Generated n => "generated-" +++ NilZero.string_of_uint (Nat.to_uint n)
  end.

(** ** src/app/seed/route.ts *)
(** ** src/app/seed/route.ts *)

Module SeedRoute.
Section Placeholder.

(** [import { invoices, customers, revenue, users } from
    '../lib/placeholder-data'] *)
Variable users : list User.
Variable customers : list Customer.
Variable invoices : list Invoice.
Variable revenue : list Revenue.

Definition createExtensions : M unit :=
  client_sql CREATE_EXTENSION ;; ret tt.

Definition seedUsers : M (list (option QueryResult)) :=
  client_sql (CREATE_TABLE Users) ;;
  insertedUsers <-
    Promise_all_awaiting
      (map (fun user =>
              Await (bcrypt_hash (user_password user) 10) (fun hashedPassword =>
                Guarded (INSERT_USER (mkUser (user_id user) (user_name user)
                                             (user_email user) hashedPassword))
                        ("Error inserting user: " +++ user_email user)))
           users) ;;
  ret insertedUsers.

Definition seedInvoices : M (list (option QueryResult)) :=
  client_sql (CREATE_TABLE Invoices) ;;
  insertedInvoices <-
    Promise_all
      (map (fun invoice =>
              try_catch
                (r <- client_sql
                        (INSERT_INVOICE (mkInvoice (invoice_customer_id invoice)
                                                   (invoice_amount invoice)
                                                   (invoice_status invoice)
                                                   (invoice_date invoice))) ;;
                 ret (Some r))
                (fun err =>
                   console_error ("Error inserting invoice for customer: "
                                    +++ uuid_to_string (invoice_customer_id invoice)) err ;;
                   ret None))
           invoices) ;;
  ret insertedInvoices.

Definition seedCustomers : M (list (option QueryResult)) :=
  client_sql (CREATE_TABLE Customers) ;;
  insertedCustomers <-
    Promise_all
      (map (fun customer =>
              try_catch
                (r <- client_sql
                        (INSERT_CUSTOMER (mkCustomer (customer_id customer)
                                                     (customer_name customer)
                                                     (customer_email customer)
                                                     (customer_image_url customer))) ;;
                 ret (Some r))
                (fun err =>
                   console_error ("Error inserting customer: " +++ customer_email customer)
                                 err ;;
                   ret None))
           customers) ;;
  ret insertedCustomers.

Definition seedRevenue : M (list (option QueryResult)) :=
  client_sql (CREATE_TABLE RevenueT) ;;
  insertedRevenue <-
    Promise_all
      (map (fun rev =>
              try_catch
                (r <- client_sql
                        (INSERT_REVENUE (mkRevenue (rev_month rev) (rev_revenue rev))) ;;
                 ret (Some r))
                (fun err =>
                   console_error ("Error inserting revenue for month: " +++ rev_month rev)
                                 err ;;
                   ret None))
           revenue) ;;
  ret insertedRevenue.

Definition GET : M Response :=
  try_catch
    (client_sql BEGIN ;;
     createExtensions ;;
     seedUsers ;;
     seedCustomers ;;
     seedInvoices ;;
     seedRevenue ;;
     client_sql COMMIT ;;
     ret (new_Response "Database seeded successfully" (mkInit None [])))
    (fun error =>
       client_sql ROLLBACK ;;
       console_error "Error during database seeding:" error ;;
       ret (new_Response "Error seeding database" (mkInit (Some 500) []))).

End Placeholder.
End SeedRoute.

(** The two responses of the seeding handler, and the body of its [try]. *)
Definition seeded : Response :=
  new_Response "Database seeded successfully" (mkInit None []).

Definition seeding_failed : Response :=
  new_Response "Error seeding database" (mkInit (Some 500) []).

Definition seeding (users : list User) (customers : list Customer) (invoices : list Invoice)
           (revenue : list Revenue) : M Response :=
  client_sql BEGIN ;;
  SeedRoute.createExtensions ;;
  SeedRoute.seedUsers users ;;
  SeedRoute.seedCustomers customers ;;
  SeedRoute.seedInvoices invoices ;;
  SeedRoute.seedRevenue revenue ;;
  client_sql COMMIT ;;
  ret seeded.

Lemma GET_seeding users customers invoices revenue :
  SeedRoute.GET users customers invoices revenue
  = try_catch (seeding users customers invoices revenue)
      (fun error =>
         client_sql ROLLBACK ;;
         console_error "Error during database seeding:" error ;;
         ret seeding_failed).
Proof. reflexivity. Qed.

(** ** src/app/query/route.ts *)

(** The file holds the route twice.  The first text builds its responses from
    a status alone. *)
Module QueryRoute.

Definition listInvoices : M (list InvoiceLine) :=
  client <- db_connect ;;
  try_finally
    (try_catch
       (result <- pool_sql client SELECT_INVOICES ;;
        ret (rows result))
       (fun error =>
          console_error "Error querying the database:" error ;;
          throw error))
    (release client).

Definition GET : M Response :=
  try_catch
    (invoices <- listInvoices ;;
     ret (new_Response (JSON_stringify (rows_to_json invoices)) (mkInit (Some 200) [])))
    (fun error =>
       ret (new_Response
              (JSON_stringify (JObject [("error"%string, JString "Failed to fetch invoices")]))
              (mkInit (Some 500) []))).

End QueryRoute.

(** The second text: the same helper, and responses that carry a
    [Content-Type] header. *)
Module QueryRouteWithHeaders.

Definition listInvoices : M (list InvoiceLine) :=
  client <- db_connect ;;
  try_finally
    (try_catch
       (result <- pool_sql client SELECT_INVOICES ;;
        ret (rows result))
       (fun error =>
          console_error "Error querying the database:" error ;;
          throw error))
    (release client).

Definition GET : M Response :=
  try_catch
    (invoices <- listInvoices ;;
     ret (new_Response (JSON_stringify (rows_to_json invoices))
                       (mkInit (Some 200)
                               [("Content-Type"%string, "application/json"%string)])))
    (fun error =>
       ret (new_Response
              (JSON_stringify (JObject [("error"%string, JString "Failed to fetch invoices")]))
              (mkInit (Some 500)
                      [("Content-Type"%string, "application/json"%string)]))).

End QueryRouteWithHeaders.

(** ** Reasoning about runs *)

(** [triple e P m Q X]: from a world in [P], the run of [m] ends in [Q] if it
    returns and in [X] if it throws. *)
Definition triple {A} (e : env) (P : world -> Prop) (m : M A)
           (Q : A -> world -> Prop) (X : exn -> world -> Prop) : Prop :=
  forall w, P w ->
    match m e w with
    | (inr a, w1) => Q a w1
    | (inl x, w1) => X x w1
    end.

Lemma triple_ret {A} e (a : A) (Q : A -> world -> Prop) X :
  triple e (Q a) (ret a) Q X.
Proof. intros w H. exact H. Qed.

Lemma triple_bind {A B} e P (m : M A) (k : A -> M B) R Q X :
  triple e P m R X ->
  (forall a, triple e (R a) (k a) Q X) ->
  triple e P (bind m k) Q X.
Proof.
  intros Hm Hk w Hw. unfold bind. specialize (Hm w Hw).
  destruct (m e w) as [[x|a] w1]; [exact Hm|]. exact (Hk a w1 Hm).
Qed.

Lemma triple_catch {A} e P (body : M A) handler Q H X :
  triple e P body Q H ->
  (forall x, triple e (H x) (handler x) Q X) ->
  triple e P (try_catch body handler) Q X.
Proof.
  intros Hb Hh w Hw. unfold try_catch. specialize (Hb w Hw).
  destruct (body e w) as [[x|a] w1]; [exact (Hh x w1 Hb) | exact Hb].
Qed.

Lemma triple_all {A} e (I : world -> Prop) X (ps : list (M A)) :
  (forall p, In p ps -> triple e I p (fun _ => I) X) ->
  triple e I (Promise_all ps) (fun _ => I) X.
Proof.
  induction ps as [|p ps IH]; intros Hps.
  - intros w Hw. exact Hw.
  - simpl. eapply triple_bind; [apply Hps; left; reflexivity|].
    intros a. eapply triple_bind; [apply IH; intros q Hq; apply Hps; right; exact Hq|].
    intros rest. apply (triple_ret e (a :: rest) (fun _ => I)).
Qed.

Lemma triple_all_map {R A} e (I : world -> Prop) X (f : R -> M A) (l : list R) :
  (forall x, In x l -> triple e I (f x) (fun _ => I) X) ->
  triple e I (Promise_all (map f l)) (fun _ => I) X.
Proof.
  intros H. apply triple_all. intros p Hp.
  apply in_map_iff in Hp. destruct Hp as [x [<- Hx]]. exact (H x Hx).
Qed.

(** The shape of every row callback: the insert inside its own [try], the
    error logged and dropped. *)
Lemma triple_guarded e (I : world -> Prop) X s msg :
  (forall w, I w ->
     match client_sql s e w with
     | (inr _, w1) => I w1
     | (inl x, w1) => I (log (ConsoleError msg x) w1)
     end) ->
  triple e I
    (try_catch (r <- client_sql s ;; ret (Some r))
               (fun err => console_error msg err ;; ret None))
    (fun _ => I) X.
Proof.
  intros H w Hw. specialize (H w Hw).
  unfold try_catch, bind, ret, console_error.
  destruct (client_sql s e w) as [[x|q] w1]; exact H.
Qed.

Lemma run_guarded_run c e w :
  run_guarded c e w
  = match client_sql (guarded_stmt c) e w with
    | (inr q, w1) => (inr (Some q), w1)
    | (inl x, w1) => (inr None, log (ConsoleError (guarded_msg c) x) w1)
    end.
Proof.
  unfold run_guarded, try_catch, bind, ret, console_error.
  destruct (client_sql (guarded_stmt c) e w) as [[x|q] w1]; reflexivity.
Qed.

(** ** Orders *)

Lemma insert_at_perm {A} k (x : A) l : Permutation (insert_at k x l) (x :: l).
Proof.
  revert k. induction l as [|y l IH]; intros [|k]; cbn [insert_at]; try reflexivity.
  rewrite IH. apply perm_swap.
Qed.

Lemma reorder_perm {A} ks (l : list A) : Permutation (reorder ks l) l.
Proof.
  revert ks. induction l as [|x l IH]; intros ks; cbn [reorder]; [constructor|].
  rewrite insert_at_perm. constructor. apply IH.
Qed.

Lemma reorder_nil {A} (l : list A) : reorder [] l = l.
Proof. induction l as [|x l IH]; cbn; [|rewrite IH]; reflexivity. Qed.

Lemma reorder_one {A} ks (x : A) : reorder ks [x] = [x].
Proof. cbn. destruct (hd 0 ks); reflexivity. Qed.

Lemma reorder_Forall {A} (P : A -> Prop) ks l : Forall P l -> Forall P (reorder ks l).
Proof.
  intros H. apply Forall_forall. intros x Hx. rewrite Forall_forall in H. apply H.
  apply (Permutation_in x (reorder_perm ks l)). exact Hx.
Qed.

(** ** The fan-out of callbacks that await first *)

Lemma still_running_Forall (G : guarded -> Prop) (todo : list (nat * (exn + guarded))) :
  Forall (fun p => match snd p with inr c => G c | inl _ => True end) todo ->
  Forall G (still_running todo).
Proof.
  induction todo as [|[i [x|c]] todo IH]; intros H; inversion H; subst; cbn; auto.
Qed.

Lemma call_all_length ts e w : List.length (fst (call_all ts e w)) = List.length ts.
Proof.
  revert w. induction ts as [|t l IH]; intros w; cbn [call_all]; [reflexivity|].
  destruct (awaited t e w) as [r w1]. specialize (IH w1).
  destruct (call_all l e w1) as [rs w2]. cbn [fst] in *. cbn. rewrite IH. reflexivity.
Qed.

Lemma nth_error_combine_seq {A} (l : list A) n i :
  i < n ->
  nth_error (combine (seq 0 n) l) i = option_map (fun x => (i, x)) (nth_error l i).
Proof.
  enough (G : forall k n i, i < n ->
                nth_error (combine (seq k n) l) i
                = option_map (fun x => (k + i, x)) (nth_error l i))
    by (intros H; exact (G 0 n i H)).
  clear n i. induction l as [|x l IH]; intros k n i Hi.
  - destruct (seq k n); destruct i; reflexivity.
  - destruct n as [|n]; [lia|]. cbn [seq combine]. destruct i as [|i]; cbn [nth_error].
    + cbn. rewrite Nat.add_0_r. reflexivity.
    + rewrite IH by lia. rewrite Nat.add_succ_r. reflexivity.
Qed.

Section Awaiting.

Variable e : env.
(** [I] holds while no awaited operation has been rejected, [W xs] once the
    operations in [xs] have; [G] is what the callbacks are once their value
    is there. *)
Variable I : world -> Prop.
Variable W : list exn -> world -> Prop.
Variable X : exn -> world -> Prop.
Variable G : guarded -> Prop.
Variable ts : list awaiting.

Hypothesis at_call : forall t, In t ts -> forall w, I w ->
  match awaited t e w with
  | (inr v, w1) => I w1 /\ G (and_then t v)
  | (inl x, w1) => W [x] w1
  end.
Hypothesis at_call_doomed : forall t, In t ts -> forall xs w, W xs w ->
  match awaited t e w with
  | (inr v, w1) => W xs w1 /\ G (and_then t v)
  | (inl x, w1) => W (x :: xs) w1
  end.
Hypothesis at_callback : forall c, G c -> forall w, I w ->
  match client_sql (guarded_stmt c) e w with
  | (inr _, w1) => I w1
  | (inl x, w1) => I (log (ConsoleError (guarded_msg c) x) w1)
  end.
Hypothesis at_callback_doomed : forall c, G c -> forall xs w, W xs w ->
  match client_sql (guarded_stmt c) e w with
  | (inr _, w1) => W xs w1
  | (inl x, w1) => W xs (log (ConsoleError (guarded_msg c) x) w1)
  end.
Hypothesis at_rejection : forall x xs cs w,
  In x xs -> Forall G cs -> W xs w -> X x (leave_running cs w).

Let settled (xs : list exn) (r : exn + guarded) : Prop :=
  match r with inr c => G c | inl x => In x xs end.

Let fulfilled (r : exn + guarded) : Prop :=
  match r with inr c => G c | inl _ => False end.

Lemma settled_more xs ys rs :
  incl xs ys -> Forall (settled xs) rs -> Forall (settled ys) rs.
Proof.
  intros Hi. apply Forall_impl. intros [x|c] H; [apply Hi; exact H | exact H].
Qed.

Lemma call_all_doomed l xs w :
  incl l ts -> W xs w ->
  exists ys, W ys (snd (call_all l e w)) /\ incl xs ys
             /\ Forall (settled ys) (fst (call_all l e w)).
Proof.
  revert xs w. induction l as [|t l IH]; intros xs w Hl Hw; cbn [call_all].
  - exists xs. cbn. split; [exact Hw|]. split; [apply incl_refl | constructor].
  - pose proof (at_call_doomed t (Hl t (or_introl eq_refl)) xs w Hw) as Ht.
    assert (Hl' : incl l ts) by (intros t' Ht'; apply Hl; right; exact Ht').
    destruct (awaited t e w) as [[x|v] w1].
    + destruct (IH (x :: xs) w1 Hl' Ht) as [ys [H1 [H2 H3]]].
      destruct (call_all l e w1) as [rs w2]. cbn [fst snd] in *.
      exists ys. split; [exact H1|]. split; [intros a Ha; apply H2; right; exact Ha|].
      constructor; [apply H2; left; reflexivity | exact H3].
    + destruct Ht as [Ht Hg]. destruct (IH xs w1 Hl' Ht) as [ys [H1 [H2 H3]]].
      destruct (call_all l e w1) as [rs w2]. cbn [fst snd] in *.
      exists ys. split; [exact H1|]. split; [exact H2|].
      constructor; [exact Hg | exact H3].
Qed.

Let rejected (r : exn + guarded) : Prop :=
  match r with inr _ => False | inl _ => True end.

Lemma call_all_good l w :
  incl l ts -> I w ->
  (I (snd (call_all l e w)) /\ Forall fulfilled (fst (call_all l e w)))
  \/ (exists ys, W ys (snd (call_all l e w)) /\ Forall (settled ys) (fst (call_all l e w))
                 /\ Exists rejected (fst (call_all l e w))).
Proof.
  revert w. induction l as [|t l IH]; intros w Hl Hw; cbn [call_all].
  - left. cbn. split; [exact Hw | constructor].
  - pose proof (at_call t (Hl t (or_introl eq_refl)) w Hw) as Ht.
    assert (Hl' : incl l ts) by (intros t' Ht'; apply Hl; right; exact Ht').
    destruct (awaited t e w) as [[x|v] w1].
    + right. destruct (call_all_doomed l [x] w1 Hl' Ht) as [ys [H1 [H2 H3]]].
      destruct (call_all l e w1) as [rs w2]. cbn [fst snd] in *.
      exists ys. split; [exact H1|]. split; [|left; constructor].
      constructor; [apply H2; left; reflexivity | exact H3].
    + destruct Ht as [Ht Hg]. destruct (IH w1 Hl' Ht) as [[H1 H2]|[ys [H1 [H2 H3]]]];
        destruct (call_all l e w1) as [rs w2]; cbn [fst snd] in *.
      * left. split; [exact H1|]. constructor; [exact Hg | exact H2].
      * right. exists ys. split; [exact H1|]. split; [|right; exact H3].
        constructor; [exact Hg | exact H2].
Qed.

Lemma complete_good todo got :
  Forall (fun p => fulfilled (snd p)) todo ->
  triple e I (complete todo got) (fun _ => I) X.
Proof.
  revert got. induction todo as [|[i [x|c]] todo IH]; intros got Hall w Hw;
    inversion Hall as [|p l Hp Hl]; subst; cbn [complete].
  - exact Hw.
  - destruct Hp.
  - cbn [snd] in Hp. unfold bind. rewrite run_guarded_run.
    pose proof (at_callback c Hp w Hw) as H.
    destruct (client_sql (guarded_stmt c) e w) as [[y|q] w1]; apply (IH _ Hl _ H).
Qed.

Lemma complete_doomed xs todo got :
  Forall (fun p => settled xs (snd p)) todo ->
  Exists (fun p => rejected (snd p)) todo ->
  forall w, W xs w ->
    match complete todo got e w with
    | (inr _, _) => False
    | (inl x, w1) => X x w1
    end.
Proof.
  revert got. induction todo as [|[i [x|c]] todo IH]; intros got Hall Hex w Hw;
    inversion Hall as [|p l Hp Hl]; subst; cbn [complete].
  - inversion Hex.
  - cbn [snd] in Hp. apply (at_rejection x xs); [exact Hp | | exact Hw].
    apply still_running_Forall. revert Hl. apply Forall_impl.
    intros [j [y|d]] H; cbn in *; auto.
  - cbn [snd] in Hp. unfold bind. rewrite run_guarded_run.
    assert (Hex' : Exists (fun p => rejected (snd p)) todo)
      by (inversion Hex as [? ? H|? ? H]; [destruct H | exact H]).
    pose proof (at_callback_doomed c Hp xs w Hw) as H.
    destruct (client_sql (guarded_stmt c) e w) as [[y|q] w1]; apply (IH _ Hl Hex' _ H).
Qed.

Lemma triple_all_awaiting :
  triple e I (Promise_all_awaiting ts) (fun _ => I) X.
Proof.
  intros w Hw. unfold Promise_all_awaiting.
  pose proof (call_all_good ts w (incl_refl ts) Hw) as Hc.
  pose proof (call_all_length ts e w) as Hlen.
  destruct (call_all ts e w) as [rs w1]. cbn [fst snd] in Hc, Hlen.
  set (todo := reorder (completion e) (combine (seq 0 (List.length ts)) rs)).
  assert (Hin : forall p, In p todo -> In (snd p) rs).
  { intros [i r] Hp. apply (Permutation_in _ (reorder_perm _ _)) in Hp.
    apply in_combine_r in Hp. exact Hp. }
  destruct Hc as [[H1 H2]|[ys [H1 [H2 H3]]]].
  - assert (Hall : Forall (fun p => fulfilled (snd p)) todo).
    { apply Forall_forall. intros p Hp. rewrite Forall_forall in H2. apply H2, Hin, Hp. }
    pose proof (complete_good todo [] Hall w1 H1) as H.
    destruct (complete todo [] e w1) as [[x|got] w2]; exact H.
  - assert (Hall : Forall (fun p => settled ys (snd p)) todo).
    { apply Forall_forall. intros p Hp. rewrite Forall_forall in H2. apply H2, Hin, Hp. }
    assert (Hex : Exists (fun p => rejected (snd p)) todo).
    { apply Exists_exists in H3. destruct H3 as [r [Hr Hrej]].
      destruct (In_nth_error _ _ Hr) as [i Hi].
      apply Exists_exists. exists (i, r). split; [|exact Hrej].
      apply (Permutation_in _ (Permutation_sym (reorder_perm _ _))).
      apply nth_error_In with (n := i).
      assert (Hlt : i < List.length rs) by (apply nth_error_Some; congruence).
      rewrite nth_error_combine_seq by (rewrite <- Hlen; exact Hlt). rewrite Hi.
      reflexivity. }
    pose proof (complete_doomed ys todo [] Hall Hex w1 H1) as H.
    destruct (complete todo [] e w1) as [[x|got] w2]; [exact H | destruct H].
Qed.

End Awaiting.

(** The steps of the seeding handler, in the order of [GET]. *)
Inductive phase : Type :=
| PBegin | PExtension | PUsers | PCustomers | PInvoices | PRevenue | PCommit | PRollback.

(** The callback of a placeholder user once its hash is there. *)
Definition insert_of_user (u : User) (h : string) : guarded :=
  Guarded (INSERT_USER (mkUser (user_id u) (user_name u) (user_email u) h))
          ("Error inserting user: " +++ user_email u).

Definition user_callback (users : list User) (e : env) (c : guarded) : Prop :=
  exists u n h,
    In u users /\ bcrypt e n (user_password u) 10 = Some h /\ c = insert_of_user u h.

Section Flow.

Variable users : list User.
Variable customers : list Customer.
Variable invoices : list Invoice.
Variable revenue : list Revenue.
Variable e : env.

(** [I p] holds while step [p] runs and nothing was thrown; [W xs] in the
    users step once the hashes [xs] are known to be rejected; [X x] when [x]
    leaves the [try]; [F x] when the [catch] is done; [G x y] when the
    ROLLBACK of the [catch] has failed with [y]. *)
Variable P0 : world -> Prop.
Variable I : phase -> world -> Prop.
Variable W : list exn -> world -> Prop.
Variable X : exn -> world -> Prop.
Variable F : exn -> world -> Prop.
Variable G : exn -> exn -> world -> Prop.

Hypothesis at_begin :
  triple e P0 (client_sql BEGIN) (fun _ => I PBegin) X.
Hypothesis at_extension :
  triple e (I PBegin) (client_sql CREATE_EXTENSION) (fun _ => I PExtension) X.
Hypothesis at_users :
  triple e (I PExtension) (client_sql (CREATE_TABLE Users)) (fun _ => I PUsers) X.
Hypothesis at_hash : forall u, In u users -> forall w, I PUsers w ->
  match bcrypt_hash (user_password u) 10 e w with
  | (inr _, w1) => I PUsers w1
  | (inl x, w1) => W [x] w1
  end.
Hypothesis at_hash_doomed : forall u, In u users -> forall xs w, W xs w ->
  match bcrypt_hash (user_password u) 10 e w with
  | (inr _, w1) => W xs w1
  | (inl x, w1) => W (x :: xs) w1
  end.
Hypothesis at_user : forall c, user_callback users e c -> forall w, I PUsers w ->
  match client_sql (guarded_stmt c) e w with
  | (inr _, w1) => I PUsers w1
  | (inl x, w1) => I PUsers (log (ConsoleError (guarded_msg c) x) w1)
  end.
Hypothesis at_user_doomed : forall c, user_callback users e c -> forall xs w, W xs w ->
  match client_sql (guarded_stmt c) e w with
  | (inr _, w1) => W xs w1
  | (inl x, w1) => W xs (log (ConsoleError (guarded_msg c) x) w1)
  end.
Hypothesis at_rejection : forall x xs cs w,
  In x xs -> Forall (user_callback users e) cs -> W xs w -> X x (leave_running cs w).
Hypothesis at_customers :
  triple e (I PUsers) (client_sql (CREATE_TABLE Customers)) (fun _ => I PCustomers) X.
Hypothesis at_customer : forall c, In c customers -> forall w, I PCustomers w ->
  match client_sql (INSERT_CUSTOMER (mkCustomer (customer_id c) (customer_name c)
                                                (customer_email c) (customer_image_url c)))
                   e w with
  | (inr _, w1) => I PCustomers w1
  | (inl x, w1) =>
      I PCustomers
        (log (ConsoleError ("Error inserting customer: " +++ customer_email c) x) w1)
  end.
Hypothesis at_invoices :
  triple e (I PCustomers) (client_sql (CREATE_TABLE Invoices)) (fun _ => I PInvoices) X.
Hypothesis at_invoice : forall i, In i invoices -> forall w, I PInvoices w ->
  match client_sql (INSERT_INVOICE (mkInvoice (invoice_customer_id i) (invoice_amount i)
                                              (invoice_status i) (invoice_date i)))
                   e w with
  | (inr _, w1) => I PInvoices w1
  | (inl x, w1) =>
      I PInvoices
        (log (ConsoleError ("Error inserting invoice for customer: "
                              +++ uuid_to_string (invoice_customer_id i)) x) w1)
  end.
Hypothesis at_revenue :
  triple e (I PInvoices) (client_sql (CREATE_TABLE RevenueT)) (fun _ => I PRevenue) X.
Hypothesis at_month : forall r, In r revenue -> forall w, I PRevenue w ->
  match client_sql (INSERT_REVENUE (mkRevenue (rev_month r) (rev_revenue r))) e w with
  | (inr _, w1) => I PRevenue w1
  | (inl x, w1) =>
      I PRevenue
        (log (ConsoleError ("Error inserting revenue for month: " +++ rev_month r) x) w1)
  end.
Hypothesis at_commit :
  triple e (I PRevenue) (client_sql COMMIT) (fun _ => I PCommit) X.
Hypothesis at_rollback : forall x w, X x w ->
  match client_sql ROLLBACK e w with
  | (inr _, w1) => F x (log (ConsoleError "Error during database seeding:" x) w1)
  | (inl y, w1) => G x y w1
  end.

Lemma hash_called u w :
  fst (bcrypt_hash (user_password u) 10 e w)
  = match bcrypt e (salts w) (user_password u) 10 with
    | Some h => inr h
    | None => inl (BcryptError (user_password u))
    end.
Proof. unfold bcrypt_hash. destruct (bcrypt e (salts w) (user_password u) 10); reflexivity. Qed.

Lemma seedUsers_flow :
  triple e (I PExtension) (SeedRoute.seedUsers users) (fun _ => I PUsers) X.
Proof.
  unfold SeedRoute.seedUsers.
  eapply triple_bind; [exact at_users|]. intros ?.
  eapply triple_bind.
  - apply (triple_all_awaiting e (I PUsers) W X (user_callback users e)).
    + intros t Ht w Hw. apply in_map_iff in Ht. destruct Ht as [u [<- Hu]].
      cbn [awaited and_then]. pose proof (at_hash u Hu w Hw) as H.
      pose proof (hash_called u w) as Hc.
      destruct (bcrypt_hash (user_password u) 10 e w) as [[x|h] w1]; [exact H|].
      split; [exact H|]. cbn [fst] in Hc.
      destruct (bcrypt e (salts w) (user_password u) 10) as [h1|] eqn:Eh; [|discriminate Hc].
      injection Hc as ->. exists u, (salts w), h1. auto.
    + intros t Ht xs w Hw. apply in_map_iff in Ht. destruct Ht as [u [<- Hu]].
      cbn [awaited and_then]. pose proof (at_hash_doomed u Hu xs w Hw) as H.
      pose proof (hash_called u w) as Hc.
      destruct (bcrypt_hash (user_password u) 10 e w) as [[x|h] w1]; [exact H|].
      split; [exact H|]. cbn [fst] in Hc.
      destruct (bcrypt e (salts w) (user_password u) 10) as [h1|] eqn:Eh; [|discriminate Hc].
      injection Hc as ->. exists u, (salts w), h1. auto.
    + exact at_user.
    + exact at_user_doomed.
    + exact at_rejection.
  - intros l. apply (triple_ret e l (fun _ => I PUsers)).
Qed.

Lemma seedCustomers_flow :
  triple e (I PUsers) (SeedRoute.seedCustomers customers) (fun _ => I PCustomers) X.
Proof.
  unfold SeedRoute.seedCustomers.
  eapply triple_bind; [exact at_customers|]. intros ?.
  eapply triple_bind.
  - apply triple_all_map. intros c Hc. apply triple_guarded. exact (at_customer c Hc).
  - intros l. apply (triple_ret e l (fun _ => I PCustomers)).
Qed.

Lemma seedInvoices_flow :
  triple e (I PCustomers) (SeedRoute.seedInvoices invoices) (fun _ => I PInvoices) X.
Proof.
  unfold SeedRoute.seedInvoices.
  eapply triple_bind; [exact at_invoices|]. intros ?.
  eapply triple_bind.
  - apply triple_all_map. intros i Hi. apply triple_guarded. exact (at_invoice i Hi).
  - intros l. apply (triple_ret e l (fun _ => I PInvoices)).
Qed.

Lemma seedRevenue_flow :
  triple e (I PInvoices) (SeedRoute.seedRevenue revenue) (fun _ => I PRevenue) X.
Proof.
  unfold SeedRoute.seedRevenue.
  eapply triple_bind; [exact at_revenue|]. intros ?.
  eapply triple_bind.
  - apply triple_all_map. intros r Hr. apply triple_guarded. exact (at_month r Hr).
  - intros l. apply (triple_ret e l (fun _ => I PRevenue)).
Qed.

Lemma seeding_flow :
  triple e P0 (seeding users customers invoices revenue)
         (fun r w => r = seeded /\ I PCommit w) X.
Proof.
  unfold seeding, SeedRoute.createExtensions.
  eapply triple_bind; [exact at_begin|]. intros ?.
  eapply triple_bind.
  { eapply triple_bind; [exact at_extension|]. intros ?.
    apply (triple_ret e tt (fun _ => I PExtension)). }
  intros ?.
  eapply triple_bind; [exact seedUsers_flow|]. intros ?.
  eapply triple_bind; [exact seedCustomers_flow|]. intros ?.
  eapply triple_bind; [exact seedInvoices_flow|]. intros ?.
  eapply triple_bind; [exact seedRevenue_flow|]. intros ?.
  eapply triple_bind; [exact at_commit|]. intros ?.
  intros w Hw. simpl. split; [reflexivity | exact Hw].
Qed.

(** The handler answers with the success response after the last step, or
    with the failure response after the [catch]; it throws when the ROLLBACK
    of the [catch] fails. *)
Lemma GET_flow w :
  P0 w ->
  match SeedRoute.GET users customers invoices revenue e w with
  | (r, w1) =>
      (r = inr seeded /\ I PCommit w1)
      \/ (r = inr seeding_failed /\ exists x, F x w1)
      \/ (exists x y, r = inl y /\ G x y w1)
  end.
Proof.
  intros Hw. rewrite GET_seeding. unfold try_catch.
  pose proof (seeding_flow w Hw) as Hs.
  destruct (seeding users customers invoices revenue e w) as [[x|r] w1].
  - pose proof (at_rollback x w1 Hs) as Hr.
    unfold bind, console_error, ret.
    destruct (client_sql ROLLBACK e w1) as [[y|q] w2].
    + right. right. exists x, y. split; [reflexivity | exact Hr].
    + right. left. split; [reflexivity|]. exists x. exact Hr.
  - destruct Hs as [-> Hc]. left. split; [reflexivity | exact Hc].
Qed.

End Flow.

(** ** What one operation does to the world *)

Definition raised {A} (s : stmt) (r : string + A) : exn + A :=
  match r with
  | inl code => inl (SqlError s code)
  | inr q => inr q
  end.

Lemma client_sql_run s e w :
  exists r d,
    exec (mode e) s (faulty e (issued w)) (bind_error (date_error e) s) (Generated (uuids w))
         (pg w)
    = (r, d)
    /\ client_sql s e w
       = (raised s r,
          mkWorld d (match s with INSERT_INVOICE _ => S (uuids w) | _ => uuids w end)
                  (salts w) (S (issued w)) (borrowed w) (history w ++ [Sql s r]) (pending w)).
Proof.
  unfold client_sql.
  destruct (exec (mode e) s (faulty e (issued w)) (bind_error (date_error e) s)
                 (Generated (uuids w)) (pg w)) as [r d].
  exists r, d. split; [reflexivity|]. destruct r; reflexivity.
Qed.

(** No statement of the seeding client touches the callbacks left behind. *)
Lemma client_sql_pending s e w : pending (snd (client_sql s e w)) = pending w.
Proof. destruct (client_sql_run s e w) as [r [d [_ ->]]]. reflexivity. Qed.

Ltac exec_split H :=
  unfold exec, fail_in, committed in *;
  repeat match type of H with
         | context [if ?b then _ else _] => destruct b
         | context [match ?s with BEGIN => _ | _ => _ end] => destruct s
         | context [match tx ?d with _ => _ end] =>
             let st := fresh "st" in let sv := fresh "sv" in
             destruct d as [st [|sv|sv]]; cbn [tx store] in *
         | context [match ?m with AbortTransaction => _ | StatementRollback => _ end] =>
             destruct m
         | context [match ?b with Some _ => _ | None => _ end] => destruct b
         | context [match run ?s ?f ?t with _ => _ end] =>
             let E := fresh "E" in destruct (run s f t) as [?|[? ?]] eqn:E
         end.

(** Inside a transaction block, no statement but COMMIT and ROLLBACK touches
    what is committed or leaves the block, whether it succeeds or fails. *)
Lemma exec_inside mode s fault bind fresh d r d1 :
  exec mode s fault bind fresh d = (r, d1) ->
  s <> COMMIT -> s <> ROLLBACK ->
  tx d <> Idle ->
  tx d1 <> Idle /\ committed d1 = committed d.
Proof.
  intros H Hc Hr Ht. exec_split H; inversion H; subst; cbn in *; split; congruence.
Qed.

(** BEGIN never touches what is committed; when it is accepted the session
    is inside a block. *)
Lemma exec_begin mode fault bind fresh d r d1 :
  exec mode BEGIN fault bind fresh d = (r, d1) ->
  committed d1 = committed d /\ (forall q, r = inr q -> tx d1 <> Idle).
Proof.
  intros H. exec_split H; inversion H; subst; cbn; split; congruence.
Qed.

(** ROLLBACK never touches what is committed; when it is accepted the
    session is idle over what is committed. *)
Lemma exec_rollback mode fault bind fresh d r d1 :
  exec mode ROLLBACK fault bind fresh d = (r, d1) ->
  committed d1 = committed d
  /\ (forall q, r = inr q -> q = done 0 /\ tx d1 = Idle /\ store d1 = committed d).
Proof.
  intros H. exec_split H; inversion H; subst; cbn; split; try congruence;
    intros q Hq; injection Hq as <-; auto.
Qed.

(** COMMIT leaves the session idle when it is accepted; when it fails it
    leaves what is committed, and the block, as they are. *)
Lemma exec_commit mode fault bind fresh d r d1 :
  exec mode COMMIT fault bind fresh d = (r, d1) ->
  (forall q, r = inr q -> q = done 0 /\ tx d1 = Idle)
  /\ (forall code, r = inl code ->
        committed d1 = committed d /\ (tx d <> Idle -> tx d1 <> Idle)).
Proof.
  intros H. exec_split H; inversion H; subst; cbn; split;
    solve [intros q Hq; try discriminate Hq; injection Hq as <-; auto
          |intros code Hq; try discriminate Hq; split; congruence].
Qed.

(** Where the tables of a session come from after one statement: they are
    the former ones, or the committed ones, or the result of the statement. *)
Lemma exec_cases mode s fault bind fresh d r d1 :
  exec mode s fault bind fresh d = (r, d1) ->
  (store d1 = store d \/ store d1 = committed d
   \/ exists q, r = inr q /\ bind = None /\ run s fresh (store d) = inr (store d1, q))
  /\ (committed d1 = committed d \/ committed d1 = store d1).
Proof.
  intros H. exec_split H; inversion H; subst; cbn; split; auto;
    right; right; eexists; repeat split; first [reflexivity | eassumption].
Qed.

(** The end of a block, when the server accepts it. *)
Lemma exec_end mode s fault bind fresh d r d1 q :
  exec mode s fault bind fresh d = (r, d1) ->
  s = COMMIT \/ s = ROLLBACK ->
  r = inr q ->
  q = done 0 /\ tx d1 = Idle
  /\ (forall t, tx d = Failed t -> store d1 = t)
  /\ (forall t, tx d = InTx t -> s = ROLLBACK -> store d1 = t)
  /\ (forall t, tx d = InTx t -> s = COMMIT -> store d1 = store d)
  /\ (tx d = Idle -> store d1 = store d).
Proof.
  intros H [->| ->] ->; exec_split H; inversion H; subst; cbn;
    repeat split; auto; intros; congruence.
Qed.

Lemma exec_begin_idle mode fault bind fresh d r d1 :
  exec mode BEGIN fault bind fresh d = (r, d1) ->
  tx d = Idle ->
  (forall q, r = inr q -> q = done 0 /\ tx d1 = InTx (store d) /\ store d1 = store d)
  /\ (forall code, r = inl code -> d1 = d).
Proof.
  intros H Ht. exec_split H; try discriminate Ht; inversion H; subst; cbn; split;
    solve [intros q Hq; try discriminate Hq; inversion Hq; subst; auto
          |intros code Hq; try discriminate Hq; reflexivity].
Qed.

(** An aborted block refuses every statement, up to its COMMIT or ROLLBACK. *)
Lemma exec_failed mode s fault bind fresh d r d1 t :
  exec mode s fault bind fresh d = (r, d1) ->
  s <> COMMIT -> s <> ROLLBACK ->
  tx d = Failed t ->
  (exists code, r = inl code) /\ d1 = d.
Proof.
  intros H Hc Hr Ht. exec_split H; try discriminate Ht; try congruence;
    inversion H; subst; split; eauto.
Qed.

(** Inside a block a statement that is no transaction command either fails and
    leaves the tables as they are, or succeeds and leaves the block as it is. *)
Lemma exec_in_block mode s fault bind fresh d r d1 t :
  exec mode s fault bind fresh d = (r, d1) ->
  is_control s = false ->
  tx d = InTx t ->
  ((exists code, r = inl code) /\ store d1 = store d
   /\ (tx d1 = InTx t /\ mode = StatementRollback
       \/ tx d1 = Failed t /\ mode = AbortTransaction))
  \/ (exists q, r = inr q /\ tx d1 = InTx t /\ bind = None /\ fault = false
                /\ run s fresh (store d) = inr (store d1, q)).
Proof.
  intros H Hc Ht.
  exec_split H; try discriminate Hc; try discriminate Ht; try (injection Ht as <-);
    inversion H; subst; cbn;
    solve [left; split; [eexists; reflexivity|]; split; [reflexivity|]; auto
          |right; eexists; repeat split; first [reflexivity | eassumption]].
Qed.

(** Outside a block a statement that is no transaction command is committed
    at once if it succeeds and changes nothing if it fails. *)
Lemma exec_autocommit mode s fault bind fresh d r d1 :
  exec mode s fault bind fresh d = (r, d1) ->
  is_control s = false ->
  tx d = Idle ->
  tx d1 = Idle
  /\ ((exists code, r = inl code) /\ store d1 = store d
      \/ exists q, r = inr q /\ run s fresh (store d) = inr (store d1, q)).
Proof.
  intros H Hc Ht.
  exec_split H; try discriminate Hc; try discriminate Ht; inversion H; subst; cbn;
    (split; [first [reflexivity | assumption]|]);
    solve [left; split; [eexists; reflexivity | reflexivity]
          |right; eexists; split; first [reflexivity | eassumption]].
Qed.
(** ** The course of a seed invocation *)

(** The events after which the [try] of the seeding handler is left at a
    seeding step: a failed DDL statement, a rejected hash. *)
Definition escapes (ev : event) : bool :=
  match ev with
  | Sql s (inl _) => is_ddl s
  | Hash _ _ None => true
  | _ => false
  end.

(** All the events after which the [try] is left: those, and a failed BEGIN
    or COMMIT. *)
Definition interrupting (ev : event) : bool :=
  match ev with
  | Sql s (inl _) => is_ddl s || is_control s
  | Hash _ _ None => true
  | _ => false
  end.

Definition hash_cost_10 (ev : event) : Prop :=
  match ev with Hash _ cost _ => cost = 10 | _ => True end.

(** ** The order of the steps *)

Definition rank (p : phase) : nat :=
  match p with
  | PBegin => 0 | PExtension => 1 | PUsers => 2 | PCustomers => 3
  | PInvoices => 4 | PRevenue => 5 | PCommit => 6 | PRollback => 7
  end.

Definition phase_eqb (p q : phase) : bool := rank p =? rank q.

Lemma phase_eqb_spec p q : reflect (p = q) (phase_eqb p q).
Proof. destruct p, q; simpl; constructor; congruence. Qed.

(** The step a statement belongs to. *)
Definition statement_phase (s : stmt) : option phase :=
  match s with
  | BEGIN => Some PBegin
  | COMMIT => Some PCommit
  | ROLLBACK => Some PRollback
  | CREATE_EXTENSION => Some PExtension
  | CREATE_TABLE Users | INSERT_USER _ => Some PUsers
  | CREATE_TABLE Customers | INSERT_CUSTOMER _ => Some PCustomers
  | CREATE_TABLE Invoices | INSERT_INVOICE _ => Some PInvoices
  | CREATE_TABLE RevenueT | INSERT_REVENUE _ => Some PRevenue
  | SELECT_INVOICES => None
  end.

(** The step an event is an action of: a statement's own, the users step for
    a hash; console output is no action of a step. *)
Definition step_of (ev : event) : option phase :=
  match ev with
  | Sql s _ => statement_phase s
  | Hash _ _ _ => Some PUsers
  | _ => None
  end.

Definition push (p : phase) (l : list phase) : list phase :=
  match rev l with
  | q :: _ => if phase_eqb q p then l else l ++ [p]
  | [] => [p]
  end.

(** The steps of a run in the order in which they were entered: the step of
    each action, a step being listed again only if another one came between. *)
Definition steps (evs : list event) : list phase :=
  fold_left (fun acc ev => match step_of ev with Some p => push p acc | None => acc end)
            evs [].

Definition all_steps : list phase :=
  [PBegin; PExtension; PUsers; PCustomers; PInvoices; PRevenue; PCommit].

(** The steps from the first through [p]. *)
Definition upto (p : phase) : list phase := firstn (S (rank p)) all_steps.

Lemma steps_snoc evs ev :
  steps (evs ++ [ev])
  = match step_of ev with Some p => push p (steps evs) | None => steps evs end.
Proof. unfold steps. rewrite fold_left_app. reflexivity. Qed.


(** *** From the list of steps to the order of the events *)

Lemma push_last p l : exists l1, push p l = l1 ++ [p].
Proof.
  unfold push. destruct (rev l) as [|q t] eqn:E.
  - exists []. reflexivity.
  - destruct (phase_eqb_spec q p) as [->|_].
    + exists (rev t). rewrite <- (rev_involutive l), E. reflexivity.
    + exists l. reflexivity.
Qed.

Lemma push_keeps p l a : In a l -> In a (push p l).
Proof.
  unfold push. destruct (rev l) as [|q t] eqn:E.
  - apply (f_equal (@rev phase)) in E. rewrite rev_involutive in E. subst l. intros [].
  - destruct (phase_eqb q p); [auto | intros H; apply in_or_app; left; exact H].
Qed.

Lemma steps_mem evs ev a : In ev evs -> step_of ev = Some a -> In a (steps evs).
Proof.
  induction evs as [|x evs IH] using rev_ind; [intros []|].
  intros Hin Ha. rewrite steps_snoc. apply in_app_or in Hin. destruct Hin as [Hin|[->|[]]].
  - specialize (IH Hin Ha). destruct (step_of x); [apply push_keeps|]; exact IH.
  - rewrite Ha. destruct (push_last a (steps evs)) as [l1 ->].
    apply in_or_app. right. left. reflexivity.
Qed.

(** A list of steps each of which comes later in [GET] than the one before. *)
Definition ascending (l : list phase) : Prop :=
  forall l1 a l2, l = l1 ++ a :: l2 -> Forall (fun b => rank a < rank b) l2.

Lemma ascending_front l b : ascending (l ++ [b]) -> ascending l.
Proof.
  intros H l1 a l2 E. specialize (H l1 a (l2 ++ [b])).
  rewrite E, <- app_assoc in H. specialize (H eq_refl).
  apply Forall_app in H. exact (proj1 H).
Qed.

Lemma ascending_top l b a : ascending (l ++ [b]) -> In a l -> rank a < rank b.
Proof.
  intros H Ha. apply in_split in Ha. destruct Ha as [l1 [l2 ->]].
  specialize (H l1 a (l2 ++ [b])). rewrite <- app_assoc in H. specialize (H eq_refl).
  apply Forall_app in H. destruct H as [_ H]. inversion H. assumption.
Qed.

Lemma snoc_split {A} (l pre post : list A) (x ev : A) :
  l ++ [x] = pre ++ ev :: post ->
  (post = [] /\ pre = l /\ ev = x)
  \/ (exists post0, post = post0 ++ [x] /\ l = pre ++ ev :: post0).
Proof.
  intros E. induction post as [|y post _] using rev_ind.
  - left. apply app_inj_tail in E. destruct E as [-> ->]. auto.
  - right. exists post.
    rewrite app_comm_cons, app_assoc in E. apply app_inj_tail in E.
    destruct E as [-> ->]. auto.
Qed.

(** When the steps of a run are ascending, no action of a step comes after an
    action of a later step. *)
Lemma steps_order evs :
  ascending (steps evs) ->
  forall pre ev post ev1 a b,
    evs = pre ++ ev :: post -> In ev1 post ->
    step_of ev = Some a -> step_of ev1 = Some b -> rank a <= rank b.
Proof.
  induction evs as [|x evs IH] using rev_ind; intros Hasc pre ev post ev1 a b E Hin Ha Hb.
  - destruct pre; discriminate E.
  - rewrite steps_snoc in Hasc.
    apply snoc_split in E. destruct E as [[-> _]|[post0 [-> ->]]]; [destruct Hin|].
    assert (Hmem : In a (steps (pre ++ ev :: post0))).
    { apply (steps_mem _ ev); [apply in_or_app; right; left; reflexivity | exact Ha]. }
    apply in_app_or in Hin. destruct Hin as [Hin|[->|[]]].
    + assert (Hasc0 : ascending (steps (pre ++ ev :: post0))).
      { destruct (step_of x) as [c|]; [|exact Hasc]. unfold push in Hasc.
        destruct (rev (steps (pre ++ ev :: post0))) as [|q t] eqn:Er.
        - apply (f_equal (@rev phase)) in Er. rewrite rev_involutive in Er.
          rewrite Er. intros l1 a0 l2 E0. destruct l1; discriminate E0.
        - destruct (phase_eqb q c); [exact Hasc | exact (ascending_front _ _ Hasc)]. }
      exact (IH Hasc0 pre ev post0 ev1 a b eq_refl Hin Ha Hb).
    + rewrite Hb in Hasc. unfold push in Hasc.
      destruct (rev (steps (pre ++ ev :: post0))) as [|q t] eqn:Er.
      * apply (f_equal (@rev phase)) in Er. rewrite rev_involutive in Er.
        rewrite Er in Hmem. destruct Hmem.
      * apply (f_equal (@rev phase)) in Er. rewrite rev_involutive in Er. simpl in Er.
        destruct (phase_eqb_spec q b) as [->|_].
        -- rewrite Er in Hmem, Hasc. apply in_app_or in Hmem.
           destruct Hmem as [Hmem|[->|[]]]; [|lia].
           pose proof (ascending_top _ _ _ Hasc Hmem). lia.
        -- pose proof (ascending_top _ _ _ Hasc Hmem). lia.
Qed.

Lemma ascending_upto p : ascending (upto p ++ [PRollback]).
Proof.
  intros l1 a l2 E.
  destruct p; cbv in E;
    repeat (destruct l1 as [|? l1];
            [injection E as <- <-; repeat constructor; simpl; lia
            |injection E as <- E]);
    try (destruct l1; discriminate E).
Qed.

Lemma ascending_all_steps : ascending all_steps.
Proof. exact (ascending_front _ _ (ascending_upto PCommit)). Qed.

Definition seeding_log : string := "Error during database seeding:".

(** Why the [try] was left with [x], after the events [evs] that end in step
    [p]: the last statement, a DDL statement, BEGIN or COMMIT, failed with
    [x], and nothing is left behind; or [x] is the rejection of a hash called
    in the users step, and the callbacks [cs] of other users had not resumed
    yet. *)
Definition cause (users : list User) (e : env) (x : exn) (evs : list event) (p : phase)
           (cs : list guarded) : Prop :=
  (exists pre s code,
      evs = pre ++ [Sql s (inl code)]
      /\ Forall (fun ev => interrupting ev = false) pre
      /\ x = SqlError s code
      /\ (is_ddl s = true \/ s = BEGIN \/ s = COMMIT)
      /\ cs = [])
  \/ (exists plain,
        p = PUsers /\ x = BcryptError plain /\ In (Hash plain 10 None) evs
        /\ Forall (user_callback users e) cs).

Lemma user_callback_insert users e c :
  user_callback users e c ->
  is_insert (guarded_stmt c) = true /\ statement_phase (guarded_stmt c) = Some PUsers.
Proof. intros [u [n [h [_ [_ ->]]]]]. split; reflexivity. Qed.

Section Course.

Variable users : list User.
Variable customers : list Customer.
Variable invoices : list Invoice.
Variable revenue : list Revenue.
Variable e : env.
Variable h0 : list event.
Variable t0 : tables.
Variable pend0 : list guarded.

Let forward (evs : list event) : Prop := Forall (fun ev => interrupting ev = false) evs.

Let tens (evs : list event) : Prop := Forall hash_cost_10 evs.

Let entered (w : world) : Prop :=
  history w = h0 /\ committed (pg w) = t0 /\ pending w = pend0.

Let at_step (p : phase) (w : world) : Prop :=
  exists evs,
    history w = h0 ++ evs /\ steps evs = upto p /\ forward evs /\ tens evs
    /\ pending w = pend0
    /\ match p with
       | PCommit => tx (pg w) = Idle
       | _ => tx (pg w) <> Idle /\ committed (pg w) = t0
       end.

Let doomed (xs : list exn) (w : world) : Prop :=
  exists evs,
    history w = h0 ++ evs /\ steps evs = upto PUsers /\ tens evs
    /\ pending w = pend0 /\ tx (pg w) <> Idle /\ committed (pg w) = t0
    /\ (forall x, In x xs -> exists plain, x = BcryptError plain /\ In (Hash plain 10 None) evs).

Let thrown (x : exn) (w : world) : Prop :=
  exists evs p cs,
    history w = h0 ++ evs /\ steps evs = upto p /\ rank p <= 6 /\ tens evs
    /\ committed (pg w) = t0 /\ pending w = pend0 ++ cs
    /\ cause users e x evs p cs.

Let answered (x : exn) (w : world) : Prop :=
  exists evs p cs,
    history w = h0 ++ evs ++ [Sql ROLLBACK (inr (done 0)); ConsoleError seeding_log x]
    /\ steps evs = upto p /\ rank p <= 6 /\ tens evs
    /\ tx (pg w) = Idle /\ store (pg w) = t0 /\ pending w = pend0 ++ cs
    /\ cause users e x evs p cs.

Let unanswered (x y : exn) (w : world) : Prop :=
  exists evs p cs code,
    history w = h0 ++ evs ++ [Sql ROLLBACK (inl code)]
    /\ y = SqlError ROLLBACK code
    /\ steps evs = upto p /\ rank p <= 6 /\ tens evs
    /\ committed (pg w) = t0 /\ pending w = pend0 ++ cs
    /\ cause users e x evs p cs.

(** A statement of a step, in a run that nothing has interrupted. *)
Lemma course_statement s p q w :
  is_control s = false -> statement_phase s = Some q ->
  p <> PCommit -> q <> PCommit -> push q (upto p) = upto q -> rank q <= 6 ->
  at_step p w ->
  match client_sql s e w with
  | (inr _, w1) => at_step q w1
  | (inl x, w1) =>
      (is_ddl s = true -> thrown x w1)
      /\ (is_ddl s = false -> forall msg, at_step q (log (ConsoleError msg x) w1))
  end.
Proof.
  intros Hc Hq Hp Hq6 Hpush Hr [evs [Hh [Hs [Hf [Ht [Hpe Hb]]]]]].
  assert (Hin : tx (pg w) <> Idle /\ committed (pg w) = t0)
    by (destruct p; try exact Hb; congruence).
  destruct Hin as [Hi Hcm].
  assert (N : s <> COMMIT /\ s <> ROLLBACK) by (split; intros ->; discriminate Hc).
  destruct N as [N1 N2].
  destruct (client_sql_run s e w) as [r [d [He ->]]].
  destruct (exec_inside _ _ _ _ _ _ _ _ He N1 N2 Hi) as [Hi1 Hc1].
  assert (Hst : steps (evs ++ [Sql s r]) = upto q).
  { rewrite steps_snoc. cbn [step_of]. rewrite Hq, Hs. exact Hpush. }
  assert (Hte : tens (evs ++ [Sql s r])).
  { apply Forall_app. split; [exact Ht|]. constructor; [exact I | constructor]. }
  assert (Hblock : match q with
                   | PCommit => tx d = Idle
                   | _ => tx d <> Idle /\ committed d = t0
                   end).
  { destruct q; try (split; [exact Hi1 | congruence]). congruence. }
  destruct r as [code|res]; cbn [raised].
  - split.
    + intros Hd. exists (evs ++ [Sql s (inl code)]), q, []. cbn [history pg pending].
      rewrite Hh, app_assoc, app_nil_r.
      split; [reflexivity|]. split; [exact Hst|]. split; [exact Hr|]. split; [exact Hte|].
      split; [congruence|]. split; [exact Hpe|].
      left. exists evs, s, code. repeat split; auto.
    + intros Hd msg.
      exists ((evs ++ [Sql s (inl code)]) ++ [ConsoleError msg (SqlError s code)]).
      unfold log. cbn [history pg pending]. rewrite Hh, !app_assoc.
      split; [reflexivity|]. split; [rewrite steps_snoc; exact Hst|].
      split.
      { apply Forall_app. split; [|constructor; [reflexivity | constructor]].
        apply Forall_app. split; [exact Hf|]. constructor; [|constructor].
        cbn. rewrite Hd, Hc. reflexivity. }
      split; [apply Forall_app; split; [exact Hte | constructor; [exact I|constructor]]|].
      split; [exact Hpe | exact Hblock].
  - exists (evs ++ [Sql s (inr res)]). cbn [history pg pending]. rewrite Hh, app_assoc.
    split; [reflexivity|]. split; [exact Hst|].
    split; [apply Forall_app; split; [exact Hf | constructor; [reflexivity | constructor]]|].
    split; [exact Hte|]. split; [exact Hpe | exact Hblock].
Qed.

Lemma course_ddl s p q :
  is_ddl s = true -> statement_phase s = Some q ->
  p <> PCommit -> q <> PCommit -> push q (upto p) = upto q -> rank q <= 6 ->
  triple e (at_step p) (client_sql s) (fun _ => at_step q) thrown.
Proof.
  intros Hd Hq Hp Hq6 Hpush Hr w Hw.
  assert (Hc : is_control s = false) by (destruct s; try discriminate Hd; reflexivity).
  pose proof (course_statement s p q w Hc Hq Hp Hq6 Hpush Hr Hw) as H.
  destruct (client_sql s e w) as [[x|res] w1]; [exact (proj1 H Hd) | exact H].
Qed.

Lemma course_row s p msg :
  is_insert s = true -> statement_phase s = Some p ->
  p <> PCommit -> push p (upto p) = upto p -> rank p <= 6 ->
  forall w, at_step p w ->
    match client_sql s e w with
    | (inr _, w1) => at_step p w1
    | (inl x, w1) => at_step p (log (ConsoleError msg x) w1)
    end.
Proof.
  intros Hi Hq Hp Hpush Hr w Hw.
  assert (Hc : is_control s = false) by (destruct s; try discriminate Hi; reflexivity).
  pose proof (course_statement s p p w Hc Hq Hp Hp Hpush Hr Hw) as H.
  destruct (client_sql s e w) as [[x|res] w1]; [|exact H].
  apply (proj2 H). destruct s; try discriminate Hi; reflexivity.
Qed.

(** A call of the hash in the users step. *)
Lemma course_hash plain w :
  at_step PUsers w ->
  match bcrypt_hash plain 10 e w with
  | (inr _, w1) => at_step PUsers w1
  | (inl x, w1) => doomed [x] w1
  end.
Proof.
  intros [evs [Hh [Hs [Hf [Ht [Hpe [Hi Hcm]]]]]]]. unfold bcrypt_hash.
  assert (Hst : forall r, steps (evs ++ [Hash plain 10 r]) = upto PUsers).
  { intros r. rewrite steps_snoc. cbn [step_of]. rewrite Hs. reflexivity. }
  assert (Hte : forall r, tens (evs ++ [Hash plain 10 r])).
  { intros r. apply Forall_app. split; [exact Ht|]. constructor; [reflexivity | constructor]. }
  destruct (bcrypt e (salts w) plain 10) as [h|].
  - exists (evs ++ [Hash plain 10 (Some h)]). cbn [history pg pending]. rewrite Hh, app_assoc.
    split; [reflexivity|]. split; [apply Hst|].
    split; [apply Forall_app; split; [exact Hf | constructor; [reflexivity | constructor]]|].
    split; [apply Hte|]. auto.
  - exists (evs ++ [Hash plain 10 None]). cbn [history pg pending]. rewrite Hh, app_assoc.
    split; [reflexivity|]. split; [apply Hst|]. split; [apply Hte|].
    split; [exact Hpe|]. split; [exact Hi|]. split; [exact Hcm|].
    intros x [<-|[]]. exists plain. split; [reflexivity|].
    apply in_or_app. right. left. reflexivity.
Qed.

Lemma course_hash_doomed plain xs w :
  doomed xs w ->
  match bcrypt_hash plain 10 e w with
  | (inr _, w1) => doomed xs w1
  | (inl x, w1) => doomed (x :: xs) w1
  end.
Proof.
  intros [evs [Hh [Hs [Ht [Hpe [Hi [Hcm Hxs]]]]]]]. unfold bcrypt_hash.
  assert (Hst : forall r, steps (evs ++ [Hash plain 10 r]) = upto PUsers).
  { intros r. rewrite steps_snoc. cbn [step_of]. rewrite Hs. reflexivity. }
  assert (Hte : forall r, tens (evs ++ [Hash plain 10 r])).
  { intros r. apply Forall_app. split; [exact Ht|]. constructor; [reflexivity | constructor]. }
  assert (Hold : forall r x, In x xs ->
            exists p, x = BcryptError p /\ In (Hash p 10 None) (evs ++ [Hash plain 10 r])).
  { intros r x Hx. destruct (Hxs x Hx) as [p [-> Hp]]. exists p. split; [reflexivity|].
    apply in_or_app. left. exact Hp. }
  destruct (bcrypt e (salts w) plain 10) as [h|].
  - exists (evs ++ [Hash plain 10 (Some h)]). cbn [history pg pending]. rewrite Hh, app_assoc.
    split; [reflexivity|]. split; [apply Hst|]. split; [apply Hte|].
    split; [exact Hpe|]. split; [exact Hi|]. split; [exact Hcm|]. apply Hold.
  - exists (evs ++ [Hash plain 10 None]). cbn [history pg pending]. rewrite Hh, app_assoc.
    split; [reflexivity|]. split; [apply Hst|]. split; [apply Hte|].
    split; [exact Hpe|]. split; [exact Hi|]. split; [exact Hcm|].
    intros x [<-|Hx]; [|apply Hold; exact Hx]. exists plain. split; [reflexivity|].
    apply in_or_app. right. left. reflexivity.
Qed.

(** The insert of a user whose hash is there, when another hash of the step
    is known to be rejected. *)
Lemma course_user_doomed c xs w :
  user_callback users e c -> doomed xs w ->
  match client_sql (guarded_stmt c) e w with
  | (inr _, w1) => doomed xs w1
  | (inl x, w1) => doomed xs (log (ConsoleError (guarded_msg c) x) w1)
  end.
Proof.
  intros Hc [evs [Hh [Hs [Ht [Hpe [Hi [Hcm Hxs]]]]]]].
  destruct (user_callback_insert users e c Hc) as [Hins Hph].
  set (s := guarded_stmt c) in *.
  assert (N : s <> COMMIT /\ s <> ROLLBACK) by (split; intros E; rewrite E in Hins; discriminate).
  destruct N as [N1 N2].
  destruct (client_sql_run s e w) as [r [d [He ->]]].
  destruct (exec_inside _ _ _ _ _ _ _ _ He N1 N2 Hi) as [Hi1 Hc1].
  assert (Hst : steps (evs ++ [Sql s r]) = upto PUsers).
  { rewrite steps_snoc. cbn [step_of]. rewrite Hph, Hs. reflexivity. }
  assert (Hte : tens (evs ++ [Sql s r])).
  { apply Forall_app. split; [exact Ht|]. constructor; [exact I | constructor]. }
  assert (Hold : forall x, In x xs ->
            exists p, x = BcryptError p /\ In (Hash p 10 None) (evs ++ [Sql s r])).
  { intros x Hx. destruct (Hxs x Hx) as [p [-> Hp]]. exists p. split; [reflexivity|].
    apply in_or_app. left. exact Hp. }
  destruct r as [code|res]; cbn [raised].
  - exists ((evs ++ [Sql s (inl code)]) ++ [ConsoleError (guarded_msg c) (SqlError s code)]).
    unfold log. cbn [history pg pending]. rewrite Hh, !app_assoc.
    split; [reflexivity|]. split; [rewrite steps_snoc; exact Hst|].
    split; [apply Forall_app; split; [exact Hte | constructor; [exact I|constructor]]|].
    split; [exact Hpe|]. split; [exact Hi1|]. split; [congruence|].
    intros x Hx. destruct (Hold x Hx) as [p [-> Hp]]. exists p. split; [reflexivity|].
    apply in_or_app. left. exact Hp.
  - exists (evs ++ [Sql s (inr res)]). cbn [history pg pending]. rewrite Hh, app_assoc.
    split; [reflexivity|]. split; [exact Hst|]. split; [exact Hte|].
    split; [exact Hpe|]. split; [exact Hi1|]. split; [congruence|]. exact Hold.
Qed.

(** The first rejection to arrive leaves the [try]; the callbacks that have
    not resumed stay behind. *)
Lemma course_rejection x xs cs w :
  In x xs -> Forall (user_callback users e) cs -> doomed xs w ->
  thrown x (leave_running cs w).
Proof.
  intros Hx Hcs [evs [Hh [Hs [Ht [Hpe [Hi [Hcm Hxs]]]]]]].
  destruct (Hxs x Hx) as [plain [-> Hp]].
  exists evs, PUsers, cs. unfold leave_running. cbn [history pg pending].
  split; [exact Hh|]. split; [exact Hs|]. split; [cbn; lia|]. split; [exact Ht|].
  split; [exact Hcm|]. split; [rewrite Hpe; reflexivity|].
  right. exists plain. auto.
Qed.

Lemma course_begin :
  triple e entered (client_sql BEGIN) (fun _ => at_step PBegin) thrown.
Proof.
  intros w [Hh [Hcm Hpe]].
  destruct (client_sql_run BEGIN e w) as [r [d [He ->]]].
  destruct (exec_begin _ _ _ _ _ _ _ He) as [Hc1 Hi1].
  destruct r as [code|q]; cbn [raised].
  - exists [Sql BEGIN (inl code)], PBegin, []. cbn [history pg pending].
    rewrite Hh, app_nil_r.
    split; [reflexivity|]. split; [reflexivity|]. split; [cbn; lia|].
    split; [constructor; [exact I | constructor]|].
    split; [congruence|]. split; [exact Hpe|].
    left. exists [], BEGIN, code. repeat split; auto.
  - exists [Sql BEGIN (inr q)]. cbn [history pg pending]. rewrite Hh.
    split; [reflexivity|]. split; [reflexivity|].
    split; [constructor; [reflexivity | constructor]|].
    split; [constructor; [exact I | constructor]|].
    split; [exact Hpe|]. split; [exact (Hi1 q eq_refl) | congruence].
Qed.

Lemma course_commit :
  triple e (at_step PRevenue) (client_sql COMMIT) (fun _ => at_step PCommit) thrown.
Proof.
  intros w [evs [Hh [Hs [Hf [Ht [Hpe [Hi Hcm]]]]]]].
  destruct (client_sql_run COMMIT e w) as [r [d [He ->]]].
  destruct (exec_commit _ _ _ _ _ _ _ He) as [Hok Hbad].
  assert (Hst : steps (evs ++ [Sql COMMIT r]) = upto PCommit).
  { rewrite steps_snoc. cbn [step_of statement_phase]. rewrite Hs. reflexivity. }
  assert (Hte : tens (evs ++ [Sql COMMIT r])).
  { apply Forall_app. split; [exact Ht|]. constructor; [exact I | constructor]. }
  destruct r as [code|q]; cbn [raised].
  - exists (evs ++ [Sql COMMIT (inl code)]), PCommit, []. cbn [history pg pending].
    rewrite Hh, app_assoc, app_nil_r.
    split; [reflexivity|]. split; [exact Hst|]. split; [cbn; lia|]. split; [exact Hte|].
    split; [destruct (Hbad code eq_refl); congruence|]. split; [exact Hpe|].
    left. exists evs, COMMIT, code. repeat split; auto.
  - exists (evs ++ [Sql COMMIT (inr q)]). cbn [history pg pending]. rewrite Hh, app_assoc.
    split; [reflexivity|]. split; [exact Hst|].
    split; [apply Forall_app; split; [exact Hf | constructor; [reflexivity | constructor]]|].
    split; [exact Hte|]. split; [exact Hpe|]. exact (proj2 (Hok q eq_refl)).
Qed.

Lemma course_rollback x w :
  thrown x w ->
  match client_sql ROLLBACK e w with
  | (inr _, w1) => answered x (log (ConsoleError "Error during database seeding:" x) w1)
  | (inl y, w1) => unanswered x y w1
  end.
Proof.
  intros [evs [p [cs [Hh [Hs [Hp [Ht [Hcm [Hpe Hc]]]]]]]]].
  destruct (client_sql_run ROLLBACK e w) as [r [d [He ->]]].
  destruct (exec_rollback _ _ _ _ _ _ _ He) as [Hc1 Hok].
  destruct r as [code|q]; cbn [raised].
  - exists evs, p, cs, code. cbn [history pg pending]. rewrite Hh, <- app_assoc.
    split; [reflexivity|]. split; [reflexivity|]. split; [exact Hs|]. split; [exact Hp|].
    split; [exact Ht|]. split; [congruence|]. split; [exact Hpe | exact Hc].
  - destruct (Hok q eq_refl) as [-> [Hidle Hst]].
    exists evs, p, cs. unfold log. cbn [history pg pending]. rewrite Hh, <- !app_assoc.
    split; [reflexivity|]. split; [exact Hs|]. split; [exact Hp|]. split; [exact Ht|].
    split; [exact Hidle|]. split; [congruence|]. split; [exact Hpe | exact Hc].
Qed.

(** The course of an invocation: it goes through all the steps and answers
    with the success response; or it leaves the [try] at a step, for the cause
    given, and sends ROLLBACK: when the server accepts it the session is idle
    over what was committed before, the error is logged and the answer is the
    failure response; when ROLLBACK fails too the handler throws its error. *)
Lemma GET_course w :
  entered w ->
  match SeedRoute.GET users customers invoices revenue e w with
  | (r, w1) =>
      (r = inr seeded /\ at_step PCommit w1)
      \/ (r = inr seeding_failed /\ exists x, answered x w1)
      \/ (exists x y, r = inl y /\ unanswered x y w1)
  end.
Proof.
  apply (GET_flow users customers invoices revenue e entered at_step doomed thrown
           answered unanswered).
  - exact course_begin.
  - apply course_ddl; (reflexivity || discriminate || (cbn; lia)).
  - apply course_ddl; (reflexivity || discriminate || (cbn; lia)).
  - intros u _ w0. apply course_hash.
  - intros u _ xs w0. apply course_hash_doomed.
  - intros c Hc. destruct (user_callback_insert users e c Hc) as [Hi Hp].
    apply course_row; try assumption; (reflexivity || discriminate || (cbn; lia)).
  - intros c Hc xs w0. apply course_user_doomed. exact Hc.
  - exact course_rejection.
  - apply course_ddl; (reflexivity || discriminate || (cbn; lia)).
  - intros c _. apply course_row; (reflexivity || discriminate || (cbn; lia)).
  - apply course_ddl; (reflexivity || discriminate || (cbn; lia)).
  - intros i _. apply course_row; (reflexivity || discriminate || (cbn; lia)).
  - apply course_ddl; (reflexivity || discriminate || (cbn; lia)).
  - intros r _. apply course_row; (reflexivity || discriminate || (cbn; lia)).
  - exact course_commit.
  - exact course_rollback.
Qed.

End Course.

(** ** What the callbacks left behind do *)

(** An event of one of the callbacks [cs]: its statement with whatever
    outcome, or the log of that statement's error. *)
Definition left_behind (cs : list guarded) (ev : event) : Prop :=
  exists c, In c cs
            /\ ((exists r, ev = Sql (guarded_stmt c) r)
                \/ (exists code,
                       ev = ConsoleError (guarded_msg c) (SqlError (guarded_stmt c) code))).

Lemma left_behind_more cs ds ev : incl cs ds -> left_behind cs ev -> left_behind ds ev.
Proof. intros Hi [c [Hc H]]. exists c. split; [apply Hi; exact Hc | exact H]. Qed.

Lemma run_all_events cs e w :
  fst (run_all cs e w) = inr tt
  /\ pending (snd (run_all cs e w)) = pending w
  /\ exists later,
       history (snd (run_all cs e w)) = history w ++ later
       /\ Forall (left_behind cs) later
       /\ (cs = [] -> later = []).
Proof.
  revert w. induction cs as [|c cs IH]; intros w; cbn [run_all].
  - split; [reflexivity|]. split; [reflexivity|]. exists []. rewrite app_nil_r. auto.
  - unfold bind. rewrite run_guarded_run.
    destruct (client_sql_run (guarded_stmt c) e w) as [r [d [_ ->]]].
    set (w1 := mkWorld d _ _ _ _ _ _).
    assert (Hmore : forall evs, Forall (left_behind cs) evs -> Forall (left_behind (c :: cs)) evs).
    { apply Forall_impl. intros ev. apply left_behind_more. intros a Ha. right. exact Ha. }
    destruct r as [code|q]; cbn [raised].
    + destruct (IH (log (ConsoleError (guarded_msg c) (SqlError (guarded_stmt c) code)) w1))
        as [H1 [H2 [later [H3 [H4 _]]]]].
      split; [exact H1|]. split; [rewrite H2; reflexivity|].
      exists (Sql (guarded_stmt c) (inl code)
                :: ConsoleError (guarded_msg c) (SqlError (guarded_stmt c) code) :: later).
      split; [rewrite H3; unfold log, w1; cbn [history]; rewrite <- !app_assoc; reflexivity|].
      split; [|discriminate].
      constructor; [exists c; split; [left; reflexivity | left; eexists; reflexivity]|].
      constructor; [exists c; split; [left; reflexivity | right; eexists; reflexivity]|].
      apply Hmore, H4.
    + destruct (IH w1) as [H1 [H2 [later [H3 [H4 _]]]]].
      split; [exact H1|]. split; [rewrite H2; reflexivity|].
      exists (Sql (guarded_stmt c) (inr q) :: later).
      split; [rewrite H3; unfold w1; cbn [history]; rewrite <- !app_assoc; reflexivity|].
      split; [|discriminate].
      constructor; [exists c; split; [left; reflexivity | left; eexists; reflexivity]|].
      apply Hmore, H4.
Qed.

(** Once every callback left behind is through, none is left; what they add
    to the history are their own statements and logs. *)
Lemma settle_events e w :
  pending (settle e w) = []
  /\ exists later,
       history (settle e w) = history w ++ later
       /\ Forall (left_behind (pending w)) later
       /\ (pending w = [] -> later = []).
Proof.
  unfold settle.
  destruct (run_all_events (pending w) e
              (mkWorld (pg w) (uuids w) (salts w) (issued w) (borrowed w) (history w) []))
    as [_ [H2 H3]].
  split; [exact H2 | exact H3].
Qed.

Lemma settle_nothing e w : pending w = [] -> settle e w = w.
Proof. intros H. unfold settle. rewrite H. cbn. destruct w; cbn in *. subst. reflexivity. Qed.

(** ** Failures that leave the steps *)

Definition rejected_hash (ev : event) : bool :=
  match ev with Hash _ _ None => true | _ => false end.

Lemma forward_no_escape evs :
  Forall (fun ev => interrupting ev = false) evs -> existsb escapes evs = false.
Proof.
  intros H. induction H as [|ev l Hev _ IH]; [reflexivity|]. cbn [existsb]. rewrite IH.
  destruct ev as [s [c|q]|p c [h|]| | |]; cbn in *; try reflexivity; try discriminate Hev.
  apply orb_false_iff in Hev. rewrite (proj1 Hev). reflexivity.
Qed.

Lemma forward_no_rejection evs :
  Forall (fun ev => interrupting ev = false) evs ->
  forall plain cost, ~ In (Hash plain cost None) evs.
Proof.
  intros H plain cost Hin. rewrite Forall_forall in H. specialize (H _ Hin). discriminate H.
Qed.

Lemma steps_rollback evs p r :
  steps evs = upto p -> rank p <= 6 ->
  steps (evs ++ [Sql ROLLBACK r]) = upto p ++ [PRollback].
Proof.
  intros Hs Hp. rewrite steps_snoc. cbn [step_of statement_phase]. rewrite Hs.
  destruct p; cbn in Hp; try lia; reflexivity.
Qed.



(** ** A rejected hash *)

(** What can leave [seedUsers]: the error of its CREATE TABLE, or the
    rejection of a hash.  The error of an insert never does. *)
Lemma seedUsers_throws users e w x w1 :
  SeedRoute.seedUsers users e w = (inl x, w1) ->
  (exists code, x = SqlError (CREATE_TABLE Users) code)
  \/ (exists u, In u users /\ x = BcryptError (user_password u)).
Proof.
  intros Hrun.
  set (bad := fun x : exn => exists u, In u users /\ x = BcryptError (user_password u)).
  pose proof (seedUsers_flow users e (fun _ _ => True)
                (fun xs _ => Forall bad xs)
                (fun x _ => (exists code, x = SqlError (CREATE_TABLE Users) code) \/ bad x))
    as H.
  assert (H1 : match SeedRoute.seedUsers users e w with
               | (inr _, _) => True
               | (inl x, _) => (exists code, x = SqlError (CREATE_TABLE Users) code) \/ bad x
               end).
  { apply H; [| | | | | |exact I].
    - intros w0 _. destruct (client_sql_run (CREATE_TABLE Users) e w0) as [r [d [_ ->]]].
      destruct r as [code|q]; cbn [raised]; [left; exists code; reflexivity | exact I].
    - intros u Hu w0 _. unfold bcrypt_hash.
      destruct (bcrypt e (salts w0) (user_password u) 10); [exact I|].
      constructor; [exists u; auto | constructor].
    - intros u Hu xs w0 Hxs. unfold bcrypt_hash.
      destruct (bcrypt e (salts w0) (user_password u) 10); [exact Hxs|].
      constructor; [exists u; auto | exact Hxs].
    - intros c _ w0 _. destruct (client_sql _ e w0) as [[y|q] w2]; exact I.
    - intros c _ xs w0 Hxs. destruct (client_sql _ e w0) as [[y|q] w2]; exact Hxs.
    - intros y xs cs w0 Hy _ Hxs. right. rewrite Forall_forall in Hxs. exact (Hxs y Hy). }
  rewrite Hrun in H1. exact H1.
Qed.

(** ** The invoice query handler *)

Lemma set_committed_same d : set_committed (committed d) d = d.
Proof. destruct d as [st [|t|t]]; reflexivity. Qed.

Definition querying_log : string := "Error querying the database:".

(** The three ways through [listInvoices]: no client; a client and a failed
    query; a client and the rows, in the order of the server's plan.  In each
    the database is left as it was; in the last two the client is given back
    once, after the query. *)
Inductive listed (e : env) (w : world) : (exn + list InvoiceLine) * world -> Prop :=
| no_client :
    faulty e (issued w) = true ->
    listed e w
      (inl ConnectError,
       mkWorld (pg w) (uuids w) (salts w) (S (issued w)) (borrowed w)
               (history w ++ [Connect false]) (pending w))
| query_failed code :
    faulty e (issued w) = false ->
    (faulty e (S (issued w)) = true /\ code = internal_error
     \/ faulty e (S (issued w)) = false /\ code = undefined_table
        /\ (invoices_t (committed (pg w)) = None \/ customers_t (committed (pg w)) = None)) ->
    listed e w
      (inl (SqlError SELECT_INVOICES code),
       mkWorld (pg w) (uuids w) (salts w) (S (S (issued w))) (borrowed w)
               (history w ++ [Connect true; Sql SELECT_INVOICES (inl code);
                              ConsoleError querying_log (SqlError SELECT_INVOICES code);
                              Release (borrowed w)]) (pending w))
| query_done invs cs :
    faulty e (issued w) = false ->
    faulty e (S (issued w)) = false ->
    invoices_t (committed (pg w)) = Some invs ->
    customers_t (committed (pg w)) = Some cs ->
    listed e w
      (inr (reorder (plan e) (select_invoices invs cs)),
       mkWorld (pg w) (uuids w) (salts w) (S (S (issued w))) (borrowed w)
               (history w ++ [Connect true;
                              Sql SELECT_INVOICES
                                  (inr (mkResult (List.length (select_invoices invs cs))
                                                 (reorder (plan e) (select_invoices invs cs))));
                              Release (borrowed w)]) (pending w)).

Lemma listInvoices_listed e w : listed e w (QueryRoute.listInvoices e w).
Proof.
  assert (Hf : fail_in (mode e) (mkSession (committed (pg w)) Idle)
               = mkSession (committed (pg w)) Idle).
  { unfold fail_in. destruct (mode e); reflexivity. }
  unfold QueryRoute.listInvoices, bind, db_connect.
  destruct (faulty e (issued w)) eqn:Ec.
  { apply no_client. exact Ec. }
  unfold try_finally, try_catch, bind, pool_sql, release, console_error, throw, ret, log.
  cbn [issued uuids pg history borrowed salts pending bind_error].
  unfold exec. cbn [tx store].
  destruct (faulty e (S (issued w))) eqn:Eq.
  { rewrite Hf. cbn [in_plan_order committed tx store pg uuids salts issued borrowed history
                     pending pred].
    rewrite set_committed_same, <- !app_assoc. cbn [app].
    apply query_failed; [exact Ec | left; auto]. }
  unfold run. cbn [store].
  destruct (invoices_t (committed (pg w))) as [invs|] eqn:Ei;
    [destruct (customers_t (committed (pg w))) as [cs|] eqn:Ecs|];
    try rewrite Hf;
    cbn [in_plan_order committed tx store rows rowCount pg uuids salts issued borrowed
         history pending pred];
    rewrite set_committed_same, <- !app_assoc; cbn [app].
  - apply query_done; assumption.
  - apply query_failed; [exact Ec | right; auto].
  - apply query_failed; [exact Ec | right; auto].
Qed.

Lemma listInvoices_same e w :
  QueryRouteWithHeaders.listInvoices e w = QueryRoute.listInvoices e w.
Proof. reflexivity. Qed.

Definition fetch_failed_text : string :=
  "{" +++ dquote +++ "error" +++ dquote +++ ":" +++ dquote +++ "Failed to fetch invoices"
      +++ dquote +++ "}".

Definition acme_text : string :=
  "[{" +++ dquote +++ "amount" +++ dquote +++ ":666," +++ dquote +++ "name" +++ dquote +++ ":"
       +++ dquote +++ "Acme" +++ dquote +++ "}]".

(** The two responses of each text of the route. *)
Definition listing (l : list InvoiceLine) : Response :=
  new_Response (JSON_stringify (rows_to_json l)) (mkInit (Some 200) []).

Definition fetch_failed : Response :=
  new_Response (JSON_stringify (JObject [("error"%string, JString "Failed to fetch invoices")]))
               (mkInit (Some 500) []).

Definition listing_json (l : list InvoiceLine) : Response :=
  new_Response (JSON_stringify (rows_to_json l))
               (mkInit (Some 200) [("Content-Type"%string, "application/json"%string)]).

Definition fetch_failed_json : Response :=
  new_Response (JSON_stringify (JObject [("error"%string, JString "Failed to fetch invoices")]))
               (mkInit (Some 500) [("Content-Type"%string, "application/json"%string)]).

Lemma GET_listInvoices e w :
  QueryRoute.GET e w
  = (match fst (QueryRoute.listInvoices e w) with
     | inr l => inr (listing l)
     | inl _ => inr fetch_failed
     end, snd (QueryRoute.listInvoices e w)).
Proof.
  unfold QueryRoute.GET, try_catch, bind, ret.
  destruct (QueryRoute.listInvoices e w) as [[x|l] w1]; reflexivity.
Qed.

Lemma GET_json_listInvoices e w :
  QueryRouteWithHeaders.GET e w
  = (match fst (QueryRoute.listInvoices e w) with
     | inr l => inr (listing_json l)
     | inl _ => inr fetch_failed_json
     end, snd (QueryRoute.listInvoices e w)).
Proof.
  unfold QueryRouteWithHeaders.GET, try_catch, bind, ret. rewrite listInvoices_same.
  destruct (QueryRoute.listInvoices e w) as [[x|l] w1]; reflexivity.
Qed.

(** The outcome of a run of either text, read off its events. *)
Lemma query_outcome e w r w1 r2 w2 evs :
  QueryRoute.GET e w = (r, w1) ->
  QueryRouteWithHeaders.GET e w = (r2, w2) ->
  history w1 = history w ++ evs ->
  w2 = w1 /\ pg w1 = pg w /\ borrowed w1 = borrowed w
  /\ ((evs = [Connect false] /\ r = inr fetch_failed /\ r2 = inr fetch_failed_json)
      \/ (exists code,
            evs = [Connect true; Sql SELECT_INVOICES (inl code);
                   ConsoleError querying_log (SqlError SELECT_INVOICES code);
                   Release (borrowed w)]
            /\ r = inr fetch_failed /\ r2 = inr fetch_failed_json)
      \/ (exists invs cs,
            invoices_t (committed (pg w)) = Some invs
            /\ customers_t (committed (pg w)) = Some cs
            /\ evs = [Connect true;
                      Sql SELECT_INVOICES
                          (inr (mkResult (List.length (select_invoices invs cs))
                                         (reorder (plan e) (select_invoices invs cs))));
                      Release (borrowed w)]
            /\ r = inr (listing (reorder (plan e) (select_invoices invs cs)))
            /\ r2 = inr (listing_json (reorder (plan e) (select_invoices invs cs))))).
Proof.
  rewrite GET_listInvoices, GET_json_listInvoices. intros H1 H2 Hh.
  pose proof (listInvoices_listed e w) as Hl.
  destruct (QueryRoute.listInvoices e w) as [res wl]. cbn [fst snd] in H1, H2.
  injection H1 as <- <-. injection H2 as <- <-.
  inversion Hl; subst; cbn [history pg borrowed] in *;
    apply app_inv_head in Hh; subst evs;
    (split; [reflexivity|]); (split; [reflexivity|]); (split; [reflexivity|]).
  - left. repeat split; reflexivity.
  - right. left. exists code. repeat split; reflexivity.
  - right. right. exists invs, cs. repeat split; solve [assumption | reflexivity].
Qed.

(** The rows of the join are the invoices of amount 666 paired with the
    customers whose id is the value they refer to. *)
Lemma select_invoices_spec invs cs a n :
  In (mkLine a n) (select_invoices invs cs)
  <-> exists i c,
        In i invs /\ In c cs
        /\ uuid_eqb (invoice_customer_id (inv_fields i)) (customer_id c) = true
        /\ invoice_amount (inv_fields i) = 666%Z
        /\ a = invoice_amount (inv_fields i) /\ n = customer_name c.
Proof.
  unfold select_invoices. rewrite in_flat_map. split.
  - intros [i [Hi Hl]]. apply filter_In in Hi. destruct Hi as [Hi Ha].
    apply in_map_iff in Hl. destruct Hl as [c [Hc Hin]].
    apply filter_In in Hin. destruct Hin as [Hin Hm].
    injection Hc as <- <-. exists i, c.
    apply Z.eqb_eq in Ha. repeat split; assumption.
  - intros [i [c [Hi [Hc [Hm [Ha [-> ->]]]]]]]. exists i. split.
    + apply filter_In. split; [exact Hi|]. apply Z.eqb_eq. exact Ha.
    + apply in_map_iff. exists c. split; [reflexivity|].
      apply filter_In. split; [exact Hc | exact Hm].
Qed.

(** C4.  When the query of the invoice handler succeeds, either text of the
    route answers with status 200 and, as body, the JSON text of the rows of
    the query.  The rows are, in some order (the statement fixes none), those
    of the join of the committed invoices with the committed customers on the
    customer reference, restricted to amount 666, each an amount and a name:
    one row for each pair of such an invoice and a customer it refers to, and
    no other.  With exactly one invoice of amount 666, referring to exactly
    one customer, named Acme, the body is [[{"amount":666,"name":"Acme"}]]. *)
Theorem query_returns_matching_invoices e w r w1 r2 w2 evs q :
  QueryRoute.GET e w = (r, w1) ->
  QueryRouteWithHeaders.GET e w = (r2, w2) ->
  history w1 = history w ++ evs ->
  In (Sql SELECT_INVOICES (inr q)) evs ->
  exists invs cs resp resp2,
    invoices_t (committed (pg w)) = Some invs
    /\ customers_t (committed (pg w)) = Some cs
    /\ Permutation (rows q) (select_invoices invs cs)
    /\ (forall a n,
          In (mkLine a n) (rows q)
          <-> exists i c,
                In i invs /\ In c cs
                /\ uuid_eqb (invoice_customer_id (inv_fields i)) (customer_id c) = true
                /\ invoice_amount (inv_fields i) = 666%Z
                /\ a = invoice_amount (inv_fields i) /\ n = customer_name c)
    /\ r = inr resp /\ status resp = 200
    /\ body resp = JSON_stringify (rows_to_json (rows q))
    /\ r2 = inr resp2 /\ status resp2 = 200
    /\ body resp2 = JSON_stringify (rows_to_json (rows q))
    /\ (forall i c,
          filter (fun i => (invoice_amount (inv_fields i) =? 666)%Z) invs = [i] ->
          filter (fun c => uuid_eqb (invoice_customer_id (inv_fields i)) (customer_id c)) cs
          = [c] ->
          customer_name c = "Acme"%string ->
          rows q = [mkLine 666 "Acme"] /\ body resp = acme_text /\ body resp2 = acme_text).
Proof.
  intros H1 H2 Hh Hq.
  destruct (query_outcome e w r w1 r2 w2 evs H1 H2 Hh)
    as [_ [_ [_ [[-> _]|[[code [-> _]]|[invs [cs [Hi [Hc [-> [-> ->]]]]]]]]]]].
  - destruct Hq as [Hq|[]]. discriminate Hq.
  - destruct Hq as [Hq|[Hq|[Hq|[Hq|[]]]]]; discriminate Hq.
  - destruct Hq as [Hq|[Hq|[Hq|[]]]]; try discriminate Hq.
    injection Hq as <-. cbn [rows].
    pose proof (reorder_perm (plan e) (select_invoices invs cs)) as Hperm.
    exists invs, cs, (listing (reorder (plan e) (select_invoices invs cs))),
           (listing_json (reorder (plan e) (select_invoices invs cs))).
    split; [exact Hi|]. split; [exact Hc|]. split; [exact Hperm|].
    split.
    { intros a n. rewrite <- select_invoices_spec. split; intros Hin.
      - exact (Permutation_in _ Hperm Hin).
      - exact (Permutation_in _ (Permutation_sym Hperm) Hin). }
    do 6 (split; [reflexivity|]).
    intros i c Fi Fc Hn.
    assert (Hrows : select_invoices invs cs = [mkLine 666 "Acme"]).
    { unfold select_invoices. rewrite Fi. cbn [flat_map]. rewrite Fc. cbn [map app].
      rewrite Hn. f_equal. f_equal.
      assert (Hin : In i (filter (fun i => (invoice_amount (inv_fields i) =? 666)%Z) invs))
        by (rewrite Fi; left; reflexivity).
      apply filter_In in Hin. destruct Hin as [_ Ha]. apply Z.eqb_eq in Ha. exact Ha. }
    unfold listing, listing_json. cbn [body new_Response]. rewrite Hrows, reorder_one.
    repeat split; reflexivity.
Qed.

(** C5.  When the connection cannot be had, or the query fails, either text of
    the route answers with status 500 and the body
    [{"error":"Failed to fetch invoices"}]: one fixed response per text,
    whatever the error was. *)
Theorem query_failure_is_generic e w r w1 r2 w2 evs :
  QueryRoute.GET e w = (r, w1) ->
  QueryRouteWithHeaders.GET e w = (r2, w2) ->
  history w1 = history w ++ evs ->
  In (Connect false) evs \/ (exists code, In (Sql SELECT_INVOICES (inl code)) evs) ->
  r = inr fetch_failed /\ r2 = inr fetch_failed_json
  /\ status fetch_failed = 500 /\ body fetch_failed = fetch_failed_text
  /\ status fetch_failed_json = 500 /\ body fetch_failed_json = fetch_failed_text.
Proof.
  intros H1 H2 Hh Hq.
  destruct (query_outcome e w r w1 r2 w2 evs H1 H2 Hh)
    as [_ [_ [_ [[_ [-> ->]]|[[code [_ [-> ->]]]|[invs [cs [_ [_ [-> _]]]]]]]]]].
  - repeat split; reflexivity.
  - repeat split; reflexivity.
  - exfalso. destruct Hq as [Hq|[code Hq]].
    + destruct Hq as [Hq|[Hq|[Hq|[]]]]; discriminate Hq.
    + destruct Hq as [Hq|[Hq|[Hq|[]]]]; discriminate Hq.
Qed.

Definition is_release (ev : event) : bool :=
  match ev with Release _ => true | _ => false end.

(** C6.  In an invocation of the invoice handler that obtained a client, the
    client is given back exactly once, as the last action, on every way out
    (rows, failed query), and the pool has as many clients out afterwards as
    before; in an invocation that obtained none, the answer has status 500
    and nothing is given back. *)
Theorem query_releases_client_once e w r w1 r2 w2 evs :
  QueryRoute.GET e w = (r, w1) ->
  QueryRouteWithHeaders.GET e w = (r2, w2) ->
  history w1 = history w ++ evs ->
  (In (Connect true) evs ->
     List.length (filter is_release evs) = 1
     /\ (exists mid, evs = Connect true :: mid ++ [Release (borrowed w)]
                     /\ Forall (fun ev => is_release ev = false) mid)
     /\ borrowed w1 = borrowed w)
  /\ (In (Connect false) evs ->
        filter is_release evs = []
        /\ r = inr fetch_failed /\ r2 = inr fetch_failed_json
        /\ status fetch_failed = 500 /\ status fetch_failed_json = 500
        /\ body fetch_failed = fetch_failed_text)
  /\ (In (Connect true) evs \/ In (Connect false) evs)
  /\ w2 = w1.
Proof.
  intros H1 H2 Hh.
  destruct (query_outcome e w r w1 r2 w2 evs H1 H2 Hh)
    as [Hw [_ [Hb [[-> [-> ->]]|[[code [-> _]]|[invs [cs [_ [_ [-> _]]]]]]]]]].
  - split; [intros [Hc|[]]; discriminate Hc|].
    split; [intros _; repeat split; reflexivity|]. split; [right; left; reflexivity | exact Hw].
  - split.
    + intros _. split; [reflexivity|]. split; [|exact Hb].
      exists [Sql SELECT_INVOICES (inl code);
              ConsoleError querying_log (SqlError SELECT_INVOICES code)].
      split; [reflexivity|]. repeat constructor.
    + split; [intros [Hc|[Hc|[Hc|[Hc|[]]]]]; discriminate Hc|].
      split; [left; left; reflexivity | exact Hw].
  - split.
    + intros _. split; [reflexivity|]. split; [|exact Hb].
      eexists [_]. split; [reflexivity|]. repeat constructor.
    + split; [intros [Hc|[Hc|[Hc|[]]]]; discriminate Hc|].
      split; [left; left; reflexivity | exact Hw].
Qed.

(** C9, as the code has it.  On a successful invocation both texts of the
    route answer with status 200 and the JSON text of the rows; the second
    text declares [application/json], the first declares no content type of
    its own, so that its response goes out as [text/plain;charset=UTF-8]. *)
Theorem query_content_type e w r w1 r2 w2 evs q :
  QueryRoute.GET e w = (r, w1) ->
  QueryRouteWithHeaders.GET e w = (r2, w2) ->
  history w1 = history w ++ evs ->
  In (Sql SELECT_INVOICES (inr q)) evs ->
  exists resp resp2,
    r = inr resp /\ r2 = inr resp2
    /\ status resp = 200 /\ status resp2 = 200
    /\ body resp = JSON_stringify (rows_to_json (rows q))
    /\ body resp2 = JSON_stringify (rows_to_json (rows q))
    /\ content_type resp2 = Some "application/json"%string
    /\ content_type resp = Some "text/plain;charset=UTF-8"%string.
Proof.
  intros H1 H2 Hh Hq.
  destruct (query_outcome e w r w1 r2 w2 evs H1 H2 Hh)
    as [_ [_ [_ [[-> _]|[[code [-> _]]|[invs [cs [Hi [Hc [-> [-> ->]]]]]]]]]]].
  - destruct Hq as [Hq|[]]. discriminate Hq.
  - destruct Hq as [Hq|[Hq|[Hq|[Hq|[]]]]]; discriminate Hq.
  - destruct Hq as [Hq|[Hq|[Hq|[]]]]; try discriminate Hq.
    injection Hq as <-. cbn [rows].
    exists (listing (reorder (plan e) (select_invoices invs cs))),
           (listing_json (reorder (plan e) (select_invoices invs cs))).
    repeat split; reflexivity.
Qed.

(** ** What the statements do to the rows *)

Definition rows_of {A} (t : option (list A)) : list A :=
  match t with Some l => l | None => [] end.

(** The row the server stores for a placeholder entry: its texts as the
    columns take them ([fit]); none if a column refuses its text. *)
Definition stored_user (u : User) : list User :=
  match fit 255 (user_name u) with
  | Some nm => [mkUser (user_id u) nm (user_email u) (user_password u)]
  | None => []
  end.

Definition stored_customer (c : Customer) : list Customer :=
  match fit 255 (customer_name c), fit 255 (customer_email c),
        fit 255 (customer_image_url c) with
  | Some nm, Some em, Some url => [mkCustomer (customer_id c) nm em url]
  | _, _, _ => []
  end.

Definition stored_invoice (i : Invoice) : list Invoice :=
  match fit 255 (invoice_status i) with
  | Some st => [mkInvoice (invoice_customer_id i) (invoice_amount i) st (invoice_date i)]
  | None => []
  end.

Definition stored_revenue (r : Revenue) : list Revenue :=
  match fit 4 (rev_month r) with
  | Some m => [mkRevenue m (rev_revenue r)]
  | None => []
  end.

(** The row a statement adds, given its result. *)
Definition added_user (s : stmt) (q : QueryResult) : list User :=
  match s with INSERT_USER u => if rowCount q =? 1 then stored_user u else [] | _ => [] end.

Definition added_customer (s : stmt) (q : QueryResult) : list Customer :=
  match s with
  | INSERT_CUSTOMER c => if rowCount q =? 1 then stored_customer c else []
  | _ => []
  end.

Definition added_invoice (s : stmt) (q : QueryResult) : list Invoice :=
  match s with
  | INSERT_INVOICE i => if rowCount q =? 1 then stored_invoice i else []
  | _ => []
  end.

Definition added_revenue (s : stmt) (q : QueryResult) : list Revenue :=
  match s with
  | INSERT_REVENUE r => if rowCount q =? 1 then stored_revenue r else []
  | _ => []
  end.

Lemma run_effect s fresh t t1 q :
  run s fresh t = inr (t1, q) ->
  rows_of (users_t t1) = rows_of (users_t t) ++ added_user s q
  /\ rows_of (customers_t t1) = rows_of (customers_t t) ++ added_customer s q
  /\ map inv_fields (rows_of (invoices_t t1))
     = map inv_fields (rows_of (invoices_t t)) ++ added_invoice s q
  /\ rows_of (revenue_t t1) = rows_of (revenue_t t) ++ added_revenue s q.
Proof.
  intros H. destruct t as [ext us cs invs rs].
  unfold added_user, added_customer, added_invoice, added_revenue,
    stored_user, stored_customer, stored_invoice, stored_revenue.
  destruct s as [| | | |tb|u|c|i|rv|]; try destruct tb; cbn -[fit int4 existsb] in H;
    repeat match type of H with
           | context [match ?o with Some _ => _ | None => _ end] =>
               destruct o; cbn -[fit int4 existsb] in H
           | context [if ?b then _ else _] => destruct b; cbn -[fit int4 existsb] in H
           end;
    try discriminate H; injection H as <- <-; cbn -[fit];
    rewrite ?app_nil_r, ?map_app; repeat split; reflexivity.
Qed.

(** A user row that is stored has the id, the email and the password of the
    statement. *)
Lemma stored_user_fields u row :
  In row (stored_user u) ->
  user_id row = user_id u /\ user_email row = user_email u
  /\ user_password row = user_password u.
Proof.
  unfold stored_user. destruct (fit 255 (user_name u)); [|intros []].
  intros [<-|[]]. auto.
Qed.

(** ** Stored passwords *)

Section Passwords.

Variable users : list User.
Variable customers : list Customer.
Variable invoices : list Invoice.
Variable revenue : list Revenue.
Variable e : env.
Variable h0 : list event.

(** The rows that were there before the invocation. *)
Variable held : User -> Prop.

(** A row made of a placeholder user and a hash of its password at cost 10. *)
Definition hashed_row (row : User) : Prop :=
  exists u n h,
    In u users /\ bcrypt e n (user_password u) 10 = Some h
    /\ row = mkUser (user_id u) (user_name u) (user_email u) h.

Definition hashed_event (ev : event) : Prop :=
  match ev with
  | Sql (INSERT_USER row) _ => hashed_row row
  | Hash _ cost _ => cost = 10
  | _ => True
  end.

(** A stored row whose password is such a hash. *)
Definition hashed_password (row : User) : Prop :=
  exists u n, In u users /\ bcrypt e n (user_password u) 10 = Some (user_password row).

Let kept (w : world) : Prop :=
  (forall row, In row (rows_of (users_t (store (pg w)))) -> held row \/ hashed_password row)
  /\ (forall row, In row (rows_of (users_t (committed (pg w)))) ->
                  held row \/ hashed_password row)
  /\ exists evs, history w = h0 ++ evs /\ Forall hashed_event evs.

Lemma kept_log w ev : kept w -> hashed_event ev -> kept (log ev w).
Proof.
  intros [Hs [Hc [evs [Hh Hq]]]] Hev. split; [exact Hs|]. split; [exact Hc|].
  exists (evs ++ [ev]). unfold log. cbn [history]. rewrite Hh, app_assoc.
  split; [reflexivity|]. apply Forall_app. split; [exact Hq|]. constructor; auto.
Qed.

Lemma kept_statement s w :
  (forall row, s = INSERT_USER row -> hashed_row row) ->
  kept w ->
  kept (snd (client_sql s e w)).
Proof.
  intros Hrow [Hs [Hc [evs [Hh Hq]]]].
  destruct (client_sql_run s e w) as [r [d [He ->]]]. cbn [snd].
  destruct (exec_cases _ _ _ _ _ _ _ _ He) as [Hst Hco].
  assert (Hs1 : forall row, In row (rows_of (users_t (store d))) ->
                            held row \/ hashed_password row).
  { intros row Hin. destruct Hst as [E|[E|[q [_ [_ E]]]]].
    - rewrite E in Hin. auto.
    - rewrite E in Hin. auto.
    - apply run_effect in E. destruct E as [E _]. rewrite E in Hin.
      apply in_app_or in Hin. destruct Hin as [Hin|Hin]; [auto|].
      right. unfold added_user in Hin. destruct s; try destruct Hin.
      destruct (rowCount q =? 1); [|destruct Hin].
      destruct (stored_user_fields _ _ Hin) as [_ [_ Hp]].
      destruct (Hrow u eq_refl) as [u0 [n [h [Hu [Hn ->]]]]].
      exists u0, n. split; [exact Hu|]. rewrite Hp. exact Hn. }
  split; [exact Hs1|]. split.
  - cbn [pg]. intros row Hin. destruct Hco as [E|E]; rewrite E in Hin; auto.
  - exists (evs ++ [Sql s r]). cbn [history]. rewrite Hh, app_assoc.
    split; [reflexivity|]. apply Forall_app. split; [exact Hq|].
    constructor; [|constructor]. destruct s; try exact I. apply Hrow. reflexivity.
Qed.

Lemma kept_triple s :
  (forall row, s = INSERT_USER row -> hashed_row row) ->
  triple e kept (client_sql s) (fun _ => kept) (fun _ => kept).
Proof.
  intros Hrow w Hw. pose proof (kept_statement s w Hrow Hw) as H.
  destruct (client_sql s e w) as [[x|q] w1]; exact H.
Qed.

Lemma kept_row s msg :
  (forall row, s = INSERT_USER row -> hashed_row row) ->
  forall w, kept w ->
    match client_sql s e w with
    | (inr _, w1) => kept w1
    | (inl x, w1) => kept (log (ConsoleError msg x) w1)
    end.
Proof.
  intros Hrow w Hw. pose proof (kept_statement s w Hrow Hw) as H.
  destruct (client_sql s e w) as [[x|q] w1]; [|exact H].
  apply kept_log; [exact H | exact I].
Qed.

Lemma kept_hash plain w :
  kept w -> kept (snd (bcrypt_hash plain 10 e w)).
Proof.
  intros Hw. unfold bcrypt_hash.
  destruct (bcrypt e (salts w) plain 10) as [h|]; cbn [snd].
  - apply (kept_log w (Hash plain 10 (Some h)) Hw eq_refl).
  - apply (kept_log w (Hash plain 10 None) Hw eq_refl).
Qed.

Lemma kept_callback c :
  user_callback users e c ->
  forall row, guarded_stmt c = INSERT_USER row -> hashed_row row.
Proof.
  intros [u [n [h [Hu [Hn ->]]]]] row E. injection E as <-. exists u, n, h. auto.
Qed.

Lemma GET_kept w :
  kept w ->
  kept (snd (SeedRoute.GET users customers invoices revenue e w)).
Proof.
  intros Hw.
  assert (H : match SeedRoute.GET users customers invoices revenue e w with
              | (r, w1) =>
                  (r = inr seeded /\ kept w1)
                  \/ (r = inr seeding_failed /\ exists x : exn, kept w1)
                  \/ (exists x y : exn, r = inl y /\ kept w1)
              end).
  { apply (GET_flow users customers invoices revenue e kept (fun _ => kept)
                    (fun _ => kept) (fun _ => kept) (fun _ => kept) (fun _ _ => kept));
      try exact Hw;
      try (apply kept_triple; intros row E; discriminate E);
      try (intros; apply kept_row; [intros row E; discriminate E | assumption]).
    - intros u _ w0 Hw0. pose proof (kept_hash (user_password u) w0 Hw0) as H.
      destruct (bcrypt_hash (user_password u) 10 e w0) as [[x|h] w1]; exact H.
    - intros u _ xs w0 Hw0. pose proof (kept_hash (user_password u) w0 Hw0) as H.
      destruct (bcrypt_hash (user_password u) 10 e w0) as [[x|h] w1]; exact H.
    - intros c Hc. apply kept_row. exact (kept_callback c Hc).
    - intros c Hc xs. apply kept_row. exact (kept_callback c Hc).
    - intros x xs cs w0 _ _ Hw0. exact Hw0.
    - intros x w0 Hw0.
      pose proof (kept_statement ROLLBACK w0 ltac:(intros row E; discriminate E) Hw0) as H.
      destruct (client_sql ROLLBACK e w0) as [[y|q] w1]; [exact H|].
      apply kept_log; [exact H | exact I]. }
  destruct (SeedRoute.GET users customers invoices revenue e w) as [r w1].
  destruct H as [[_ H]|[[_ [_ H]]|[_ [_ [_ H]]]]]; exact H.
Qed.

End Passwords.

(** C8.  Every INSERT into [users] that a seed invocation sends carries, as
    password, the bcrypt hash at cost 10 of the password of the placeholder
    user it is made of, and no hash is computed at another cost.  Hence, given
    that bcrypt never returns a placeholder password and that no row present
    before had one, no row of the users table has a placeholder password
    after the invocation. *)
Theorem seeded_passwords_are_hashed users customers invoices revenue e w r w1 evs :
  SeedRoute.GET users customers invoices revenue e w = (r, w1) ->
  history w1 = history w ++ evs ->
  (forall n u v h, In u users -> In v users ->
                   bcrypt e n (user_password u) 10 = Some h -> h <> user_password v) ->
  (forall row v,
     In row (rows_of (users_t (store (pg w))))
     \/ In row (rows_of (users_t (committed (pg w)))) ->
     In v users -> user_password row <> user_password v) ->
  (forall row v, In row (rows_of (users_t (store (pg w1)))) ->
                 In v users -> user_password row <> user_password v)
  /\ (forall row v, In row (rows_of (users_t (committed (pg w1)))) ->
                    In v users -> user_password row <> user_password v)
  /\ (forall row res, In (Sql (INSERT_USER row) res) evs ->
        exists u n h,
          In u users /\ bcrypt e n (user_password u) 10 = Some h
          /\ row = mkUser (user_id u) (user_name u) (user_email u) h)
  /\ (forall plain cost res, In (Hash plain cost res) evs -> cost = 10).
Proof.
  intros Hrun Hh Hhash Hbefore.
  pose proof (GET_kept users customers invoices revenue e (history w)
                (fun row => forall v, In v users -> user_password row <> user_password v) w)
    as H.
  rewrite Hrun in H. cbn [snd] in H.
  destruct H as [Hs [Hc [evs1 [Hh1 Hq]]]].
  { split; [|split].
    - intros row Hin. left. intros v Hv. apply (Hbefore row v); auto.
    - intros row Hin. left. intros v Hv. apply (Hbefore row v); auto.
    - exists []. rewrite app_nil_r. split; [reflexivity | constructor]. }
  rewrite Hh in Hh1. apply app_inv_head in Hh1. subst evs1.
  assert (Hgood : forall row, hashed_password users e row ->
                              forall v, In v users -> user_password row <> user_password v).
  { intros row [u [n [Hu Hn]]] v Hv. exact (Hhash n u v _ Hu Hv Hn). }
  rewrite Forall_forall in Hq.
  split; [|split; [|split]].
  - intros row v Hin Hv. destruct (Hs row Hin) as [Hb|Hg]; [exact (Hb v Hv)|].
    exact (Hgood row Hg v Hv).
  - intros row v Hin Hv. destruct (Hc row Hin) as [Hb|Hg]; [exact (Hb v Hv)|].
    exact (Hgood row Hg v Hv).
  - intros row res Hin. exact (Hq _ Hin).
  - intros plain cost res Hin. exact (Hq _ Hin).
Qed.

(** ** The inserts of a run *)

Definition failed_insert (ev : event) : bool :=
  match ev with
  | Sql s (inl _) => is_insert s
  | _ => false
  end.

(** Every failed insert has its line on the console. *)
Definition logged (evs : list event) : Prop :=
  forall s code,
    In (Sql s (inl code)) evs -> is_insert s = true ->
    exists msg, In (ConsoleError msg (SqlError s code)) evs.

(** The rows that the inserts of a run reported as stored, in order. *)
Definition inserted_users (evs : list event) : list User :=
  flat_map (fun ev => match ev with Sql s (inr q) => added_user s q | _ => [] end) evs.

Definition inserted_customers (evs : list event) : list Customer :=
  flat_map (fun ev => match ev with Sql s (inr q) => added_customer s q | _ => [] end) evs.

Definition inserted_invoices (evs : list event) : list Invoice :=
  flat_map (fun ev => match ev with Sql s (inr q) => added_invoice s q | _ => [] end) evs.

Definition inserted_revenue (evs : list event) : list Revenue :=
  flat_map (fun ev => match ev with Sql s (inr q) => added_revenue s q | _ => [] end) evs.

Lemma logged_snoc evs ev :
  logged evs -> failed_insert ev = false -> logged (evs ++ [ev]).
Proof.
  intros Hl Hev s code Hin Hs. apply in_app_or in Hin. destruct Hin as [Hin|[Hin|[]]].
  - destruct (Hl s code Hin Hs) as [msg Hm]. exists msg. apply in_or_app. left. exact Hm.
  - subst ev. simpl in Hev. congruence.
Qed.

Lemma logged_caught evs s code msg :
  logged evs -> logged ((evs ++ [Sql s (inl code)]) ++ [ConsoleError msg (SqlError s code)]).
Proof.
  intros Hl s1 code1 Hin Hs. apply in_app_or in Hin. destruct Hin as [Hin|[Hin|[]]].
  - apply in_app_or in Hin. destruct Hin as [Hin|[Hin|[]]].
    + destruct (Hl s1 code1 Hin Hs) as [m Hm]. exists m.
      apply in_or_app. left. apply in_or_app. left. exact Hm.
    + injection Hin as <- <-. exists msg. apply in_or_app. right. left. reflexivity.
  - discriminate Hin.
Qed.

(** The rows of the four tables, the invoices without their keys. *)
Definition rowsets : Type := (list User * list Customer * list Invoice * list Revenue)%type.

Definition contents (t : tables) : rowsets :=
  (rows_of (users_t t), rows_of (customers_t t), map inv_fields (rows_of (invoices_t t)),
   rows_of (revenue_t t)).

Definition rows_app (a b : rowsets) : rowsets :=
  match a, b with
  | (u1, c1, i1, r1), (u2, c2, i2, r2) => (u1 ++ u2, c1 ++ c2, i1 ++ i2, r1 ++ r2)
  end.

Definition inserted (evs : list event) : rowsets :=
  (inserted_users evs, inserted_customers evs, inserted_invoices evs, inserted_revenue evs).

Lemma rows_app_assoc a b c : rows_app (rows_app a b) c = rows_app a (rows_app b c).
Proof.
  destruct a as [[[u1 c1] i1] r1], b as [[[u2 c2] i2] r2], c as [[[u3 c3] i3] r3].
  simpl. rewrite <- !app_assoc. reflexivity.
Qed.

Lemma rows_app_nil a : rows_app a ([], [], [], []) = a.
Proof. destruct a as [[[u1 c1] i1] r1]. simpl. rewrite !app_nil_r. reflexivity. Qed.

Lemma inserted_app evs1 evs2 :
  inserted (evs1 ++ evs2) = rows_app (inserted evs1) (inserted evs2).
Proof.
  unfold inserted, inserted_users, inserted_customers, inserted_invoices, inserted_revenue.
  rewrite !flat_map_app. reflexivity.
Qed.

Lemma run_contents s fresh t t1 q :
  run s fresh t = inr (t1, q) ->
  contents t1 = rows_app (contents t) (inserted [Sql s (inr q)]).
Proof.
  intros H. apply run_effect in H. destruct H as [Hu [Hc [Hi Hr]]].
  unfold contents, inserted, inserted_users, inserted_customers, inserted_invoices,
    inserted_revenue. cbn [flat_map rows_app]. rewrite !app_nil_r.
  rewrite Hu, Hc, Hi, Hr. reflexivity.
Qed.

(** ** Sample runs *)

(** A bcrypt that salts by the number of the draw, and one that rejects the
    draw of a given number. *)
Definition sample_bcrypt (n : nat) (plain : string) (cost : nat) : option string :=
  Some ("$2b$" +++ NilZero.string_of_uint (Nat.to_uint cost) +++ "$"
               +++ NilZero.string_of_uint (Nat.to_uint n) +++ "." +++ plain).

Definition rejecting_bcrypt (k n : nat) (plain : string) (cost : nat) : option string :=
  if n =? k then None else sample_bcrypt n plain cost.

(** The reading of the dates written as the placeholder data writes them,
    [YYYY-MM-DD]; in the sample runs every other text is refused. *)
Definition invalid_datetime_format : string := "22007".
Definition datetime_field_overflow : string := "22008".

Definition digit (c : ascii) : option nat :=
  let n := nat_of_ascii c in
  if (48 <=? n) && (n <=? 57) then Some (n - 48) else None.

Definition leap (y : nat) : bool :=
  ((y mod 4 =? 0) && negb (y mod 100 =? 0)) || (y mod 400 =? 0).

Definition days_in (y m : nat) : nat :=
  match m with
  | 1 | 3 | 5 | 7 | 8 | 10 | 12 => 31
  | 4 | 6 | 9 | 11 => 30
  | 2 => if leap y then 29 else 28
  | _ => 0
  end.

Definition iso_dates (s : string) : option string :=
  match s with
  | String y1 (String y2 (String y3 (String y4 (String "-" (String m1 (String m2
      (String "-" (String d1 (String d2 EmptyString))))))))) =>
      match digit y1, digit y2, digit y3, digit y4, digit m1, digit m2, digit d1, digit d2 with
      | Some a, Some b, Some c, Some d, Some f, Some g, Some h, Some i =>
          let y := 1000 * a + 100 * b + 10 * c + d in
          let m := 10 * f + g in
          let dd := 10 * h + i in
          if (1 <=? y) && (1 <=? m) && (m <=? 12) && (1 <=? dd) && (dd <=? days_in y m)
          then None
          else Some datetime_field_overflow
      | _, _, _, _, _, _, _, _ => Some invalid_datetime_format
      end
  | _ => Some invalid_datetime_format
  end.

(** PostgreSQL, with hashes completing and rows returned in the order of the
    lists. *)
Definition postgres : env :=
  mkEnv AbortTransaction (fun _ => false) sample_bcrypt iso_dates [] [].

(** A server that undoes a failed statement alone. *)
Definition statement_server : env :=
  mkEnv StatementRollback (fun _ => false) sample_bcrypt iso_dates [] [].

(** PostgreSQL on which the round trip numbered [n] fails, and on which every
    round trip from the one numbered [n] on fails (a connection that is lost). *)
Definition postgres_failing (n : nat) : env :=
  mkEnv AbortTransaction (fun k => k =? n) sample_bcrypt iso_dates [] [].

Definition postgres_lost_at (n : nat) : env :=
  mkEnv AbortTransaction (fun k => n <=? k) sample_bcrypt iso_dates [] [].

(** PostgreSQL with a bcrypt that rejects the draw numbered [k]. *)
Definition postgres_rejecting (k : nat) : env :=
  mkEnv AbortTransaction (fun _ => false) (rejecting_bcrypt k) iso_dates [] [].

Definition fresh_world : world := mkWorld (mkSession empty_tables Idle) 0 0 0 0 [] [].

Definition acme : Customer :=
  mkCustomer (Literal "3958dc9e-712f-4377-85e9-fec4b6a6442a") "Acme" "acme@example.com"
             "/customers/acme.png".

Definition lee : Customer :=
  mkCustomer (Literal "d6e15727-9fe1-4961-8c5b-ea44a9bd81aa") "Evil Rabbit"
             "evil@rabbit.com" "/customers/evil-rabbit.png".

Definition sample_customers : list Customer := [acme; lee].

Definition sample_users : list User :=
  [mkUser (Literal "410544b2-4001-4271-9855-fec4b6a6442a") "User" "user@nextmail.com" "123456";
   mkUser (Literal "410544b2-4001-4271-9855-fec4b6a6442b") "Other" "other@nextmail.com"
          "abcdef"].

(** Two users that are not among the seeded ones. *)
Definition carol : User :=
  mkUser (Literal "410544b2-4001-4271-9855-fec4b6a6442c") "Carol" "carol@nextmail.com"
         "qwerty".

Definition dave : User :=
  mkUser (Literal "410544b2-4001-4271-9855-fec4b6a6442d") "Dave" "dave@nextmail.com"
         "zxcvbn".

Definition acme_invoice : Invoice := mkInvoice (customer_id acme) 666 "pending" "2022-12-06".

Definition lee_invoice : Invoice := mkInvoice (customer_id lee) 20348 "paid" "2022-11-14".

Definition orphan_invoice : Invoice :=
  mkInvoice (Literal "00000000-0000-0000-0000-000000000000") 3040 "paid" "2022-10-29".

Definition sample_invoices : list Invoice := [acme_invoice; lee_invoice].

Definition orphaned_invoices : list Invoice := [acme_invoice; orphan_invoice; lee_invoice].

Definition sample_revenue : list Revenue := [mkRevenue "Jan" 2000; mkRevenue "Feb" 1800].

(** Revenue whose last month does not fit [VARCHAR(4)]. *)
Definition long_month_revenue : list Revenue := [mkRevenue "Jan" 2000; mkRevenue "March" 1800].

Definition row_counts (t : tables) : nat * nat * nat * nat :=
  (List.length (rows_of (users_t t)), List.length (rows_of (customers_t t)),
   List.length (rows_of (invoices_t t)), List.length (rows_of (revenue_t t))).

(** The seed on an empty database, and once more after it. *)
Definition first_run : (exn + Response) * world :=
  Eval vm_compute in
    SeedRoute.GET sample_users sample_customers sample_invoices sample_revenue postgres
                  fresh_world.

Definition second_run : (exn + Response) * world :=
  Eval vm_compute in
    SeedRoute.GET sample_users sample_customers sample_invoices sample_revenue postgres
                  (snd first_run).

(** The seed with one invoice that refers to no customer, and the seed whose
    last insert fails. *)
Definition orphan_run : (exn + Response) * world :=
  Eval vm_compute in
    SeedRoute.GET sample_users sample_customers orphaned_invoices sample_revenue postgres
                  fresh_world.

Definition long_month_run : (exn + Response) * world :=
  Eval vm_compute in
    SeedRoute.GET sample_users sample_customers sample_invoices long_month_revenue postgres
                  fresh_world.

(** The seed when the CREATE TABLE of the invoices fails (round trip 8); when
    the connection is lost from that round trip on; when bcrypt rejects the
    second password. *)
Definition ddl_failure_run : (exn + Response) * world :=
  Eval vm_compute in
    SeedRoute.GET sample_users sample_customers sample_invoices sample_revenue
                  (postgres_failing 8) fresh_world.

Definition lost_connection_run : (exn + Response) * world :=
  Eval vm_compute in
    SeedRoute.GET sample_users sample_customers sample_invoices sample_revenue
                  (postgres_lost_at 8) fresh_world.

Definition rejected_hash_run : (exn + Response) * world :=
  Eval vm_compute in
    SeedRoute.GET sample_users sample_customers sample_invoices sample_revenue
                  (postgres_rejecting 1) fresh_world.

(** The seed of two more users on the seeded database, when bcrypt rejects
    the password of the first of them (the draw numbered 2), and the world
    once the callback of the second is through. *)
Definition late_insert_run : (exn + Response) * world :=
  Eval vm_compute in
    SeedRoute.GET [carol; dave] sample_customers sample_invoices sample_revenue
                  (postgres_rejecting 2) (snd first_run).

Definition late_insert_end : world :=
  Eval vm_compute in settle (postgres_rejecting 2) (snd late_insert_run).

(** The query on the seeded database, on an empty one, and without a client. *)
Definition query_run : (exn + Response) * world :=
  Eval vm_compute in QueryRoute.GET postgres (snd first_run).

Definition query_run_json : (exn + Response) * world :=
  Eval vm_compute in QueryRouteWithHeaders.GET postgres (snd first_run).

Definition query_events : list event :=
  Eval vm_compute in skipn (List.length (history (snd first_run))) (history (snd query_run)).

Definition no_table_run : (exn + Response) * world :=
  Eval vm_compute in QueryRoute.GET postgres fresh_world.

Definition no_table_run_json : (exn + Response) * world :=
  Eval vm_compute in QueryRouteWithHeaders.GET postgres fresh_world.

Definition no_client_run : (exn + Response) * world :=
  Eval vm_compute in QueryRoute.GET (postgres_failing 0) fresh_world.

Definition no_client_run_json : (exn + Response) * world :=
  Eval vm_compute in QueryRouteWithHeaders.GET (postgres_failing 0) fresh_world.

Definition is_commit (ev : event) : bool :=
  match ev with Sql COMMIT _ => true | _ => false end.

Definition is_failure (ev : event) : bool :=
  match ev with Sql _ (inl _) => true | Hash _ _ None => true | _ => false end.

(** A DDL statement that failed for a reason of its own, or a rejected hash. *)
Definition fails_by_itself (ev : event) : bool :=
  match ev with
  | Sql s (inl code) => is_ddl s && negb (String.eqb code in_failed_sql_transaction)
  | Hash _ _ None => true
  | _ => false
  end.

(** C3 fails on the code, on PostgreSQL.  One placeholder invoice refers to
    no customer.  Its insert fails with a foreign-key violation and is
    caught and logged; nothing else fails by itself.  But the failure has
    aborted the transaction: the next inserts and the CREATE TABLE of the
    revenue step are refused, the handler rolls back and answers with the
    failure response, COMMIT is never sent, and the rows whose insert had
    succeeded (the users, the customers, the first invoice) are not in the
    database.  When the insert that fails is the last statement before
    COMMIT (a month that does not fit its column), the handler does send
    COMMIT, which the server answers by rolling back: the response is the
    success response and the database is empty. *)
Lemma row_failure_aborts_on_postgres :
  SeedRoute.GET sample_users sample_customers orphaned_invoices sample_revenue postgres
                fresh_world = orphan_run
  /\ mode postgres = AbortTransaction
  /\ In (Sql (INSERT_INVOICE orphan_invoice) (inl foreign_key_violation))
        (history (snd orphan_run))
  /\ In (Sql (INSERT_INVOICE acme_invoice) (inr (done 1))) (history (snd orphan_run))
  /\ existsb fails_by_itself (history (snd orphan_run)) = false
  /\ fst orphan_run = inr seeding_failed
  /\ status seeding_failed = 500
  /\ existsb is_commit (history (snd orphan_run)) = false
  /\ store (pg (snd orphan_run)) = empty_tables
  /\ row_counts (store (pg (snd orphan_run))) = (0, 0, 0, 0)
  /\ pending (snd orphan_run) = []
  /\ SeedRoute.GET sample_users sample_customers sample_invoices long_month_revenue postgres
                   fresh_world = long_month_run
  /\ filter is_failure (history (snd long_month_run))
     = [Sql (INSERT_REVENUE (mkRevenue "March" 1800)) (inl string_data_right_truncation)]
  /\ In (Sql COMMIT (inr (done 0))) (history (snd long_month_run))
  /\ fst long_month_run = inr seeded
  /\ status seeded = 200
  /\ tx (pg (snd long_month_run)) = Idle
  /\ store (pg (snd long_month_run)) = empty_tables
  /\ pending (snd long_month_run) = [].
Proof.
  split; [vm_compute; reflexivity|]. split; [reflexivity|].
  split; [vm_compute; tauto|]. split; [vm_compute; tauto|].
  do 7 (split; [vm_compute; reflexivity|]).
  split; [vm_compute; reflexivity|]. split; [vm_compute; reflexivity|].
  split; [vm_compute; tauto|].
  repeat split; vm_compute; reflexivity.
Qed.

(** C2, on the code.  The seed run twice on an empty database: both runs
    succeed and no statement of the second fails; the users, customers and
    revenue rows are those of the first run; the invoices are there twice,
    because their insert passes no id and each run draws new ones. *)
Theorem second_seed_duplicates_invoices :
  SeedRoute.GET sample_users sample_customers sample_invoices sample_revenue postgres
                fresh_world = first_run
  /\ SeedRoute.GET sample_users sample_customers sample_invoices sample_revenue postgres
                   (snd first_run) = second_run
  /\ fst first_run = inr seeded
  /\ fst second_run = inr seeded
  /\ existsb is_failure (history (snd second_run)) = false
  /\ row_counts (store (pg (snd first_run))) = (2, 2, 2, 2)
  /\ row_counts (store (pg (snd second_run))) = (2, 2, 4, 2)
  /\ users_t (store (pg (snd second_run))) = users_t (store (pg (snd first_run)))
  /\ customers_t (store (pg (snd second_run))) = customers_t (store (pg (snd first_run)))
  /\ revenue_t (store (pg (snd second_run))) = revenue_t (store (pg (snd first_run)))
  /\ map inv_fields (rows_of (invoices_t (store (pg (snd first_run))))) = sample_invoices
  /\ map inv_fields (rows_of (invoices_t (store (pg (snd second_run)))))
     = sample_invoices ++ sample_invoices
  /\ map inv_id (rows_of (invoices_t (store (pg (snd second_run)))))
     = [Generated 0; Generated 1; Generated 2; Generated 3]
  /\ (forall i fresh t rs cs,
        invoices_t t = Some rs -> customers_t t = Some cs ->
        int4 (invoice_amount i) = true -> varchar 255 (invoice_status i) = true ->
        existsb (fun c => uuid_eqb (customer_id c) (invoice_customer_id i)) cs = true ->
        existsb (fun x => uuid_eqb (inv_id x) fresh) rs = false ->
        run (INSERT_INVOICE i) fresh t
        = inr (mkTables (uuid_ossp t) (users_t t) (customers_t t)
                        (Some (rs ++ [mkInvoiceRow fresh i])) (revenue_t t), done 1)).
Proof.
  do 13 (split; [vm_compute; reflexivity|]).
  intros i fresh t rs cs Hi Hc Ha Hs Hfk Hid. unfold run.
  rewrite Hi, Hc, Ha, (fit_fits _ _ Hs), Hid, Hfk. destruct i. reflexivity.
Qed.

(** ** The theorems on the sample runs *)






Lemma sample_bcrypt_not_plain n u v h :
  In u sample_users -> In v sample_users ->
  bcrypt postgres n (user_password u) 10 = Some h -> h <> user_password v.
Proof.
  intros Hu Hv Hh. cbn in Hh. injection Hh as <-.
  destruct Hv as [<-|[<-|[]]]; cbn; discriminate.
Qed.

Lemma seeded_passwords_are_hashed_witness :
  SeedRoute.GET sample_users sample_customers sample_invoices sample_revenue postgres
                fresh_world = first_run
  /\ (forall n u v h, In u sample_users -> In v sample_users ->
        bcrypt postgres n (user_password u) 10 = Some h -> h <> user_password v)
  /\ (forall row v, In row (rows_of (users_t (store (pg (snd first_run))))) ->
        In v sample_users -> user_password row <> user_password v)
  /\ map user_password (rows_of (users_t (store (pg (snd first_run)))))
     = ["$2b$10$0.123456"%string; "$2b$10$1.abcdef"%string].
Proof.
  assert (H1 : SeedRoute.GET sample_users sample_customers sample_invoices sample_revenue
                             postgres fresh_world
               = (fst first_run, snd first_run)) by (vm_compute; reflexivity).
  assert (H3 : forall row v,
             In row (rows_of (users_t (store (pg fresh_world))))
             \/ In row (rows_of (users_t (committed (pg fresh_world)))) ->
             In v sample_users -> user_password row <> user_password v).
  { intros row v [[]|[]]. }
  destruct (seeded_passwords_are_hashed _ _ _ _ _ _ _ _ (history (snd first_run))
              H1 eq_refl sample_bcrypt_not_plain H3) as [Hs _].
  split; [vm_compute; reflexivity|]. split; [exact sample_bcrypt_not_plain|].
  split; [exact Hs | vm_compute; reflexivity].
Defined.

Lemma query_returns_matching_invoices_witness :
  QueryRoute.GET postgres (snd first_run) = query_run
  /\ QueryRouteWithHeaders.GET postgres (snd first_run) = query_run_json
  /\ history (snd query_run) = history (snd first_run) ++ query_events
  /\ In (Sql SELECT_INVOICES (inr (mkResult 1 [mkLine 666 "Acme"]))) query_events
  /\ (exists resp resp2,
        fst query_run = inr resp /\ status resp = 200 /\ body resp = acme_text
        /\ fst query_run_json = inr resp2 /\ status resp2 = 200 /\ body resp2 = acme_text).
Proof.
  assert (H1 : QueryRoute.GET postgres (snd first_run) = (fst query_run, snd query_run))
    by (vm_compute; reflexivity).
  assert (H2 : QueryRouteWithHeaders.GET postgres (snd first_run)
               = (fst query_run_json, snd query_run_json)) by (vm_compute; reflexivity).
  assert (H3 : history (snd query_run) = history (snd first_run) ++ query_events)
    by (vm_compute; reflexivity).
  assert (H4 : In (Sql SELECT_INVOICES (inr (mkResult 1 [mkLine 666 "Acme"]))) query_events)
    by (vm_compute; tauto).
  destruct (query_returns_matching_invoices _ _ _ _ _ _ _ _ H1 H2 H3 H4)
    as [invs [cs [resp [resp2 [_ [_ [_ [_ [Hr [Hs [Hb [Hr2 [Hs2 [Hb2 _]]]]]]]]]]]]]].
  split; [vm_compute; reflexivity|]. split; [vm_compute; reflexivity|].
  split; [exact H3|]. split; [exact H4|].
  exists resp, resp2. repeat split; assumption.
Defined.

Lemma query_failure_is_generic_witness :
  QueryRoute.GET postgres fresh_world = no_table_run
  /\ QueryRouteWithHeaders.GET postgres fresh_world = no_table_run_json
  /\ In (Sql SELECT_INVOICES (inl undefined_table)) (history (snd no_table_run))
  /\ fst no_table_run = inr fetch_failed
  /\ fst no_table_run_json = inr fetch_failed_json
  /\ body fetch_failed = fetch_failed_text.
Proof.
  assert (H1 : QueryRoute.GET postgres fresh_world = (fst no_table_run, snd no_table_run))
    by (vm_compute; reflexivity).
  assert (H2 : QueryRouteWithHeaders.GET postgres fresh_world
               = (fst no_table_run_json, snd no_table_run_json)) by (vm_compute; reflexivity).
  assert (H4 : In (Sql SELECT_INVOICES (inl undefined_table)) (history (snd no_table_run)))
    by (vm_compute; tauto).
  destruct (query_failure_is_generic _ _ _ _ _ _ (history (snd no_table_run)) H1 H2 eq_refl
              (or_intror (ex_intro _ undefined_table H4)))
    as [Hr [Hr2 [_ [Hb _]]]].
  split; [vm_compute; reflexivity|]. split; [vm_compute; reflexivity|].
  repeat split; assumption.
Defined.

Lemma query_releases_client_once_witness :
  QueryRoute.GET (postgres_failing 0) fresh_world = no_client_run
  /\ QueryRouteWithHeaders.GET (postgres_failing 0) fresh_world = no_client_run_json
  /\ In (Connect false) (history (snd no_client_run))
  /\ filter is_release (history (snd no_client_run)) = []
  /\ fst no_client_run = inr fetch_failed
  /\ QueryRoute.GET postgres fresh_world = no_table_run
  /\ In (Connect true) (history (snd no_table_run))
  /\ List.length (filter is_release (history (snd no_table_run))) = 1.
Proof.
  assert (H1 : QueryRoute.GET (postgres_failing 0) fresh_world
               = (fst no_client_run, snd no_client_run)) by (vm_compute; reflexivity).
  assert (H2 : QueryRouteWithHeaders.GET (postgres_failing 0) fresh_world
               = (fst no_client_run_json, snd no_client_run_json))
    by (vm_compute; reflexivity).
  assert (H3 : QueryRoute.GET postgres fresh_world = (fst no_table_run, snd no_table_run))
    by (vm_compute; reflexivity).
  assert (H4 : QueryRouteWithHeaders.GET postgres fresh_world
               = (fst no_table_run_json, snd no_table_run_json)) by (vm_compute; reflexivity).
  destruct (query_releases_client_once _ _ _ _ _ _ (history (snd no_client_run))
              H1 H2 eq_refl) as [_ [Hn _]].
  destruct (query_releases_client_once _ _ _ _ _ _ (history (snd no_table_run))
              H3 H4 eq_refl) as [Hy _].
  assert (Hc0 : In (Connect false) (history (snd no_client_run))) by (vm_compute; tauto).
  assert (Hc1 : In (Connect true) (history (snd no_table_run))) by (vm_compute; tauto).
  destruct (Hn Hc0) as [Hf [Hr _]]. destruct (Hy Hc1) as [Hl _].
  split; [vm_compute; reflexivity|]. split; [vm_compute; reflexivity|].
  split; [exact Hc0|]. split; [exact Hf|]. split; [exact Hr|].
  split; [vm_compute; reflexivity|]. split; [exact Hc1 | exact Hl].
Defined.

Lemma query_content_type_witness :
  QueryRoute.GET postgres (snd first_run) = query_run
  /\ QueryRouteWithHeaders.GET postgres (snd first_run) = query_run_json
  /\ In (Sql SELECT_INVOICES (inr (mkResult 1 [mkLine 666 "Acme"]))) query_events
  /\ (exists resp resp2,
        fst query_run = inr resp /\ fst query_run_json = inr resp2
        /\ content_type resp2 = Some "application/json"%string
        /\ content_type resp = Some "text/plain;charset=UTF-8"%string).
Proof.
  assert (H1 : QueryRoute.GET postgres (snd first_run) = (fst query_run, snd query_run))
    by (vm_compute; reflexivity).
  assert (H2 : QueryRouteWithHeaders.GET postgres (snd first_run)
               = (fst query_run_json, snd query_run_json)) by (vm_compute; reflexivity).
  assert (H3 : history (snd query_run) = history (snd first_run) ++ query_events)
    by (vm_compute; reflexivity).
  assert (H4 : In (Sql SELECT_INVOICES (inr (mkResult 1 [mkLine 666 "Acme"]))) query_events)
    by (vm_compute; tauto).
  destruct (query_content_type _ _ _ _ _ _ _ _ H1 H2 H3 H4)
    as [resp [resp2 [Hr [Hr2 [_ [_ [_ [_ [Hc2 Hc]]]]]]]]].
  split; [vm_compute; reflexivity|]. split; [vm_compute; reflexivity|].
  split; [exact H4|]. exists resp, resp2. repeat split; assumption.
Defined.

(** ** The seeding steps, one by one *)

(** The inserts of a run in the order in which they were sent, each with what
    its callback returns: the result, or nothing when the insert failed. *)
Definition attempts (evs : list event) : list (stmt * option QueryResult) :=
  flat_map (fun ev =>
              match ev with
              | Sql s r =>
                  if is_insert s
                  then [(s, match r with inr q => Some q | inl _ => None end)]
                  else []
              | _ => []
              end) evs.

(** An insert, or the console line of a failed insert. *)
Definition row_event (ev : event) : bool :=
  match ev with
  | Sql s _ => is_insert s
  | ConsoleError _ (SqlError s _) => is_insert s
  | _ => false
  end.

Lemma attempts_app evs1 evs2 : attempts (evs1 ++ evs2) = attempts evs1 ++ attempts evs2.
Proof. unfold attempts. apply flat_map_app. Qed.

Lemma logged_app evs1 evs2 : logged evs1 -> logged evs2 -> logged (evs1 ++ evs2).
Proof.
  intros H1 H2 s code Hin Hs. apply in_app_or in Hin. destruct Hin as [Hin|Hin].
  - destruct (H1 s code Hin Hs) as [msg Hm]. exists msg. apply in_or_app. left. exact Hm.
  - destruct (H2 s code Hin Hs) as [msg Hm]. exists msg. apply in_or_app. right. exact Hm.
Qed.

Lemma bind_run {A B} (m : M A) (k : A -> M B) e w :
  bind m k e w
  = match m e w with
    | (inr a, w1) => k a e w1
    | (inl x, w1) => (inl x, w1)
    end.
Proof. reflexivity. Qed.

Lemma guarded_run s msg e w :
  try_catch (r <- client_sql s ;; ret (Some r))
            (fun err => console_error msg err ;; ret None) e w
  = match client_sql s e w with
    | (inr q, w1) => (inr (Some q), w1)
    | (inl x, w1) => (inr None, log (ConsoleError msg x) w1)
    end.
Proof.
  unfold try_catch, bind, ret, console_error.
  destruct (client_sql s e w) as [[x|q] w1]; reflexivity.
Qed.

(** A fan-out of guarded inserts never throws: every row is tried once, in
    the order of the list, whatever happened to the rows before it, and the
    result has one entry per row. *)
Lemma guarded_rows {X} (stmt_of : X -> stmt) (msg_of : X -> string) (l : list X) e :
  (forall x, is_insert (stmt_of x) = true) ->
  forall w, exists res evs w1,
    Promise_all
      (map (fun x =>
              try_catch (r <- client_sql (stmt_of x) ;; ret (Some r))
                        (fun err => console_error (msg_of x) err ;; ret None)) l) e w
    = (inr res, w1)
    /\ history w1 = history w ++ evs
    /\ attempts evs = combine (map stmt_of l) res
    /\ List.length res = List.length l
    /\ Forall (fun ev => row_event ev = true) evs
    /\ logged evs.
Proof.
  intros Hins. induction l as [|x l IH]; intros w.
  - exists [], [], w. cbn. rewrite app_nil_r.
    repeat split; try reflexivity; [constructor | intros s c []].
  - cbn [map Promise_all]. rewrite bind_run, guarded_run.
    destruct (client_sql_run (stmt_of x) e w) as [r [d [_ Hc]]]. rewrite Hc.
    destruct r as [code|q]; cbn [raised]; rewrite bind_run;
      match goal with
      | |- context [Promise_all _ e ?w0] =>
          destruct (IH w0) as [res [evs [w1 [Hr [Hh [Ha [Hl [Hf Hlg]]]]]]]]
      end; rewrite Hr.
    + exists (None :: res),
             (Sql (stmt_of x) (inl code)
                  :: ConsoleError (msg_of x) (SqlError (stmt_of x) code) :: evs), w1.
      split; [reflexivity|]. split.
      { rewrite Hh. unfold log. cbn [history]. rewrite <- !app_assoc. reflexivity. }
      split.
      { cbn [attempts flat_map]. rewrite Hins. cbn [app combine map].
        fold (attempts evs). rewrite Ha. reflexivity. }
      split; [cbn; rewrite Hl; reflexivity|]. split.
      { constructor; [cbn; apply Hins|]. constructor; [cbn; apply Hins | exact Hf]. }
      { change (Sql (stmt_of x) (inl code)
                    :: ConsoleError (msg_of x) (SqlError (stmt_of x) code) :: evs)
          with (([] ++ [Sql (stmt_of x) (inl code)])
                  ++ [ConsoleError (msg_of x) (SqlError (stmt_of x) code)] ++ evs).
        rewrite app_assoc. apply logged_app; [|exact Hlg].
        apply (logged_caught [] (stmt_of x) code (msg_of x)). intros s c []. }
    + exists (Some q :: res), (Sql (stmt_of x) (inr q) :: evs), w1.
      split; [reflexivity|]. split.
      { rewrite Hh. cbn [history]. rewrite <- !app_assoc. reflexivity. }
      split.
      { cbn [attempts flat_map]. rewrite Hins. cbn [app combine map].
        fold (attempts evs). rewrite Ha. reflexivity. }
      split; [cbn; rewrite Hl; reflexivity|]. split.
      { constructor; [cbn; apply Hins | exact Hf]. }
      { change (Sql (stmt_of x) (inr q) :: evs) with ([Sql (stmt_of x) (inr q)] ++ evs).
        apply logged_app; [|exact Hlg]. intros s c [Hin|[]]. discriminate Hin. }
Qed.

(** A seeding step made of a CREATE TABLE and a fan-out of guarded inserts. *)
Lemma seed_step_rows {X} (tbl : table) (stmt_of : X -> stmt) (msg_of : X -> string)
      (l : list X) e w :
  (forall x, is_insert (stmt_of x) = true) ->
  match (client_sql (CREATE_TABLE tbl) ;;
         inserted <-
           Promise_all
             (map (fun x =>
                     try_catch (r <- client_sql (stmt_of x) ;; ret (Some r))
                               (fun err => console_error (msg_of x) err ;; ret None)) l) ;;
         ret inserted) e w with
  | (inl x, w1) =>
      exists code,
        x = SqlError (CREATE_TABLE tbl) code
        /\ history w1 = history w ++ [Sql (CREATE_TABLE tbl) (inl code)]
  | (inr res, w1) =>
      exists q evs,
        history w1 = history w ++ Sql (CREATE_TABLE tbl) (inr q) :: evs
        /\ attempts evs = combine (map stmt_of l) res
        /\ List.length res = List.length l
        /\ Forall (fun ev => row_event ev = true) evs
        /\ logged evs
  end.
Proof.
  intros Hins. rewrite bind_run.
  destruct (client_sql_run (CREATE_TABLE tbl) e w) as [r [d [_ Hc]]]. rewrite Hc.
  destruct r as [code|q]; cbn [raised].
  - exists code. split; reflexivity.
  - rewrite bind_run.
    match goal with
    | |- context [Promise_all _ e ?w0] =>
        destruct (guarded_rows stmt_of msg_of l e Hins w0)
          as [res [evs [w1 [Hr [Hh [Ha [Hl [Hf Hlg]]]]]]]]
    end.
    rewrite Hr. cbn [ret]. exists q, evs.
    split; [rewrite Hh; cbn [history]; rewrite <- app_assoc; reflexivity|].
    repeat split; assumption.
Qed.

(** X1.  [seedCustomers] throws only when its CREATE TABLE fails, and then sends
    no insert.  Otherwise it sends one insert per placeholder customer, in the
    order of the placeholder list and whatever the outcome of the inserts
    before, and nothing else; it returns one entry per customer, the result
    of the insert or nothing when the insert failed; and every failed insert
    has its line on the console. *)
Theorem seedCustomers_tries_every_row customers e w :
  match SeedRoute.seedCustomers customers e w with
  | (inl x, w1) =>
      exists code,
        x = SqlError (CREATE_TABLE Customers) code
        /\ history w1 = history w ++ [Sql (CREATE_TABLE Customers) (inl code)]
  | (inr res, w1) =>
      exists q evs,
        history w1 = history w ++ Sql (CREATE_TABLE Customers) (inr q) :: evs
        /\ attempts evs = combine (map INSERT_CUSTOMER customers) res
        /\ List.length res = List.length customers
        /\ Forall (fun ev => row_event ev = true) evs
        /\ logged evs
  end.
Proof.
  pose proof (seed_step_rows Customers
                (fun c => INSERT_CUSTOMER (mkCustomer (customer_id c) (customer_name c)
                                                      (customer_email c)
                                                      (customer_image_url c)))
                (fun c => "Error inserting customer: " +++ customer_email c)
                customers e w (fun _ => eq_refl)) as H.
  replace (map (fun c => INSERT_CUSTOMER (mkCustomer (customer_id c) (customer_name c)
                                                     (customer_email c)
                                                     (customer_image_url c))) customers)
    with (map INSERT_CUSTOMER customers) in H
    by (apply map_ext; intros [? ? ? ?]; reflexivity).
  exact H.
Qed.

(** X2.  [seedInvoices]: as for the customers; the inserts carry the customer
    reference, amount, status and date of each placeholder invoice, and no
    id. *)
Theorem seedInvoices_tries_every_row invoices e w :
  match SeedRoute.seedInvoices invoices e w with
  | (inl x, w1) =>
      exists code,
        x = SqlError (CREATE_TABLE Invoices) code
        /\ history w1 = history w ++ [Sql (CREATE_TABLE Invoices) (inl code)]
  | (inr res, w1) =>
      exists q evs,
        history w1 = history w ++ Sql (CREATE_TABLE Invoices) (inr q) :: evs
        /\ attempts evs = combine (map INSERT_INVOICE invoices) res
        /\ List.length res = List.length invoices
        /\ Forall (fun ev => row_event ev = true) evs
        /\ logged evs
  end.
Proof.
  pose proof (seed_step_rows Invoices
                (fun i => INSERT_INVOICE (mkInvoice (invoice_customer_id i) (invoice_amount i)
                                                    (invoice_status i) (invoice_date i)))
                (fun i => "Error inserting invoice for customer: "
                            +++ uuid_to_string (invoice_customer_id i))
                invoices e w (fun _ => eq_refl)) as H.
  replace (map (fun i => INSERT_INVOICE (mkInvoice (invoice_customer_id i) (invoice_amount i)
                                                   (invoice_status i) (invoice_date i)))
               invoices)
    with (map INSERT_INVOICE invoices) in H
    by (apply map_ext; intros [? ? ? ?]; reflexivity).
  exact H.
Qed.

(** X3.  [seedRevenue]: as for the customers, with one insert per placeholder
    month. *)
Theorem seedRevenue_tries_every_row revenue e w :
  match SeedRoute.seedRevenue revenue e w with
  | (inl x, w1) =>
      exists code,
        x = SqlError (CREATE_TABLE RevenueT) code
        /\ history w1 = history w ++ [Sql (CREATE_TABLE RevenueT) (inl code)]
  | (inr res, w1) =>
      exists q evs,
        history w1 = history w ++ Sql (CREATE_TABLE RevenueT) (inr q) :: evs
        /\ attempts evs = combine (map INSERT_REVENUE revenue) res
        /\ List.length res = List.length revenue
        /\ Forall (fun ev => row_event ev = true) evs
        /\ logged evs
  end.
Proof.
  pose proof (seed_step_rows RevenueT
                (fun r => INSERT_REVENUE (mkRevenue (rev_month r) (rev_revenue r)))
                (fun r => "Error inserting revenue for month: " +++ rev_month r)
                revenue e w (fun _ => eq_refl)) as H.
  replace (map (fun r => INSERT_REVENUE (mkRevenue (rev_month r) (rev_revenue r))) revenue)
    with (map INSERT_REVENUE revenue) in H
    by (apply map_ext; intros [? ?]; reflexivity).
  exact H.
Qed.


(** *** The users step *)

(** The hashes of a run in the order of the calls: plaintext, cost, outcome. *)
Definition hash_calls (evs : list event) : list (string * nat * option string) :=
  flat_map (fun ev => match ev with Hash p c r => [(p, c, r)] | _ => [] end) evs.

(** The insert that [seedUsers] sends for a placeholder user and a hash. *)
Definition user_insert (uh : User * string) : stmt :=
  INSERT_USER (mkUser (user_id (fst uh)) (user_name (fst uh)) (user_email (fst uh)) (snd uh)).

(** What the hashes of the users answer when they are called one after the
    other from the draw numbered [n] on. *)
Fixpoint hash_outcomes (e : env) (n : nat) (users : list User) : list (option string) :=
  match users with
  | [] => []
  | u :: us => bcrypt e n (user_password u) 10 :: hash_outcomes e (S n) us
  end.

Definition hash_event (uo : User * option string) : event :=
  Hash (user_password (fst uo)) 10 (snd uo).

(** What the callback of a user has in hand once its hash has settled. *)
Definition settled_user (uo : User * option string) : exn + guarded :=
  match snd uo with
  | Some h => inr (insert_of_user (fst uo) h)
  | None => inl (BcryptError (user_password (fst uo)))
  end.

Definition user_awaiting (user : User) : awaiting :=
  Await (bcrypt_hash (user_password user) 10)
        (fun hashedPassword => insert_of_user user hashedPassword).

Lemma seedUsers_awaiting users :
  SeedRoute.seedUsers users
  = (client_sql (CREATE_TABLE Users) ;;
     insertedUsers <- Promise_all_awaiting (map user_awaiting users) ;;
     ret insertedUsers)%js.
Proof. reflexivity. Qed.

Lemma hash_outcomes_length e n users :
  List.length (hash_outcomes e n users) = List.length users.
Proof. revert n. induction users as [|u us IH]; intros n; cbn; [|rewrite IH]; reflexivity. Qed.

Lemma hash_outcomes_nth e n users i u :
  nth_error users i = Some u ->
  nth_error (hash_outcomes e n users) i = Some (bcrypt e (n + i) (user_password u) 10).
Proof.
  revert n i. induction users as [|v us IH]; intros n [|i] H; try discriminate H.
  - injection H as ->. cbn. rewrite Nat.add_0_r. reflexivity.
  - cbn [hash_outcomes nth_error]. rewrite (IH (S n) i H), Nat.add_succ_r. reflexivity.
Qed.

(** The calls of the hashes: one per user, in the order of the list, each
    with a salt of its own, before anything else of the fan-out. *)
Lemma call_all_users users e w :
  call_all (map user_awaiting users) e w
  = (map settled_user (combine users (hash_outcomes e (salts w) users)),
     mkWorld (pg w) (uuids w) (salts w + List.length users) (issued w) (borrowed w)
             (history w ++ map hash_event (combine users (hash_outcomes e (salts w) users)))
             (pending w)).
Proof.
  revert w. induction users as [|u us IH]; intros w.
  - cbn. rewrite Nat.add_0_r, app_nil_r. destruct w; reflexivity.
  - cbn [map call_all user_awaiting awaited and_then hash_outcomes combine List.length].
    unfold bcrypt_hash at 1.
    destruct (bcrypt e (salts w) (user_password u) 10) as [h|] eqn:Eh;
      rewrite IH; cbn [salts pg uuids issued borrowed history pending];
      rewrite <- app_assoc, Nat.add_succ_r; unfold settled_user at 2, hash_event at 2;
      cbn [fst snd app]; reflexivity.
Qed.

(** Orders and maps. *)
Lemma insert_at_map {A B} (f : A -> B) k x l :
  insert_at k (f x) (map f l) = map f (insert_at k x l).
Proof.
  revert k. induction l as [|y l IH]; intros [|k]; cbn; try reflexivity.
  rewrite IH. reflexivity.
Qed.

Lemma reorder_map {A B} (f : A -> B) ks l : reorder ks (map f l) = map f (reorder ks l).
Proof.
  revert ks. induction l as [|x l IH]; intros ks; cbn [map reorder]; [reflexivity|].
  rewrite IH, insert_at_map. reflexivity.
Qed.

Lemma map_pair_combine {A B C D} (f : B -> C) (g : A -> D) (a : list A) (b : list B) :
  map (fun p => (f (snd p), g (fst p))) (combine a b) = combine (map f b) (map g a).
Proof.
  revert b. induction a as [|x a IH]; intros [|y b]; cbn; try reflexivity.
  rewrite IH. reflexivity.
Qed.

Lemma map_pair_self {A B C D} (f : B -> C) (g : A -> D) (l : list (A * B)) :
  map (fun p => (f (snd p), g (fst p))) l
  = combine (map (fun p => f (snd p)) l) (map g (map fst l)).
Proof. induction l as [|x l IH]; cbn; [|rewrite IH]; reflexivity. Qed.

(** The result of a callback is found under its number. *)
Lemma result_at_combine (ks : list nat) (outs : list (option QueryResult)) :
  NoDup ks -> List.length outs = List.length ks ->
  map (result_at (combine ks outs)) ks = outs.
Proof.
  revert outs. induction ks as [|k ks IH]; intros [|o outs] Hn Hl; try discriminate Hl.
  - reflexivity.
  - inversion Hn as [|? ? Hk Hn']; subst. cbn [combine map]. f_equal.
    + unfold result_at. cbn [find fst]. rewrite Nat.eqb_refl. reflexivity.
    + rewrite <- (IH outs Hn') at 2 by (cbn in Hl; lia).
      apply map_ext_in. intros i Hi. unfold result_at. cbn [find fst].
      destruct (Nat.eqb_spec k i) as [->|_]; [contradiction | reflexivity].
Qed.

(** A list of settled callbacks is all fulfilled, or has a first rejected
    one. *)
Lemma first_rejection (l : list (nat * (exn + guarded))) :
  (exists l', l = map (fun p => (fst p, inr (snd p))) l')
  \/ (exists pre i x post,
         l = map (fun p : nat * guarded => (fst p, inr (snd p))) pre ++ (i, inl x) :: post).
Proof.
  induction l as [|[i [x|c]] l IH].
  - left. exists []. reflexivity.
  - right. exists [], i, x, l. reflexivity.
  - destruct IH as [[l' ->]|[pre [j [x [post ->]]]]].
    + left. exists ((i, c) :: l'). reflexivity.
    + right. exists ((i, c) :: pre), j, x, post. reflexivity.
Qed.

(** The callbacks that resume before any rejection: each does its insert,
    whatever happened to the ones before. *)
Lemma complete_fulfilled (todo : list (nat * guarded)) rest e :
  Forall (fun p => is_insert (guarded_stmt (snd p)) = true) todo ->
  forall got w, exists outs evs w1,
    complete (map (fun p => (fst p, inr (snd p))) todo ++ rest) got e w
    = complete rest (got ++ combine (map fst todo) outs) e w1
    /\ List.length outs = List.length todo
    /\ history w1 = history w ++ evs
    /\ attempts evs = combine (map (fun p => guarded_stmt (snd p)) todo) outs
    /\ Forall (fun ev => row_event ev = true) evs
    /\ logged evs
    /\ pending w1 = pending w.
Proof.
  induction todo as [|[i c] todo IH]; intros Hins got w.
  - exists [], [], w. cbn. rewrite !app_nil_r.
    repeat split; try reflexivity; [constructor | intros s c []].
  - inversion Hins as [|? ? Hi Hins']; subst. cbn [snd] in Hi.
    cbn [map app complete fst snd]. rewrite bind_run, run_guarded_run.
    destruct (client_sql_run (guarded_stmt c) e w) as [r [d [_ Hc]]]. rewrite Hc.
    destruct r as [code|q]; cbn [raised];
      match goal with
      | |- context [complete _ ?g e ?w0] =>
          destruct (IH Hins' g w0) as [outs [evs [w1 [Hr [Hl [Hh [Ha [Hf [Hlg Hp]]]]]]]]]
      end.
    + exists (None :: outs),
             (Sql (guarded_stmt c) (inl code)
                  :: ConsoleError (guarded_msg c) (SqlError (guarded_stmt c) code) :: evs), w1.
      split; [rewrite Hr; cbn [combine map]; rewrite <- app_assoc; reflexivity|].
      split; [cbn; rewrite Hl; reflexivity|]. split.
      { rewrite Hh. unfold log. cbn [history]. rewrite <- !app_assoc. reflexivity. }
      split.
      { cbn [attempts flat_map]. rewrite Hi. cbn [app combine map].
        fold (attempts evs). rewrite Ha. reflexivity. }
      split.
      { constructor; [cbn; exact Hi|]. constructor; [cbn; exact Hi | exact Hf]. }
      split; [|rewrite Hp; reflexivity].
      change (Sql (guarded_stmt c) (inl code)
                  :: ConsoleError (guarded_msg c) (SqlError (guarded_stmt c) code) :: evs)
        with (([] ++ [Sql (guarded_stmt c) (inl code)])
                ++ [ConsoleError (guarded_msg c) (SqlError (guarded_stmt c) code)] ++ evs).
      rewrite app_assoc. apply logged_app; [|exact Hlg].
      apply (logged_caught [] (guarded_stmt c) code (guarded_msg c)). intros s c0 [].
    + exists (Some q :: outs), (Sql (guarded_stmt c) (inr q) :: evs), w1.
      split; [rewrite Hr; cbn [combine map]; rewrite <- app_assoc; reflexivity|].
      split; [cbn; rewrite Hl; reflexivity|]. split.
      { rewrite Hh. cbn [history]. rewrite <- !app_assoc. reflexivity. }
      split.
      { cbn [attempts flat_map]. rewrite Hi. cbn [app combine map].
        fold (attempts evs). rewrite Ha. reflexivity. }
      split; [constructor; [cbn; exact Hi | exact Hf]|].
      split; [|rewrite Hp; reflexivity].
      change (Sql (guarded_stmt c) (inr q) :: evs) with ([Sql (guarded_stmt c) (inr q)] ++ evs).
      apply logged_app; [|exact Hlg]. intros s c0 [Hin|[]]. discriminate Hin.
Qed.

Lemma settled_user_callbacks users e (outs : list (option string)) :
  forall n, outs = hash_outcomes e n users ->
  Forall (fun r => match r with
                   | inr c => user_callback users e c
                   | inl x => exists u, In u users /\ x = BcryptError (user_password u)
                                        /\ In (hash_event (u, None)) (map hash_event (combine users outs))
                   end)
         (map settled_user (combine users outs)).
Proof.
  intros n ->.
  enough (G : forall us k,
             incl us users ->
             Forall (fun r => match r with
                              | inr c => user_callback users e c
                              | inl x => exists u, In u users /\ x = BcryptError (user_password u)
                                                   /\ In (hash_event (u, None))
                                                         (map hash_event
                                                              (combine us (hash_outcomes e k us)))
                              end)
                    (map settled_user (combine us (hash_outcomes e k us))))
    by (apply G; apply incl_refl).
  induction us as [|u us IH]; intros k Hin; [constructor|].
  cbn [hash_outcomes combine map].
  assert (Hu : In u users) by (apply Hin; left; reflexivity).
  assert (Hus : incl us users) by (intros a Ha; apply Hin; right; exact Ha).
  constructor.
  - unfold settled_user. cbn [fst snd].
    destruct (bcrypt e k (user_password u) 10) as [h|] eqn:Eh.
    + exists u, k, h. auto.
    + exists u. split; [exact Hu|]. split; [reflexivity|]. left. reflexivity.
  - specialize (IH (S k) Hus). revert IH. apply Forall_impl.
    intros [x|c] H; [|exact H]. destruct H as [v [Hv [Hx Hi]]].
    exists v. split; [exact Hv|]. split; [exact Hx|]. right. exact Hi.
Qed.

Lemma settled_some users (hs : list string) :
  map settled_user (combine users (map Some hs))
  = map inr (map (fun uh : User * string => insert_of_user (fst uh) (snd uh))
                 (combine users hs)).
Proof.
  revert hs. induction users as [|u us IH]; intros [|h hs]; cbn; try reflexivity.
  rewrite IH. reflexivity.
Qed.

Lemma hash_event_some users (hs : list string) :
  map hash_event (combine users (map Some hs))
  = map (fun uh : User * string => Hash (user_password (fst uh)) 10 (Some (snd uh)))
        (combine users hs).
Proof.
  revert hs. induction users as [|u us IH]; intros [|h hs]; cbn; try reflexivity.
  rewrite IH. reflexivity.
Qed.

Lemma combine_map_r {A B C} (f : B -> C) (a : list A) (b : list B) :
  combine a (map f b) = map (fun p => (fst p, f (snd p))) (combine a b).
Proof.
  revert b. induction a as [|x a IH]; intros [|y b]; cbn; try reflexivity.
  rewrite IH. reflexivity.
Qed.

Lemma fulfilled_inj (l l' : list (nat * guarded)) :
  map (fun p => (fst p, inr (snd p) : exn + guarded)) l
  = map (fun p => (fst p, inr (snd p) : exn + guarded)) l' ->
  l = l'.
Proof.
  revert l'. induction l as [|[i c] l IH]; intros [|[j d] l'] E; try discriminate E;
    [reflexivity|].
  cbn in E. injection E as -> -> E. f_equal. apply IH. exact E.
Qed.

Lemma map_fst_combine_seq {A} (l : list A) k :
  map fst (combine (seq k (List.length l)) l) = seq k (List.length l).
Proof.
  revert k. induction l as [|x l IH]; intros k; [reflexivity|].
  cbn [List.length seq combine map fst]. f_equal. apply IH.
Qed.

Lemma nth_error_outcomes e users k u n :
  nth_error users k = Some u ->
  nth_error (hash_outcomes e n users) k = Some None ->
  nth_error (combine users (hash_outcomes e n users)) k = Some (u, None).
Proof.
  revert n k. induction users as [|v us IH]; intros m [|k] Eu Hk; try discriminate Eu.
  - cbn in *. injection Eu as ->. injection Hk as ->. reflexivity.
  - cbn [hash_outcomes combine nth_error] in *. exact (IH (S m) k Eu Hk).
Qed.


(** ** The seeding handler as a whole *)

(** The statements the handler sends between BEGIN and COMMIT, for given
    placeholder data: the five DDL statements and one insert per row, the
    users' with some hash in place of the password. *)
Inductive sent (users : list User) (customers : list Customer) (invoices : list Invoice)
          (revenue : list Revenue) : stmt -> Prop :=
| sent_extension : sent users customers invoices revenue CREATE_EXTENSION
| sent_table tb : sent users customers invoices revenue (CREATE_TABLE tb)
| sent_user u h :
    In u users ->
    sent users customers invoices revenue
         (INSERT_USER (mkUser (user_id u) (user_name u) (user_email u) h))
| sent_customer c :
    In c customers ->
    sent users customers invoices revenue
         (INSERT_CUSTOMER (mkCustomer (customer_id c) (customer_name c) (customer_email c)
                                      (customer_image_url c)))
| sent_invoice i :
    In i invoices ->
    sent users customers invoices revenue
         (INSERT_INVOICE (mkInvoice (invoice_customer_id i) (invoice_amount i)
                                    (invoice_status i) (invoice_date i)))
| sent_revenue r :
    In r revenue ->
    sent users customers invoices revenue
         (INSERT_REVENUE (mkRevenue (rev_month r) (rev_revenue r))).

Lemma sent_callback users customers invoices revenue e c :
  user_callback users e c -> sent users customers invoices revenue (guarded_stmt c).
Proof. intros [u [n [h [Hu [_ ->]]]]]. apply sent_user. exact Hu. Qed.

(** A property [J] of the world that an accepted BEGIN establishes and every
    operation of the handler keeps holds when COMMIT is sent; a property [T]
    that follows from it, and that a refused BEGIN or COMMIT establishes,
    holds when ROLLBACK is sent. *)
Section Invariant.

Variable users : list User.
Variable customers : list Customer.
Variable invoices : list Invoice.
Variable revenue : list Revenue.
Variable e : env.

Variable P0 : world -> Prop.
Variable J : world -> Prop.
Variable T : world -> Prop.
Variable Kc : world -> Prop.
Variable Kr : world -> Prop.
Variable Kt : world -> Prop.

Hypothesis J_begin : forall w, P0 w ->
  match client_sql BEGIN e w with
  | (inr _, w1) => J w1
  | (inl _, w1) => T w1
  end.
Hypothesis J_statement : forall s w,
  sent users customers invoices revenue s -> J w -> J (snd (client_sql s e w)).
Hypothesis J_hash : forall p w, J w -> J (snd (bcrypt_hash p 10 e w)).
Hypothesis J_console : forall msg x w, J w -> J (log (ConsoleError msg x) w).
Hypothesis J_thrown : forall cs w,
  Forall (user_callback users e) cs -> J w -> T (leave_running cs w).
Hypothesis J_commit : forall w, J w ->
  match client_sql COMMIT e w with
  | (inr _, w1) => Kc w1
  | (inl _, w1) => T w1
  end.
Hypothesis T_rollback : forall x w, T w ->
  match client_sql ROLLBACK e w with
  | (inr _, w1) => Kr (log (ConsoleError "Error during database seeding:" x) w1)
  | (inl _, w1) => Kt w1
  end.

Let inv (p : phase) : world -> Prop :=
  match p with
  | PCommit => Kc
  | _ => J
  end.

Lemma J_left w : J w -> T w.
Proof.
  intros H. pose proof (J_thrown [] w (Forall_nil _) H) as H1.
  unfold leave_running in H1. rewrite app_nil_r in H1. destruct w. exact H1.
Qed.

Lemma inv_ddl s p q :
  sent users customers invoices revenue s -> p <> PCommit -> q <> PCommit ->
  triple e (inv p) (client_sql s) (fun _ => inv q) (fun _ => T).
Proof.
  intros Hs Hp Hq w Hw.
  assert (Hw' : J w) by (destruct p; try exact Hw; congruence).
  pose proof (J_statement s w Hs Hw') as H.
  destruct (client_sql s e w) as [[x|res] w1]; cbn [snd] in H; [exact (J_left _ H)|].
  destruct q; try exact H; congruence.
Qed.

Lemma inv_row s p msg :
  sent users customers invoices revenue s -> p <> PCommit ->
  forall w, inv p w ->
    match client_sql s e w with
    | (inr _, w1) => inv p w1
    | (inl x, w1) => inv p (log (ConsoleError msg x) w1)
    end.
Proof.
  intros Hs Hp w Hw.
  assert (Hw' : J w) by (destruct p; try exact Hw; congruence).
  pose proof (J_statement s w Hs Hw') as H.
  destruct (client_sql s e w) as [[x|res] w1]; cbn [snd] in H.
  - pose proof (J_console msg x w1 H) as H1. destruct p; try exact H1; congruence.
  - destruct p; try exact H; congruence.
Qed.

Lemma GET_invariant w :
  P0 w ->
  match SeedRoute.GET users customers invoices revenue e w with
  | (r, w1) =>
      (r = inr seeded /\ Kc w1)
      \/ (r = inr seeding_failed /\ Kr w1)
      \/ (exists y, r = inl y /\ Kt w1)
  end.
Proof.
  intros Hw.
  assert (H : match SeedRoute.GET users customers invoices revenue e w with
              | (r, w1) =>
                  (r = inr seeded /\ inv PCommit w1)
                  \/ (r = inr seeding_failed /\ exists x : exn, Kr w1)
                  \/ (exists x y : exn, r = inl y /\ Kt w1)
              end).
  { apply (GET_flow users customers invoices revenue e P0 inv (fun _ => J) (fun _ => T)
                    (fun _ => Kr) (fun _ _ => Kt));
      try exact Hw;
      try (apply inv_ddl; [constructor | discriminate | discriminate]);
      try (intros; apply inv_row; [constructor; assumption | discriminate | assumption]).
    - intros w0 Hw0. pose proof (J_begin w0 Hw0) as H.
      destruct (client_sql BEGIN e w0) as [[x|q] w1]; exact H.
    - intros u Hu w0 Hw0. pose proof (J_hash (user_password u) w0 Hw0) as H.
      destruct (bcrypt_hash (user_password u) 10 e w0) as [[x|h] w1]; exact H.
    - intros u Hu xs w0 Hw0. pose proof (J_hash (user_password u) w0 Hw0) as H.
      destruct (bcrypt_hash (user_password u) 10 e w0) as [[x|h] w1]; exact H.
    - intros c Hc. apply (inv_row _ PUsers); [|discriminate].
      exact (sent_callback users customers invoices revenue e c Hc).
    - intros c Hc xs. apply (inv_row _ PUsers); [|discriminate].
      exact (sent_callback users customers invoices revenue e c Hc).
    - intros x xs cs w0 _ Hcs Hw0. exact (J_thrown cs w0 Hcs Hw0).
    - intros w0 Hw0. pose proof (J_commit w0 Hw0) as H.
      destruct (client_sql COMMIT e w0) as [[x|q] w1]; exact H.
    - intros x w0 Hw0. pose proof (T_rollback x w0 Hw0) as H.
      destruct (client_sql ROLLBACK e w0) as [[y|q] w1]; exact H. }
  destruct (SeedRoute.GET users customers invoices revenue e w) as [r w1].
  destruct H as [[Hr Hk]|[[Hr [_ Hk]]|[_ [y [Hr Hk]]]]]; eauto.
Qed.

End Invariant.

(** The same for a property of the database session alone, which hashing and
    logging do not touch. *)
Section SessionInvariant.

Variable users : list User.
Variable customers : list Customer.
Variable invoices : list Invoice.
Variable revenue : list Revenue.
Variable e : env.

Variable P : session -> Prop.
Variable J : session -> Prop.
Variable T : session -> Prop.
Variable K : session -> Prop.

Hypothesis P_begin : forall fault fresh d r d1,
  P d -> exec (mode e) BEGIN fault None fresh d = (r, d1) ->
  match r with inr _ => J d1 | inl _ => T d1 end.
Hypothesis J_exec : forall s fault fresh d r d1,
  sent users customers invoices revenue s -> J d ->
  exec (mode e) s fault (bind_error (date_error e) s) fresh d = (r, d1) -> J d1.
Hypothesis J_thrown : forall d, J d -> T d.
Hypothesis J_commit : forall fault fresh d r d1,
  J d -> exec (mode e) COMMIT fault None fresh d = (r, d1) ->
  match r with inr _ => K d1 | inl _ => T d1 end.
Hypothesis T_rollback : forall fault fresh d r d1,
  T d -> exec (mode e) ROLLBACK fault None fresh d = (r, d1) -> K d1.

Lemma GET_session w :
  P (pg w) ->
  K (pg (snd (SeedRoute.GET users customers invoices revenue e w))).
Proof.
  intros Hw.
  pose proof (GET_invariant users customers invoices revenue e
                (fun w => P (pg w)) (fun w => J (pg w)) (fun w => T (pg w))
                (fun w => K (pg w)) (fun w => K (pg w)) (fun w => K (pg w))) as H.
  assert (G : match SeedRoute.GET users customers invoices revenue e w with
              | (r, w1) =>
                  (r = inr seeded /\ K (pg w1))
                  \/ (r = inr seeding_failed /\ K (pg w1))
                  \/ (exists y, r = inl y /\ K (pg w1))
              end).
  { apply H; try exact Hw.
    - intros w0 Hw0. destruct (client_sql_run BEGIN e w0) as [r [d [He ->]]].
      pose proof (P_begin _ _ _ _ _ Hw0 He) as Hb. destruct r; exact Hb.
    - intros s w0 Hs Hw0. destruct (client_sql_run s e w0) as [r [d [He ->]]].
      exact (J_exec _ _ _ _ _ _ Hs Hw0 He).
    - intros p w0 Hw0. unfold bcrypt_hash.
      destruct (bcrypt e (salts w0) p 10); exact Hw0.
    - intros msg x w0 Hw0. exact Hw0.
    - intros cs w0 _ Hw0. exact (J_thrown _ Hw0).
    - intros w0 Hw0. destruct (client_sql_run COMMIT e w0) as [r [d [He ->]]].
      pose proof (J_commit _ _ _ _ _ Hw0 He) as Hc. destruct r; exact Hc.
    - intros x w0 Hw0. destruct (client_sql_run ROLLBACK e w0) as [r [d [He ->]]].
      pose proof (T_rollback _ _ _ _ _ Hw0 He) as Hr. destruct r; exact Hr. }
  destruct (SeedRoute.GET users customers invoices revenue e w) as [r w1].
  cbn [snd]. destruct G as [[_ G]|[[_ G]|[_ [_ G]]]]; exact G.
Qed.

End SessionInvariant.

Lemma sent_not_control users customers invoices revenue s :
  sent users customers invoices revenue s -> s <> COMMIT /\ s <> ROLLBACK /\ s <> BEGIN.
Proof. intros H. destruct H; repeat split; discriminate. Qed.

Lemma block_saved d : tx d <> Idle -> exists t, (tx d = InTx t \/ tx d = Failed t) /\ committed d = t.
Proof.
  unfold committed. destruct (tx d) as [|t|t]; [congruence| |]; intros _; exists t; auto.
Qed.

(** X6.  [GET] of the seeding route never removes, reorders or alters a row that
    was in the database before: in each of the four tables the rows it leaves
    start with the rows that were there.  (For invoices: up to the generated
    id.) *)
Theorem seed_keeps_existing_rows users customers invoices revenue e w :
  tx (pg w) = Idle ->
  exists extra,
    contents (store (pg (snd (SeedRoute.GET users customers invoices revenue e w))))
    = rows_app (contents (store (pg w))) extra.
Proof.
  intros Ht.
  apply (GET_session users customers invoices revenue e
           (fun d => tx d = Idle /\ store d = store (pg w))
           (fun d => tx d <> Idle /\ committed d = store (pg w)
                     /\ exists extra,
                         contents (store d) = rows_app (contents (store (pg w))) extra)
           (fun d => committed d = store (pg w)
                     /\ exists extra,
                         contents (store d) = rows_app (contents (store (pg w))) extra)
           (fun d => exists extra,
                       contents (store d) = rows_app (contents (store (pg w))) extra)).
  - intros fault fresh d r d1 [Hi Hs] He.
    destruct (exec_begin_idle _ _ _ _ _ _ _ He Hi) as [Hok Hbad].
    destruct r as [code|q].
    + rewrite (Hbad code eq_refl). split; [unfold committed; rewrite Hi; exact Hs|].
      exists ([], [], [], []). rewrite rows_app_nil, Hs. reflexivity.
    + destruct (Hok q eq_refl) as [_ [Ht1 Hs1]].
      split; [congruence|]. split; [unfold committed; rewrite Ht1; exact Hs|].
      exists ([], [], [], []). rewrite rows_app_nil, Hs1, Hs. reflexivity.
  - intros s fault fresh d r d1 Hs [Hi [Hc [extra Hx]]] He.
    destruct (sent_not_control _ _ _ _ _ Hs) as [N1 [N2 _]].
    destruct (exec_inside _ _ _ _ _ _ _ _ He N1 N2 Hi) as [Hi1 Hc1].
    split; [exact Hi1|]. split; [congruence|].
    destruct (exec_cases _ _ _ _ _ _ _ _ He) as [[E|[E|[q [_ [_ E]]]]] _].
    + exists extra. rewrite E. exact Hx.
    + exists ([], [], [], []). rewrite rows_app_nil, E, Hc. reflexivity.
    + exists (rows_app extra (inserted [Sql s (inr q)])).
      rewrite (run_contents _ _ _ _ _ E), Hx, rows_app_assoc. reflexivity.
  - intros d [_ H]. exact H.
  - intros fault fresh d r d1 [Hi [Hc [extra Hx]]] He.
    destruct (exec_cases _ _ _ _ _ _ _ _ He) as [[E|[E|[q [_ [_ E]]]]] _].
    + destruct r as [code|q].
      * split; [|exists extra; rewrite E; exact Hx].
        destruct (exec_commit _ _ _ _ _ _ _ He) as [_ Hbad].
        destruct (Hbad code eq_refl) as [Hc1 _]. congruence.
      * exists extra. rewrite E. exact Hx.
    + destruct r as [code|q].
      * split; [|exists ([], [], [], []); rewrite rows_app_nil, E, Hc; reflexivity].
        destruct (exec_commit _ _ _ _ _ _ _ He) as [_ Hbad].
        destruct (Hbad code eq_refl) as [Hc1 _]. congruence.
      * exists ([], [], [], []). rewrite rows_app_nil, E, Hc. reflexivity.
    + cbn in E. injection E as E _. destruct r as [code|q0].
      * split; [|exists extra; rewrite <- E; exact Hx].
        destruct (exec_commit _ _ _ _ _ _ _ He) as [_ Hbad].
        destruct (Hbad code eq_refl) as [Hc1 _]. congruence.
      * exists extra. rewrite <- E. exact Hx.
  - intros fault fresh d r d1 [Hc [extra Hx]] He.
    destruct (exec_cases _ _ _ _ _ _ _ _ He) as [[E|[E|[q [_ [_ E]]]]] _].
    + exists extra. rewrite E. exact Hx.
    + exists ([], [], [], []). rewrite rows_app_nil, E, Hc. reflexivity.
    + cbn in E. injection E as E _. exists extra. rewrite <- E. exact Hx.
  - split; [exact Ht | reflexivity].
Qed.

Lemma seed_keeps_existing_rows_witness :
  tx (pg (snd first_run)) = Idle
  /\ exists extra,
      contents (store (pg (snd (SeedRoute.GET sample_users sample_customers sample_invoices
                                              sample_revenue postgres (snd first_run)))))
      = rows_app (contents (store (pg (snd first_run)))) extra.
Proof.
  split; [reflexivity|]. apply seed_keeps_existing_rows. reflexivity.
Defined.

(** X5.  [GET] of the seeding route ends in one of three ways, whatever the
    session was in when the handler started.  It answers with the success
    response after an accepted COMMIT, or with the failure response after an
    accepted ROLLBACK, and in both cases leaves no transaction block open on
    the module's client.  Or the ROLLBACK it sends from its [catch] fails:
    then it throws the error of that ROLLBACK, which is the last thing the
    run did, and gives no response of its own. *)
Theorem seed_ends_transaction users customers invoices revenue e w :
  match SeedRoute.GET users customers invoices revenue e w with
  | (inr resp, w1) =>
      tx (pg w1) = Idle
      /\ ((resp = seeded
           /\ exists pre q, history w1 = history w ++ pre ++ [Sql COMMIT (inr q)])
          \/ (resp = seeding_failed
              /\ exists pre x,
                  history w1
                  = history w ++ pre ++ [Sql ROLLBACK (inr (done 0));
                                         ConsoleError seeding_log x]))
  | (inl y, w1) =>
      exists pre code,
        y = SqlError ROLLBACK code
        /\ history w1 = history w ++ pre ++ [Sql ROLLBACK (inl code)]
  end.
Proof.
  assert (H : match SeedRoute.GET users customers invoices revenue e w with
              | (r, w1) =>
                  (r = inr seeded
                   /\ tx (pg w1) = Idle
                   /\ exists pre q, history w1 = history w ++ pre ++ [Sql COMMIT (inr q)])
                  \/ (r = inr seeding_failed
                      /\ exists x : exn,
                          tx (pg w1) = Idle
                          /\ exists pre,
                              history w1
                              = history w ++ pre ++ [Sql ROLLBACK (inr (done 0));
                                                     ConsoleError seeding_log x])
                  \/ (exists x y : exn,
                         r = inl y
                         /\ exists pre code,
                             y = SqlError ROLLBACK code
                             /\ history w1 = history w ++ pre ++ [Sql ROLLBACK (inl code)])
              end).
  { set (going := fun w1 : world => exists pre, history w1 = history w ++ pre).
    assert (Hlog : forall ev w0, going w0 -> going (log ev w0)).
    { intros ev w0 [pre Hp]. exists (pre ++ [ev]). unfold log. cbn [history].
      rewrite Hp, app_assoc. reflexivity. }
    assert (Hsql : forall s w0, going w0 ->
               match client_sql s e w0 with
               | (inr _, w1) => going w1
               | (inl x, w1) => going w1 /\ forall msg, going (log (ConsoleError msg x) w1)
               end).
    { intros s w0 [pre Hp]. destruct (client_sql_run s e w0) as [r [d [_ ->]]].
      assert (G : going (mkWorld d (match s with INSERT_INVOICE _ => S (uuids w0)
                                            | _ => uuids w0 end)
                                 (salts w0) (S (issued w0)) (borrowed w0)
                                 (history w0 ++ [Sql s r]) (pending w0))).
      { exists (pre ++ [Sql s r]). cbn [history]. rewrite Hp, app_assoc. reflexivity. }
      destruct r as [code|q]; cbn [raised]; [|exact G].
      split; [exact G|]. intros msg. apply Hlog. exact G. }
    assert (Hhash : forall p w0, going w0 -> going (snd (bcrypt_hash p 10 e w0))).
    { intros p w0 [pre Hp]. unfold bcrypt_hash.
      destruct (bcrypt e (salts w0) p 10) as [h|]; cbn [snd];
        eexists; cbn [history]; rewrite Hp, <- app_assoc; reflexivity. }
    apply (GET_flow users customers invoices revenue e
             (fun w0 => history w0 = history w)
             (fun p w1 =>
                match p with
                | PCommit =>
                    tx (pg w1) = Idle
                    /\ exists pre q, history w1 = history w ++ pre ++ [Sql COMMIT (inr q)]
                | _ => going w1
                end)
             (fun _ => going) (fun _ => going)
             (fun x w1 =>
                tx (pg w1) = Idle
                /\ exists pre,
                    history w1 = history w ++ pre ++ [Sql ROLLBACK (inr (done 0));
                                                      ConsoleError seeding_log x])
             (fun _ y w1 =>
                exists pre code,
                  y = SqlError ROLLBACK code
                  /\ history w1 = history w ++ pre ++ [Sql ROLLBACK (inl code)]));
      try reflexivity;
      try (intros w0 Hw0;
           match goal with
           | |- context [client_sql ?s e w0] =>
               pose proof (Hsql s w0 Hw0) as H;
               destruct (client_sql s e w0) as [[x|q] w1]; [exact (proj1 H) | exact H]
           end);
      try (intros ? _ w0 Hw0;
           match goal with
           | |- context [client_sql ?s e w0] =>
               pose proof (Hsql s w0 Hw0) as H;
               destruct (client_sql s e w0) as [[x|q] w1]; [apply (proj2 H) | exact H]
           end).
    - intros w0 Hw0. assert (G : going w0) by (exists []; rewrite app_nil_r; exact Hw0).
      pose proof (Hsql BEGIN w0 G) as H.
      destruct (client_sql BEGIN e w0) as [[x|q] w1]; [exact (proj1 H) | exact H].
    - intros u _ w0 Hw0. pose proof (Hhash (user_password u) w0 Hw0) as H.
      destruct (bcrypt_hash (user_password u) 10 e w0) as [[x|h] w1]; exact H.
    - intros u _ xs w0 Hw0. pose proof (Hhash (user_password u) w0 Hw0) as H.
      destruct (bcrypt_hash (user_password u) 10 e w0) as [[x|h] w1]; exact H.
    - intros c _ xs w0 Hw0. pose proof (Hsql (guarded_stmt c) w0 Hw0) as H.
      destruct (client_sql _ e w0) as [[x|q] w1]; [apply (proj2 H) | exact H].
    - intros x xs cs w0 _ _ Hw0. exact Hw0.
    - intros w0 [pre Hp]. destruct (client_sql_run COMMIT e w0) as [r [d [He ->]]].
      destruct (exec_commit _ _ _ _ _ _ _ He) as [Hok _].
      destruct r as [code|q]; cbn [raised].
      + exists (pre ++ [Sql COMMIT (inl code)]). cbn [history].
        rewrite Hp, app_assoc. reflexivity.
      + split; [exact (proj2 (Hok q eq_refl))|]. exists pre, q. cbn [history].
        rewrite Hp, app_assoc. reflexivity.
    - intros x w0 [pre Hp]. destruct (client_sql_run ROLLBACK e w0) as [r [d [He ->]]].
      destruct (exec_rollback _ _ _ _ _ _ _ He) as [_ Hok].
      destruct r as [code|q]; cbn [raised].
      + exists pre, code. split; [reflexivity|]. cbn [history].
        rewrite Hp, app_assoc. reflexivity.
      + destruct (Hok q eq_refl) as [-> [Ht _]]. split; [exact Ht|].
        exists pre. unfold log. cbn [history]. rewrite Hp, <- !app_assoc. reflexivity. }
  destruct (SeedRoute.GET users customers invoices revenue e w) as [[y|resp] w1].
  - destruct H as [[Hr _]|[[Hr _]|[x [y0 [Hr H]]]]]; try discriminate Hr.
    injection Hr as ->. exact H.
  - destruct H as [[Hr [Ht Hh]]|[[Hr [x [Ht [pre Hh]]]]|[x [y0 [Hr _]]]]]; try discriminate Hr.
    + injection Hr as ->. split; [exact Ht|]. left. split; [reflexivity | exact Hh].
    + injection Hr as ->. split; [exact Ht|]. right. split; [reflexivity|]. eauto.
Qed.

(** ** The schema after a seed *)

Definition exists_t {A} (o : option (list A)) : bool :=
  match o with Some _ => true | None => false end.

(** The extension and the four relations are there. *)
Definition schema_ready (t : tables) : bool :=
  uuid_ossp t && exists_t (users_t t) && exists_t (customers_t t)
  && exists_t (invoices_t t) && exists_t (revenue_t t).

(** What is there once step [p] has created its object. *)
Definition ready (p : phase) (t : tables) : bool :=
  implb (1 <=? rank p) (uuid_ossp t)
  && implb (2 <=? rank p) (exists_t (users_t t))
  && implb (3 <=? rank p) (exists_t (customers_t t))
  && implb (4 <=? rank p) (exists_t (invoices_t t))
  && implb (5 <=? rank p) (exists_t (revenue_t t)).

Lemma run_ready s fresh t t1 r p q :
  run s fresh t = inr (t1, r) ->
  is_control s = false ->
  statement_phase s = Some q ->
  q = p \/ rank q = S (rank p) ->
  ready p t = true -> ready q t1 = true.
Proof.
  intros H Hc Hq Hpq Hr. destruct t as [ext us cs invs rs].
  destruct s as [| | | |tb|u|c|i|rv|]; try discriminate Hc; try discriminate Hq;
    try destruct tb; injection Hq as <-;
    destruct p; try (exfalso; destruct Hpq as [Hpq|Hpq]; discriminate Hpq);
    destruct ext, us, cs, invs, rs; try discriminate Hr;
    cbn -[fit int4 existsb] in H;
    repeat match type of H with
           | context [match ?o with Some _ => _ | None => _ end] =>
               destruct o; cbn -[fit int4 existsb] in H
           | context [if ?b then _ else _] => destruct b; cbn -[fit int4 existsb] in H
           end;
    try discriminate H; injection H as <- <-; reflexivity.
Qed.

Section Schema.

Variable users : list User.
Variable customers : list Customer.
Variable invoices : list Invoice.
Variable revenue : list Revenue.
Variable e : env.
Variable h0 : list event.

(** The block is open, or an insert has failed on a server that aborts the
    transaction then. *)
Let running (evs : list event) (d : session) : Prop :=
  (exists t, tx d = InTx t)
  \/ (exists t, tx d = Failed t) /\ mode e = AbortTransaction
     /\ existsb failed_insert evs = true.

Let building (p : phase) (w : world) : Prop :=
  ready p (store (pg w)) = true
  /\ exists evs, history w = h0 ++ evs /\ running evs (pg w).

Let built (p : phase) (w : world) : Prop :=
  match p with
  | PCommit =>
      tx (pg w) = Idle
      /\ exists evs,
          history w = h0 ++ evs
          /\ (schema_ready (store (pg w)) = true
              \/ mode e = AbortTransaction /\ existsb failed_insert evs = true)
  | _ => building p w
  end.

Lemma running_more evs more d : running evs d -> running (evs ++ more) d.
Proof.
  intros [H|[H1 [H2 H3]]]; [left; exact H|right].
  split; [exact H1|]. split; [exact H2|]. rewrite existsb_app, H3. reflexivity.
Qed.

Lemma building_statement s p q w :
  is_control s = false -> statement_phase s = Some q -> q = p \/ rank q = S (rank p) ->
  building p w ->
  match client_sql s e w with
  | (inr _, w1) => building q w1
  | (inl _, w1) => is_insert s = true -> building p w1
  end.
Proof.
  intros Hc Hq Hpq [Hr [evs [Hh Hb]]].
  assert (N : s <> COMMIT /\ s <> ROLLBACK)
    by (split; intros ->; discriminate Hc).
  destruct (client_sql_run s e w) as [r [d [He ->]]].
  destruct Hb as [[t Ht]|[[t Ht] [Hm Hf]]].
  - destruct (exec_in_block _ _ _ _ _ _ _ _ _ He Hc Ht)
      as [[[code ->] [Hs Hx]]|[q0 [-> [Ht1 [_ [_ Hrun]]]]]]; cbn [raised].
    + intros Hi. split; [cbn [pg]; rewrite Hs; exact Hr|].
      exists (evs ++ [Sql s (inl code)]). cbn [history pg].
      rewrite Hh, app_assoc. split; [reflexivity|].
      destruct Hx as [[Hx _]|[Hx Hm]]; [left; eexists; exact Hx|right].
      split; [eexists; exact Hx|]. split; [exact Hm|].
      rewrite existsb_app. cbn [existsb failed_insert]. rewrite Hi.
      apply Bool.orb_true_iff. right. reflexivity.
    + split; [cbn [pg]; exact (run_ready _ _ _ _ _ _ _ Hrun Hc Hq Hpq Hr)|].
      exists (evs ++ [Sql s (inr q0)]). cbn [history pg].
      rewrite Hh, app_assoc. split; [reflexivity|]. left. eexists; exact Ht1.
  - destruct N as [N1 N2].
    destruct (exec_failed _ _ _ _ _ _ _ _ _ He N1 N2 Ht) as [[code ->] ->]. cbn [raised].
    intros Hi. split; [exact Hr|].
    exists (evs ++ [Sql s (inl code)]). cbn [history pg].
    rewrite Hh, app_assoc. split; [reflexivity|].
    apply running_more. right. split; [eexists; exact Ht|]. auto.
Qed.

Lemma building_quiet p w w1 ev :
  building p w -> history w1 = history w ++ [ev] -> pg w1 = pg w -> building p w1.
Proof.
  intros [Hr [evs [Hh Hb]]] Hh1 Hp. split; [rewrite Hp; exact Hr|].
  exists (evs ++ [ev]). rewrite Hh1, Hh, app_assoc. split; [reflexivity|].
  rewrite Hp. apply running_more. exact Hb.
Qed.

Lemma built_ddl s p q :
  is_ddl s = true -> statement_phase s = Some q -> rank q = S (rank p) ->
  p <> PCommit -> q <> PCommit ->
  triple e (built p) (client_sql s) (fun _ => built q) (fun _ _ => True).
Proof.
  intros Hd Hq Hpq Hp Hn w Hw.
  assert (Hw' : building p w) by (destruct p; try exact Hw; congruence).
  pose proof (building_statement s p q w ltac:(destruct s; try discriminate Hd; reflexivity)
                Hq (or_intror Hpq) Hw') as H.
  destruct (client_sql s e w) as [[x|res] w1]; [exact I|].
  destruct q; try exact H; congruence.
Qed.

Lemma built_row s p msg :
  is_insert s = true -> statement_phase s = Some p -> p <> PCommit ->
  forall w, built p w ->
    match client_sql s e w with
    | (inr _, w1) => built p w1
    | (inl x, w1) => built p (log (ConsoleError msg x) w1)
    end.
Proof.
  intros Hs Hq Hp w Hw.
  assert (Hw' : building p w) by (destruct p; try exact Hw; congruence).
  pose proof (building_statement s p p w ltac:(destruct s; try discriminate Hs; reflexivity)
                Hq (or_introl eq_refl) Hw') as H.
  destruct (client_sql s e w) as [[x|res] w1].
  - assert (H1 : building p (log (ConsoleError msg x) w1))
      by (apply (building_quiet p w1 _ (ConsoleError msg x) (H Hs)); reflexivity).
    destruct p; try exact H1; congruence.
  - destruct p; try exact H; congruence.
Qed.

Lemma GET_schema w :
  history w = h0 -> tx (pg w) = Idle ->
  match SeedRoute.GET users customers invoices revenue e w with
  | (r, w1) =>
      r = inr seeded ->
      tx (pg w1) = Idle
      /\ exists evs,
          history w1 = h0 ++ evs
          /\ (schema_ready (store (pg w1)) = true
              \/ mode e = AbortTransaction /\ existsb failed_insert evs = true)
  end.
Proof.
  intros Hh Ht.
  assert (H : match SeedRoute.GET users customers invoices revenue e w with
              | (r, w1) =>
                  (r = inr seeded /\ built PCommit w1)
                  \/ (r = inr seeding_failed /\ exists x : exn, True)
                  \/ (exists x y : exn, r = inl y /\ True)
              end).
  { apply (GET_flow users customers invoices revenue e
                    (fun w => history w = h0 /\ tx (pg w) = Idle)
                    built (fun _ => built PUsers) (fun _ _ => True) (fun _ _ => True)
                    (fun _ _ _ => True));
      try (split; [exact Hh | exact Ht]);
      try (apply built_ddl; [reflexivity | reflexivity | reflexivity | discriminate | discriminate]);
      try (intros; apply built_row; [reflexivity | reflexivity | discriminate | assumption]).
    - intros w0 [Hh0 Ht0].
      destruct (client_sql_run BEGIN e w0) as [r [d [He ->]]].
      destruct (exec_begin_idle _ _ _ _ _ _ _ He Ht0) as [Hok _].
      destruct r as [code|q]; cbn [raised]; [exact I|].
      destruct (Hok q eq_refl) as [_ [Ht1 Hs1]].
      split; [reflexivity|].
      exists [Sql BEGIN (inr q)]. cbn [history pg]. rewrite Hh0.
      split; [reflexivity|]. left. eexists; exact Ht1.
    - intros u _ w0 Hw0. unfold bcrypt_hash.
      destruct (bcrypt e (salts w0) (user_password u) 10) as [h|] eqn:Eh.
      + apply (building_quiet PUsers w0 _ (Hash (user_password u) 10 (Some h)) Hw0);
          reflexivity.
      + apply (building_quiet PUsers w0 _ (Hash (user_password u) 10 None) Hw0);
          reflexivity.
    - intros u _ xs w0 Hw0. unfold bcrypt_hash.
      destruct (bcrypt e (salts w0) (user_password u) 10) as [h|] eqn:Eh.
      + apply (building_quiet PUsers w0 _ (Hash (user_password u) 10 (Some h)) Hw0);
          reflexivity.
      + apply (building_quiet PUsers w0 _ (Hash (user_password u) 10 None) Hw0);
          reflexivity.
    - intros c Hc. destruct (user_callback_insert users e c Hc) as [Hi Hp].
      apply built_row; [exact Hi | exact Hp | discriminate].
    - intros c Hc xs. destruct (user_callback_insert users e c Hc) as [Hi Hp].
      apply (built_row _ PUsers); [exact Hi | exact Hp | discriminate].
    - intros; exact I.
    - intros w0 [Hr0 [evs [Hh0 Hb0]]].
      destruct (client_sql_run COMMIT e w0) as [r [d [He ->]]].
      destruct r as [code|q]; cbn [raised]; [exact I|].
      destruct (exec_end _ _ _ _ _ _ _ _ _ He (or_introl eq_refl) eq_refl)
        as [-> [Ht1 [_ [_ [Hst _]]]]].
      split; [exact Ht1|].
      exists (evs ++ [Sql COMMIT (inr (done 0))]). cbn [history pg].
      rewrite Hh0, app_assoc. split; [reflexivity|].
      destruct Hb0 as [[t Hb0]|[_ [Hm Hf]]].
      + left. rewrite (Hst t Hb0 eq_refl). exact Hr0.
      + right. split; [exact Hm|]. rewrite existsb_app, Hf. reflexivity.
    - intros x w0 _. destruct (client_sql ROLLBACK e w0) as [[y|q] w1]; exact I. }
  destruct (SeedRoute.GET users customers invoices revenue e w) as [r w1].
  intros Hr. destruct H as [[_ Hb]|[[Hf _]|[_ [y [Hf _]]]]].
  - exact Hb.
  - rewrite Hr in Hf. discriminate Hf.
  - rewrite Hr in Hf. discriminate Hf.
Qed.

End Schema.

Lemma schema_ready_tables t :
  schema_ready t = true ->
  uuid_ossp t = true
  /\ exists us cs invs rs,
      users_t t = Some us /\ customers_t t = Some cs
      /\ invoices_t t = Some invs /\ revenue_t t = Some rs.
Proof.
  unfold schema_ready. destruct t as [[|] [us|] [cs|] [invs|] [rs|]]; try discriminate.
  intros _. split; [reflexivity|]. exists us, cs, invs, rs. auto.
Qed.

Lemma seeded_schema users customers invoices revenue e w r w1 evs :
  SeedRoute.GET users customers invoices revenue e w = (r, w1) ->
  history w1 = history w ++ evs ->
  tx (pg w) = Idle ->
  r = inr seeded ->
  mode e = StatementRollback \/ existsb failed_insert evs = false ->
  schema_ready (store (pg w1)) = true /\ tx (pg w1) = Idle.
Proof.
  intros HG Hh Ht Hr Hm.
  pose proof (GET_schema users customers invoices revenue e (history w) w eq_refl Ht) as H.
  rewrite HG in H. destruct (H Hr) as [Ht1 [evs1 [Hh1 Hs]]].
  rewrite Hh in Hh1. apply app_inv_head in Hh1. subst evs1.
  split; [|exact Ht1]. destruct Hs as [Hs|[Ha Hf]]; [exact Hs|].
  destruct Hm as [Hm|Hm]; congruence.
Qed.

(** X7.  After [GET] of the seeding route has answered with success, the uuid
    extension and the four relations (users, customers, invoices, revenue)
    exist and are committed, whatever was there before; on PostgreSQL provided
    no insert of the run failed, on a server that undoes a failed statement
    alone in every case. *)
Theorem seed_creates_schema users customers invoices revenue e w r w1 evs :
  SeedRoute.GET users customers invoices revenue e w = (r, w1) ->
  history w1 = history w ++ evs ->
  tx (pg w) = Idle ->
  r = inr seeded ->
  mode e = StatementRollback \/ existsb failed_insert evs = false ->
  uuid_ossp (committed (pg w1)) = true
  /\ exists us cs invs rs,
      users_t (committed (pg w1)) = Some us
      /\ customers_t (committed (pg w1)) = Some cs
      /\ invoices_t (committed (pg w1)) = Some invs
      /\ revenue_t (committed (pg w1)) = Some rs.
Proof.
  intros HG Hh Ht Hr Hm.
  destruct (seeded_schema _ _ _ _ _ _ _ _ _ HG Hh Ht Hr Hm) as [Hs Ht1].
  unfold committed. rewrite Ht1. apply schema_ready_tables. exact Hs.
Qed.

(** X8.  Seeding, then querying.  After [GET] of the seeding route has answered
    with success (on PostgreSQL: with no failed insert), [GET] of the query
    route finds its relations: unless the connection or the SELECT fails for
    an outside reason, it answers 200, in both texts of the route, with the
    invoices of amount 666 of the committed tables, in the order in which the
    server returns them. *)
Theorem seed_then_query users customers invoices revenue e w r w1 evs :
  SeedRoute.GET users customers invoices revenue e w = (r, w1) ->
  history w1 = history w ++ evs ->
  tx (pg w) = Idle ->
  r = inr seeded ->
  mode e = StatementRollback \/ existsb failed_insert evs = false ->
  faulty e (issued w1) = false ->
  faulty e (S (issued w1)) = false ->
  exists invs cs lines,
    invoices_t (store (pg w1)) = Some invs
    /\ customers_t (store (pg w1)) = Some cs
    /\ Permutation lines (select_invoices invs cs)
    /\ fst (QueryRoute.GET e w1) = inr (listing lines)
    /\ fst (QueryRouteWithHeaders.GET e w1) = inr (listing_json lines)
    /\ status (listing lines) = 200
    /\ status (listing_json lines) = 200.
Proof.
  intros HG Hh Ht Hr Hm Hc Hq.
  destruct (seeded_schema _ _ _ _ _ _ _ _ _ HG Hh Ht Hr Hm) as [Hs Ht1].
  destruct (schema_ready_tables _ Hs) as [_ [us [cs [invs [rs [_ [Hcs [Hi _]]]]]]]].
  assert (Hcm : committed (pg w1) = store (pg w1)) by (unfold committed; rewrite Ht1; reflexivity).
  exists invs, cs, (reorder (plan e) (select_invoices invs cs)).
  split; [exact Hi|]. split; [exact Hcs|]. split; [apply reorder_perm|].
  rewrite GET_listInvoices, GET_json_listInvoices. cbn [fst].
  pose proof (listInvoices_listed e w1) as Hl.
  destruct (QueryRoute.listInvoices e w1) as [res wl].
  inversion Hl as [Hf|code Hf Hcode|invs1 cs1 Hf1 Hf2 Hi1 Hc1]; subst; cbn [fst].
  - congruence.
  - exfalso. rewrite Hcm in Hcode.
    destruct Hcode as [[Hx _]|[_ [_ [Hx|Hx]]]]; congruence.
  - rewrite Hcm in Hi1, Hc1. rewrite Hi in Hi1. rewrite Hcs in Hc1.
    injection Hi1 as <-. injection Hc1 as <-. repeat split; reflexivity.
Qed.

Lemma seed_creates_schema_witness :
  SeedRoute.GET sample_users sample_customers sample_invoices sample_revenue postgres
                fresh_world = first_run
  /\ tx (pg fresh_world) = Idle
  /\ fst first_run = inr seeded
  /\ existsb failed_insert (history (snd first_run)) = false
  /\ uuid_ossp (committed (pg (snd first_run))) = true
  /\ exists us cs invs rs,
      users_t (committed (pg (snd first_run))) = Some us
      /\ customers_t (committed (pg (snd first_run))) = Some cs
      /\ invoices_t (committed (pg (snd first_run))) = Some invs
      /\ revenue_t (committed (pg (snd first_run))) = Some rs.
Proof.
  assert (H1 : SeedRoute.GET sample_users sample_customers sample_invoices sample_revenue
                             postgres fresh_world
               = (fst first_run, snd first_run)) by (vm_compute; reflexivity).
  assert (H2 : existsb failed_insert (history (snd first_run)) = false)
    by (vm_compute; reflexivity).
  split; [exact H1|]. split; [reflexivity|]. split; [reflexivity|]. split; [exact H2|].
  exact (seed_creates_schema _ _ _ _ _ _ _ _ (history (snd first_run)) H1 eq_refl eq_refl
                             eq_refl (or_intror H2)).
Defined.

Lemma seed_then_query_witness :
  SeedRoute.GET sample_users sample_customers sample_invoices sample_revenue postgres
                fresh_world = first_run
  /\ fst first_run = inr seeded
  /\ existsb failed_insert (history (snd first_run)) = false
  /\ exists invs cs lines,
      invoices_t (store (pg (snd first_run))) = Some invs
      /\ customers_t (store (pg (snd first_run))) = Some cs
      /\ Permutation lines (select_invoices invs cs)
      /\ fst (QueryRoute.GET postgres (snd first_run)) = inr (listing lines)
      /\ fst (QueryRouteWithHeaders.GET postgres (snd first_run)) = inr (listing_json lines)
      /\ status (listing lines) = 200
      /\ status (listing_json lines) = 200.
Proof.
  assert (H1 : SeedRoute.GET sample_users sample_customers sample_invoices sample_revenue
                             postgres fresh_world
               = (fst first_run, snd first_run)) by (vm_compute; reflexivity).
  assert (H2 : existsb failed_insert (history (snd first_run)) = false)
    by (vm_compute; reflexivity).
  split; [exact H1|]. split; [reflexivity|]. split; [exact H2|].
  exact (seed_then_query _ _ _ _ _ _ _ _ (history (snd first_run)) H1 eq_refl eq_refl
                         eq_refl (or_intror H2) eq_refl eq_refl).
Defined.

(** ** Seeding again *)

(** A part of the tables that no statement of the handler changes is the same
    after [GET], in the session and in what is committed. *)
Section Untouched.

Variable users : list User.
Variable customers : list Customer.
Variable invoices : list Invoice.
Variable revenue : list Revenue.
Variable e : env.
Variable A : Type.
Variable get : tables -> A.
Variable R0 : A.

Hypothesis harmless : forall s,
  sent users customers invoices revenue s ->
  bind_error (date_error e) s = None ->
  forall fresh t t1 q, get t = R0 -> run s fresh t = inr (t1, q) -> get t1 = R0.

Let same (d : session) : Prop := get (store d) = R0 /\ get (committed d) = R0.

Lemma same_control s fault fresh d r d1 :
  is_control s = true ->
  same d -> exec (mode e) s fault None fresh d = (r, d1) -> same d1.
Proof.
  intros Hs [H1 H2] He.
  destruct (exec_cases _ _ _ _ _ _ _ _ He) as [Hst Hcm].
  assert (G : get (store d1) = R0).
  { destruct Hst as [E|[E|[q [_ [_ E]]]]]; [rewrite E; exact H1 | rewrite E; exact H2 |].
    destruct s; try discriminate Hs; injection E as <- _; exact H1. }
  split; [exact G|]. destruct Hcm as [E|E]; rewrite E; assumption.
Qed.

Lemma same_exec s fault fresh d r d1 :
  sent users customers invoices revenue s ->
  same d -> exec (mode e) s fault (bind_error (date_error e) s) fresh d = (r, d1) -> same d1.
Proof.
  intros Hs [H1 H2] He.
  destruct (exec_cases _ _ _ _ _ _ _ _ He) as [Hst Hcm].
  assert (G : get (store d1) = R0).
  { destruct Hst as [E|[E|[q [_ [Hb E]]]]]; [rewrite E; exact H1 | rewrite E; exact H2 |].
    exact (harmless s Hs Hb _ _ _ _ H1 E). }
  split; [exact G|]. destruct Hcm as [E|E]; rewrite E; assumption.
Qed.

Lemma GET_untouched w :
  get (store (pg w)) = R0 -> get (committed (pg w)) = R0 ->
  get (store (pg (snd (SeedRoute.GET users customers invoices revenue e w)))) = R0
  /\ get (committed (pg (snd (SeedRoute.GET users customers invoices revenue e w)))) = R0.
Proof.
  intros H1 H2.
  apply (GET_session users customers invoices revenue e same same same same).
  - intros fault fresh d r d1 Hd He.
    pose proof (same_control BEGIN fault fresh d r d1 eq_refl Hd He) as H.
    destruct r; exact H.
  - intros s fault fresh d r d1 Hs Hd He. exact (same_exec s fault fresh d r d1 Hs Hd He).
  - intros d Hd. exact Hd.
  - intros fault fresh d r d1 Hd He.
    pose proof (same_control COMMIT fault fresh d r d1 eq_refl Hd He) as H.
    destruct r; exact H.
  - intros fault fresh d r d1 Hd He.
    exact (same_control ROLLBACK fault fresh d r d1 eq_refl Hd He).
  - split; assumption.
Qed.

End Untouched.

(** A key that the server can read and that a row of the table has is found
    there. *)
Lemma existsb_uuid {A} (key : A -> uuid) (l : list A) (k : uuid) :
  uuid_error k = None ->
  In k (map key l) -> existsb (fun x => uuid_eqb (key x) k) l = true.
Proof.
  intros Hv Hin. apply in_map_iff in Hin. destruct Hin as [x [Hk Hx]].
  apply existsb_exists. exists x. split; [exact Hx|]. rewrite Hk.
  apply uuid_eqb_true. unfold uuid_error in Hv.
  destruct (uuid_value k) as [v|]; [exists v; auto | discriminate Hv].
Qed.

(** What a [VARCHAR(n)] column holds fits it. *)
Lemma clip_length n s : char_length (clip n s) <= n.
Proof.
  revert n. induction s as [|c s IH]; intros n; cbn [clip char_length]; [lia|].
  destruct (is_continuation c) eqn:Ec.
  - cbn [char_length]. rewrite Ec. apply IH.
  - destruct n as [|n]; cbn [char_length]; [lia|]. rewrite Ec. specialize (IH n). lia.
Qed.

Lemma fit_varchar n s m : fit n s = Some m -> varchar n m = true.
Proof.
  unfold fit. destruct (varchar n s) eqn:Ev.
  - intros H. injection H as <-. exact Ev.
  - destruct (blank (excess n s)); [|discriminate]. intros H. injection H as <-.
    apply Nat.leb_le. apply clip_length.
Qed.

Lemma existsb_month (l : list Revenue) (k m : string) :
  fit 4 k = Some m ->
  In k (map rev_month l) -> existsb (fun x => varchar_eqb 4 (rev_month x) m) l = true.
Proof.
  intros Hf Hin. apply in_map_iff in Hin. destruct Hin as [x [Hk Hx]].
  apply existsb_exists. exists x. split; [exact Hx|]. rewrite Hk.
  unfold varchar_eqb. rewrite Hf, (fit_fits _ _ (fit_varchar _ _ _ Hf)).
  apply String.eqb_refl.
Qed.

(** X9.  Seeding again leaves the users as they are.  If every placeholder user's
    id is already in the users table, [GET] of the seeding route changes no
    row of that table, whatever it answers: the passwords are hashed again,
    but no stored hash is replaced. *)
Theorem reseed_keeps_users users customers invoices revenue e w :
  tx (pg w) = Idle ->
  (forall u, In u users -> In (user_id u) (map user_id (rows_of (users_t (store (pg w)))))) ->
  rows_of (users_t (store (pg (snd (SeedRoute.GET users customers invoices revenue e w)))))
  = rows_of (users_t (store (pg w))).
Proof.
  intros Ht Hk.
  apply (GET_untouched users customers invoices revenue e _
           (fun t => rows_of (users_t t)) (rows_of (users_t (store (pg w))))).
  - intros s Hs Hb fresh t t1 q Hg Hrun. destruct Hs as [| |u h Hu| | |];
      try (destruct (run_effect _ _ _ _ _ Hrun) as [E _]; rewrite E, app_nil_r; exact Hg).
    pose proof (existsb_uuid user_id _ _ Hb (Hk u Hu)) as Hex.
    rewrite <- Hg in Hex. cbn -[fit existsb] in Hrun. cbn [user_id] in Hex.
    destruct (users_t t) as [us|] eqn:Et; [|discriminate Hrun]. cbn [rows_of] in Hex, Hg.
    destruct (fit 255 (user_name u)); [|discriminate Hrun].
    rewrite Hex in Hrun. injection Hrun as <- _. rewrite Et. exact Hg.
  - reflexivity.
  - unfold committed. rewrite Ht. reflexivity.
Qed.

(** X10.  Seeding again leaves the customers as they are: if every placeholder
    customer's id is already in the customers table, [GET] of the seeding
    route changes no row of that table. *)
Theorem reseed_keeps_customers users customers invoices revenue e w :
  tx (pg w) = Idle ->
  (forall c, In c customers ->
             In (customer_id c) (map customer_id (rows_of (customers_t (store (pg w)))))) ->
  rows_of (customers_t (store (pg (snd (SeedRoute.GET users customers invoices revenue e w)))))
  = rows_of (customers_t (store (pg w))).
Proof.
  intros Ht Hk.
  apply (GET_untouched users customers invoices revenue e _
           (fun t => rows_of (customers_t t)) (rows_of (customers_t (store (pg w))))).
  - intros s Hs Hb fresh t t1 q Hg Hrun. destruct Hs as [| | |c Hc| |];
      try (destruct (run_effect _ _ _ _ _ Hrun) as [_ [E _]]; rewrite E, app_nil_r; exact Hg).
    pose proof (existsb_uuid customer_id _ _ Hb (Hk c Hc)) as Hex.
    rewrite <- Hg in Hex. cbn -[fit existsb] in Hrun. cbn [customer_id] in Hex.
    destruct (customers_t t) as [cs|] eqn:Et; [|discriminate Hrun]. cbn [rows_of] in Hex, Hg.
    destruct (fit 255 (customer_name c)); [|discriminate Hrun].
    destruct (fit 255 (customer_email c)); [|discriminate Hrun].
    destruct (fit 255 (customer_image_url c)); [|discriminate Hrun].
    rewrite Hex in Hrun. injection Hrun as <- _. rewrite Et. exact Hg.
  - reflexivity.
  - unfold committed. rewrite Ht. reflexivity.
Qed.

(** X11.  Seeding again leaves the revenue as it is: if every placeholder month is
    already in the revenue table, [GET] of the seeding route changes no row of
    that table; in particular the revenue of a month is never updated. *)
Theorem reseed_keeps_revenue users customers invoices revenue e w :
  tx (pg w) = Idle ->
  (forall r, In r revenue ->
             In (rev_month r) (map rev_month (rows_of (revenue_t (store (pg w)))))) ->
  rows_of (revenue_t (store (pg (snd (SeedRoute.GET users customers invoices revenue e w)))))
  = rows_of (revenue_t (store (pg w))).
Proof.
  intros Ht Hk.
  apply (GET_untouched users customers invoices revenue e _
           (fun t => rows_of (revenue_t t)) (rows_of (revenue_t (store (pg w))))).
  - intros s Hs Hb fresh t t1 q Hg Hrun. destruct Hs as [| | | | |r Hr];
      try (destruct (run_effect _ _ _ _ _ Hrun) as [_ [_ [_ E]]]; rewrite E, app_nil_r;
           exact Hg).
    cbn -[fit int4 existsb] in Hrun.
    destruct (revenue_t t) as [rs|] eqn:Et; [|discriminate Hrun]. cbn [rows_of] in Hg.
    destruct (negb (int4 (rev_revenue r))); [discriminate Hrun|].
    destruct (fit 4 (rev_month r)) as [m|] eqn:Ef; [|discriminate Hrun].
    pose proof (existsb_month _ _ _ Ef (Hk r Hr)) as Hex.
    rewrite <- Hg in Hex. cbn [rev_month] in Hex. rewrite Hex in Hrun. injection Hrun as <- _. rewrite Et. exact Hg.
  - reflexivity.
  - unfold committed. rewrite Ht. reflexivity.
Qed.

Lemma reseed_keeps_users_witness :
  tx (pg (snd first_run)) = Idle
  /\ map user_id (rows_of (users_t (store (pg (snd first_run))))) = map user_id sample_users
  /\ rows_of (users_t (store (pg (snd (SeedRoute.GET sample_users sample_customers
                                                     sample_invoices sample_revenue postgres
                                                     (snd first_run))))))
     = rows_of (users_t (store (pg (snd first_run)))).
Proof.
  split; [reflexivity|]. split; [vm_compute; reflexivity|].
  apply reseed_keeps_users; [reflexivity|].
  intros u [<-|[<-|[]]]; vm_compute; tauto.
Defined.

Lemma reseed_keeps_customers_witness :
  tx (pg (snd first_run)) = Idle
  /\ map customer_id (rows_of (customers_t (store (pg (snd first_run)))))
     = map customer_id sample_customers
  /\ rows_of (customers_t (store (pg (snd (SeedRoute.GET sample_users sample_customers
                                                         sample_invoices sample_revenue
                                                         (postgres_failing 8)
                                                         (snd first_run))))))
     = rows_of (customers_t (store (pg (snd first_run)))).
Proof.
  split; [reflexivity|]. split; [vm_compute; reflexivity|].
  apply reseed_keeps_customers; [reflexivity|].
  intros c [<-|[<-|[]]]; vm_compute; tauto.
Defined.

Lemma reseed_keeps_revenue_witness :
  tx (pg (snd first_run)) = Idle
  /\ map rev_month (rows_of (revenue_t (store (pg (snd first_run)))))
     = map rev_month sample_revenue
  /\ rows_of (revenue_t (store (pg (snd (SeedRoute.GET
                                           sample_users sample_customers sample_invoices
                                           [mkRevenue "Jan" 2500; mkRevenue "Feb" 1800]
                                           statement_server (snd first_run))))))
     = rows_of (revenue_t (store (pg (snd first_run)))).
Proof.
  split; [reflexivity|]. split; [vm_compute; reflexivity|].
  apply reseed_keeps_revenue; [reflexivity|].
  intros r [<-|[<-|[]]]; vm_compute; tauto.
Defined.

(** ** All or nothing on PostgreSQL *)

Definition sql_failed (ev : event) : bool :=
  match ev with Sql _ (inl _) => true | _ => false end.

(** Outside a block, the callbacks left behind commit each of their inserts
    that succeeds, one by one. *)
Lemma run_all_autocommit cs e w :
  Forall (fun c => is_control (guarded_stmt c) = false) cs ->
  tx (pg w) = Idle ->
  tx (pg (snd (run_all cs e w))) = Idle
  /\ exists later,
       history (snd (run_all cs e w)) = history w ++ later
       /\ contents (store (pg (snd (run_all cs e w))))
          = rows_app (contents (store (pg w))) (inserted later).
Proof.
  revert w. induction cs as [|c cs IH]; intros w Hall Ht.
  - cbn [run_all ret snd]. split; [exact Ht|]. exists [].
    change (inserted []) with (([], [], [], []) : rowsets).
    rewrite app_nil_r, rows_app_nil. auto.
  - inversion Hall as [|? ? Hc Hall']; subst. cbn [run_all]. rewrite bind_run, run_guarded_run.
    destruct (client_sql_run (guarded_stmt c) e w) as [r [d [He ->]]].
    destruct (exec_autocommit _ _ _ _ _ _ _ _ He Hc Ht) as [Ht1 Hd].
    destruct r as [code|q]; cbn [raised].
    + destruct Hd as [[_ Hs]|[q [Hq _]]]; [|discriminate Hq].
      match goal with
      | |- context [run_all cs e ?w0] =>
          destruct (IH w0 Hall' Ht1) as [Hi [later [Hh Hc1]]]
      end.
      split; [exact Hi|].
      exists (Sql (guarded_stmt c) (inl code)
                :: ConsoleError (guarded_msg c) (SqlError (guarded_stmt c) code) :: later).
      split; [rewrite Hh; unfold log; cbn [history]; rewrite <- !app_assoc; reflexivity|].
      rewrite Hc1. unfold log. cbn [pg]. rewrite Hs.
      change (Sql (guarded_stmt c) (inl code)
                :: ConsoleError (guarded_msg c) (SqlError (guarded_stmt c) code) :: later)
        with ([Sql (guarded_stmt c) (inl code);
               ConsoleError (guarded_msg c) (SqlError (guarded_stmt c) code)] ++ later).
      rewrite inserted_app.
      change (inserted [Sql (guarded_stmt c) (inl code);
                        ConsoleError (guarded_msg c) (SqlError (guarded_stmt c) code)])
        with (([], [], [], []) : rowsets).
      destruct (inserted later) as [[[a b] c0] d0]. reflexivity.
    + destruct Hd as [[[code Hq] _]|[q0 [Hq Hrun]]]; [discriminate Hq|].
      injection Hq as <-.
      match goal with
      | |- context [run_all cs e ?w0] =>
          destruct (IH w0 Hall' Ht1) as [Hi [later [Hh Hc1]]]
      end.
      split; [exact Hi|].
      exists (Sql (guarded_stmt c) (inr q) :: later).
      split; [rewrite Hh; cbn [history]; rewrite <- !app_assoc; reflexivity|].
      rewrite Hc1. cbn [pg]. rewrite (run_contents _ _ _ _ _ Hrun), rows_app_assoc.
      change (Sql (guarded_stmt c) (inr q) :: later)
        with ([Sql (guarded_stmt c) (inr q)] ++ later).
      rewrite inserted_app. reflexivity.
Qed.

Section Atomic.

Variable users : list User.
Variable customers : list Customer.
Variable invoices : list Invoice.
Variable revenue : list Revenue.
Variable e : env.
Variable h0 : list event.
Variable t0 : tables.
Hypothesis aborting : mode e = AbortTransaction.

(** No statement has failed and the block holds what the inserts stored, or
    the block is aborted. *)
Let clean (w : world) : Prop :=
  exists evs,
    history w = h0 ++ evs
    /\ (tx (pg w) = Failed t0
        \/ tx (pg w) = InTx t0 /\ existsb sql_failed evs = false
           /\ contents (store (pg w)) = rows_app (contents t0) (inserted evs)).

Let settled (w : world) : Prop :=
  exists evs,
    history w = h0 ++ evs /\ tx (pg w) = Idle
    /\ (store (pg w) = t0
        \/ existsb sql_failed evs = false
           /\ contents (store (pg w)) = rows_app (contents t0) (inserted evs)).

Let unchanged (w : world) : Prop := committed (pg w) = t0.

Let undone (w : world) : Prop := tx (pg w) = Idle /\ store (pg w) = t0.

Lemma clean_quiet w w1 ev :
  clean w -> history w1 = history w ++ [ev] -> pg w1 = pg w ->
  sql_failed ev = false -> inserted [ev] = ([], [], [], []) ->
  clean w1.
Proof.
  intros [evs [Hh Hc]] Hh1 Hp Hf Hi. exists (evs ++ [ev]).
  rewrite Hh1, Hh, app_assoc. split; [reflexivity|]. rewrite Hp.
  destruct Hc as [Hc|[Ht [Hn Hc]]]; [left; exact Hc|right].
  split; [exact Ht|]. split.
  - rewrite existsb_app, Hn. cbn [existsb]. rewrite Hf. reflexivity.
  - rewrite Hc, inserted_app, Hi, rows_app_nil. reflexivity.
Qed.

Lemma clean_statement s w :
  is_control s = false -> clean w -> clean (snd (client_sql s e w)).
Proof.
  intros Hs [evs [Hh Hc]].
  assert (N : s <> COMMIT /\ s <> ROLLBACK) by (split; intros ->; discriminate Hs).
  destruct (client_sql_run s e w) as [r [d [He ->]]]. cbn [snd].
  exists (evs ++ [Sql s r]). cbn [history pg]. rewrite Hh, app_assoc.
  split; [reflexivity|].
  destruct Hc as [Hc|[Ht [Hn Hc]]].
  - destruct N as [N1 N2].
    destruct (exec_failed _ _ _ _ _ _ _ _ _ He N1 N2 Hc) as [_ ->]. left. exact Hc.
  - destruct (exec_in_block _ _ _ _ _ _ _ _ _ He Hs Ht)
      as [[_ [_ [[_ Hx]|[Hx _]]]]|[q [-> [Ht1 [_ [_ Hrun]]]]]].
    + rewrite aborting in Hx. discriminate Hx.
    + left. exact Hx.
    + right. split; [exact Ht1|]. split.
      * rewrite existsb_app, Hn. reflexivity.
      * rewrite (run_contents _ _ _ _ _ Hrun), Hc, inserted_app, rows_app_assoc.
        reflexivity.
Qed.

Lemma clean_unchanged w : clean w -> unchanged w.
Proof.
  intros [evs [_ [Hc|[Hc _]]]]; unfold unchanged, committed; rewrite Hc; reflexivity.
Qed.

Lemma GET_atomic w :
  history w = h0 -> store (pg w) = t0 -> tx (pg w) = Idle ->
  match SeedRoute.GET users customers invoices revenue e w with
  | (r, w1) =>
      (r = inr seeded /\ settled w1)
      \/ (r = inr seeding_failed /\ undone w1)
      \/ (exists y, r = inl y /\ unchanged w1)
  end.
Proof.
  intros Hh Hs Ht.
  apply (GET_invariant users customers invoices revenue e
           (fun w => history w = h0 /\ store (pg w) = t0 /\ tx (pg w) = Idle)
           clean unchanged settled undone unchanged).
  - intros w0 [Hh0 [Hs0 Ht0]].
    destruct (client_sql_run BEGIN e w0) as [r [d [He ->]]].
    destruct (exec_begin_idle _ _ _ _ _ _ _ He Ht0) as [Hok Hbad].
    destruct r as [code|q]; cbn [raised].
    + unfold unchanged. cbn [pg]. rewrite (Hbad code eq_refl).
      unfold committed. rewrite Ht0. exact Hs0.
    + destruct (Hok q eq_refl) as [-> [Ht1 Hs1]].
      exists [Sql BEGIN (inr (done 0))]. cbn [history pg]. rewrite Hh0.
      split; [reflexivity|]. right. rewrite Ht1, Hs1, Hs0.
      split; [reflexivity|]. split; [reflexivity|].
      change (inserted [Sql BEGIN (inr (done 0))]) with (([], [], [], []) : rowsets).
      rewrite rows_app_nil. reflexivity.
  - intros s w0 Hsent Hw0. apply clean_statement; [|exact Hw0].
    destruct Hsent; reflexivity.
  - intros p w0 Hw0. unfold bcrypt_hash.
    destruct (bcrypt e (salts w0) p 10) as [h|]; cbn [snd].
    + apply (clean_quiet w0 _ (Hash p 10 (Some h)) Hw0); reflexivity.
    + apply (clean_quiet w0 _ (Hash p 10 None) Hw0); reflexivity.
  - intros msg x w0 Hw0. apply (clean_quiet w0 _ (ConsoleError msg x) Hw0); reflexivity.
  - intros cs w0 _ Hw0. exact (clean_unchanged w0 Hw0).
  - intros w0 [evs [Hh0 Hc]].
    destruct (client_sql_run COMMIT e w0) as [r [d [He ->]]].
    destruct r as [code|q]; cbn [raised].
    + destruct (exec_commit _ _ _ _ _ _ _ He) as [_ Hbad].
      destruct (Hbad code eq_refl) as [Hc1 _]. unfold unchanged. cbn [pg]. rewrite Hc1.
      destruct Hc as [Hc|[Hc _]]; unfold committed; rewrite Hc; reflexivity.
    + destruct (exec_end _ _ _ _ _ _ _ _ _ He (or_introl eq_refl) eq_refl)
        as [-> [Ht1 [Hf [_ [Hk _]]]]].
      exists (evs ++ [Sql COMMIT (inr (done 0))]). cbn [history pg].
      rewrite Hh0, app_assoc. split; [reflexivity|]. split; [exact Ht1|].
      destruct Hc as [Hc|[Hi [Hn Hc]]]; [left; exact (Hf t0 Hc)|right]. split.
      * rewrite existsb_app, Hn. reflexivity.
      * rewrite (Hk t0 Hi eq_refl), Hc, inserted_app.
        change (inserted [Sql COMMIT (inr (done 0))]) with (([], [], [], []) : rowsets).
        rewrite rows_app_nil. reflexivity.
  - intros x w0 Hw0.
    destruct (client_sql_run ROLLBACK e w0) as [r [d [He ->]]].
    destruct (exec_rollback _ _ _ _ _ _ _ He) as [Hc1 Hok].
    destruct r as [code|q]; cbn [raised].
    + unfold unchanged. cbn [pg]. rewrite Hc1. exact Hw0.
    + destruct (Hok q eq_refl) as [_ [Ht1 Hs1]]. split; [exact Ht1|].
      cbn [log pg]. rewrite Hs1. exact Hw0.
  - split; [exact Hh|]. split; [exact Hs | exact Ht].
Qed.

End Atomic.

Lemma user_callbacks_later users e cs later :
  Forall (user_callback users e) cs -> Forall (left_behind cs) later ->
  Forall (fun ev => step_of ev = Some PUsers \/ step_of ev = None) later.
Proof.
  intros Hall. apply Forall_impl.
  intros ev [c [Hc [[r1 ->]|[code ->]]]]; [left | right; reflexivity].
  rewrite Forall_forall in Hall.
  exact (proj2 (user_callback_insert users e c (Hall c Hc))).
Qed.



(** ** Seeding an empty database *)

(** A fan-out whose callbacks each take the world one row further. *)
Lemma triple_all_prefix {R A} e (f : R -> M A) (I : list R -> world -> Prop) X l :
  (forall pre x post, l = pre ++ x :: post ->
     triple e (I pre) (f x) (fun _ => I (pre ++ [x])) X) ->
  triple e (I []) (Promise_all (map f l)) (fun _ => I l) X.
Proof.
  intros H.
  enough (G : forall rest pre, l = pre ++ rest ->
                triple e (I pre) (Promise_all (map f rest)) (fun _ => I l) X)
    by (apply (G l []); reflexivity).
  induction rest as [|x rest IH]; intros pre Hl.
  - rewrite app_nil_r in Hl. subst pre. intros w Hw. exact Hw.
  - simpl. eapply triple_bind; [exact (H pre x rest Hl)|]. intros a.
    eapply triple_bind.
    + apply (IH (pre ++ [x])). rewrite <- app_assoc. exact Hl.
    + intros r. apply (triple_ret e (a :: r) (fun _ => I l)).
Qed.

(** The same for callbacks that resume in some order, when none of their
    promises is rejected: [rows] are what the callbacks insert, in the order
    in which they resume. *)
Lemma triple_complete_rows {R} e (f : R -> guarded) (rows : list R)
      (I : list R -> world -> Prop) X :
  (forall pre x post, rows = pre ++ x :: post ->
     triple e (I pre) (run_guarded (f x)) (fun _ => I (pre ++ [x])) X) ->
  forall (todo : list (nat * guarded)) got,
    map snd todo = map f rows ->
    triple e (I []) (complete (map (fun p => (fst p, inr (snd p))) todo) got)
           (fun _ => I rows) X.
Proof.
  intros H.
  enough (G : forall rest pre (todo : list (nat * guarded)) got,
             rows = pre ++ rest -> map snd todo = map f rest ->
             triple e (I pre) (complete (map (fun p => (fst p, inr (snd p))) todo) got)
                    (fun _ => I rows) X)
    by (intros todo got Hm; apply (G rows [] todo got); [reflexivity | exact Hm]).
  induction rest as [|x rest IH]; intros pre todo got Hl Hm.
  - destruct todo; [|discriminate Hm]. rewrite app_nil_r in Hl. subst pre.
    intros w Hw. exact Hw.
  - destruct todo as [|[i c] todo]; [discriminate Hm|].
    cbn [map snd] in Hm. injection Hm as -> Hm.
    cbn [map complete fst snd].
    eapply triple_bind; [exact (H pre x rest Hl)|]. intros a.
    apply (IH (pre ++ [x])); [rewrite <- app_assoc; exact Hl | exact Hm].
Qed.

(** The session is inside a block opened on [t0] and sees the tables [t];
    [u] ids and [sl] salts have been drawn. *)
Definition at_state (t0 t : tables) (u sl : nat) (w : world) : Prop :=
  pg w = mkSession t (InTx t0) /\ uuids w = u /\ salts w = sl.

Definition next_uuid (s : stmt) (u : nat) : nat :=
  match s with INSERT_INVOICE _ => S u | _ => u end.

Lemma triple_statement_ok e t0 s t t1 q u sl :
  (forall k, faulty e k = false) ->
  is_control s = false ->
  bind_error (date_error e) s = None ->
  run s (Generated u) t = inr (t1, q) ->
  triple e (at_state t0 t u sl) (client_sql s)
         (fun _ => at_state t0 t1 (next_uuid s u) sl) (fun _ _ => False).
Proof.
  intros Hf Hc Hb Hrun w [Hp [Hu Hs]]. unfold client_sql.
  rewrite Hf, Hp, Hu, Hb. unfold exec. cbn [tx store].
  destruct s; try discriminate Hc; rewrite Hrun; cbn [next_uuid];
    repeat split; cbn; assumption.
Qed.

Lemma triple_insert_ok e t0 s t t1 q u sl msg :
  (forall k, faulty e k = false) ->
  is_insert s = true ->
  bind_error (date_error e) s = None ->
  run s (Generated u) t = inr (t1, q) ->
  triple e (at_state t0 t u sl)
    (try_catch (r <- client_sql s ;; ret (Some r))
               (fun err => console_error msg err ;; ret None))
    (fun _ => at_state t0 t1 (next_uuid s u) sl) (fun _ _ => False).
Proof.
  intros Hf Hi Hb Hrun w Hw.
  assert (Hc : is_control s = false) by (destruct s; try discriminate Hi; reflexivity).
  pose proof (triple_statement_ok e t0 s t t1 q u sl Hf Hc Hb Hrun w Hw) as H.
  rewrite guarded_run. destruct (client_sql s e w) as [[x|r] w1]; [contradiction | exact H].
Qed.

(** Keys. *)

(** No two of the ids are the same value. *)
Definition distinct_ids (ids : list uuid) : Prop := NoDup (map uuid_value ids).

Lemma existsb_no_uuid {A} (key : A -> uuid) (l : list A) (k : uuid) :
  ~ In (uuid_value k) (map uuid_value (map key l)) ->
  existsb (fun x => uuid_eqb (key x) k) l = false.
Proof.
  intros Hin. destruct (existsb _ l) eqn:E; [|reflexivity].
  exfalso. apply Hin. apply existsb_exists in E. destruct E as [x [Hx Hk]].
  apply uuid_eqb_true in Hk. destruct Hk as [v [H1 H2]].
  rewrite map_map. apply in_map_iff. exists x. split; [congruence | exact Hx].
Qed.

Lemma existsb_no_key {A K} (key : A -> K) (eqb : K -> K -> bool) (l : list A) (k : K) :
  (forall a b, eqb a b = true <-> a = b) ->
  ~ In k (map key l) -> existsb (fun x => eqb (key x) k) l = false.
Proof.
  intros Heq Hin. destruct (existsb _ l) eqn:E; [|reflexivity].
  exfalso. apply Hin. apply existsb_exists in E. destruct E as [x [Hx Hk]].
  apply in_map_iff. exists x. split; [apply Heq; exact Hk | exact Hx].
Qed.

Lemma new_key {A K} (key : A -> K) (l pre post : list A) (x : A) :
  NoDup (map key l) -> l = pre ++ x :: post -> ~ In (key x) (map key pre).
Proof.
  intros Hn -> Hin. rewrite map_app in Hn. cbn [map] in Hn.
  apply NoDup_remove_2 in Hn. apply Hn. apply in_or_app. left. exact Hin.
Qed.

Lemma in_middle {A} (l pre post : list A) (x : A) : l = pre ++ x :: post -> In x l.
Proof. intros ->. apply in_or_app. right. left. reflexivity. Qed.

Lemma varchar_eqb_fits n a b :
  varchar n a = true -> varchar n b = true -> varchar_eqb n a b = String.eqb a b.
Proof. intros Ha Hb. unfold varchar_eqb. rewrite (fit_fits _ _ Ha), (fit_fits _ _ Hb). reflexivity. Qed.

(** The users as they are stored: the password replaced by its hash, the
    salts drawn in the order of the list from draw [n] on. *)
Definition hashed (e : env) (n : nat) (u : User) : User :=
  mkUser (user_id u) (user_name u) (user_email u)
         (match bcrypt e n (user_password u) 10 with Some h => h | None => EmptyString end).

Fixpoint hashed_users (e : env) (n : nat) (us : list User) : list User :=
  match us with
  | [] => []
  | u :: us' => hashed e n u :: hashed_users e (S n) us'
  end.

(** The callback that inserts a row of the users table. *)
Definition insert_row (row : User) : guarded :=
  Guarded (INSERT_USER row) ("Error inserting user: " +++ user_email row).

(** The invoices as they are stored: with the ids generated from [n] on. *)
Fixpoint invoice_rows (n : nat) (l : list Invoice) : list InvoiceRow :=
  match l with
  | [] => []
  | i :: l' => mkInvoiceRow (Generated n) i :: invoice_rows (S n) l'
  end.

Lemma hashed_users_ids e n us : map user_id (hashed_users e n us) = map user_id us.
Proof. revert n. induction us as [|v us IH]; intros n; cbn; [|rewrite IH]; reflexivity. Qed.

Lemma hashed_users_emails e n us : map user_email (hashed_users e n us) = map user_email us.
Proof. revert n. induction us as [|v us IH]; intros n; cbn; [|rewrite IH]; reflexivity. Qed.

Lemma hashed_users_names e n us row :
  In row (hashed_users e n us) -> exists u, In u us /\ user_name row = user_name u
                                            /\ user_id row = user_id u.
Proof.
  revert n. induction us as [|v us IH]; intros n; cbn [hashed_users]; [intros []|].
  intros [<-|H].
  - exists v. split; [left; reflexivity | split; reflexivity].
  - destruct (IH _ H) as [u [Hu Hn]]. exists u. split; [right; exact Hu | exact Hn].
Qed.

Lemma hashed_users_length e n us : List.length (hashed_users e n us) = List.length us.
Proof. revert n. induction us as [|v us IH]; intros n; cbn; [|rewrite IH]; reflexivity. Qed.

(** When bcrypt accepts every password, what the hashes of the users settle
    to are the callbacks that insert the rows of [hashed_users]. *)
Lemma settled_hashed e users :
  (forall n u, In u users -> bcrypt e n (user_password u) 10 <> None) ->
  forall n,
    map settled_user (combine users (hash_outcomes e n users))
    = map inr (map insert_row (hashed_users e n users)).
Proof.
  intros Hh. induction users as [|u us IH]; intros n; [reflexivity|].
  cbn [hash_outcomes combine map hashed_users]. rewrite IH.
  - f_equal. unfold settled_user, hashed. cbn [fst snd].
    destruct (bcrypt e n (user_password u) 10) as [h|] eqn:Eh; [reflexivity|].
    destruct (Hh n u (or_introl eq_refl) Eh).
  - intros m v Hv. apply Hh. right. exact Hv.
Qed.

Lemma map_snd_combine_seq {A} (l : list A) k :
  map snd (combine (seq k (List.length l)) l) = l.
Proof.
  revert k. induction l as [|x l IH]; intros k; [reflexivity|].
  cbn [List.length seq combine map snd]. f_equal. apply IH.
Qed.

(** The users step when every hash is there: the callbacks insert the rows
    of [hashed_users] in the order in which the hashes complete. *)
Lemma triple_users_state e users t0 (tab : list User -> tables) u sl X :
  (forall n v, In v users -> bcrypt e n (user_password v) 10 <> None) ->
  (forall pre x post,
     reorder (completion e) (hashed_users e sl users) = pre ++ x :: post ->
     triple e (at_state t0 (tab pre) u (sl + List.length users))
            (run_guarded (insert_row x))
            (fun _ => at_state t0 (tab (pre ++ [x])) u (sl + List.length users)) X) ->
  triple e (at_state t0 (tab []) u sl)
         (Promise_all_awaiting (map user_awaiting users))
         (fun _ => at_state t0 (tab (reorder (completion e) (hashed_users e sl users))) u
                            (sl + List.length users))
         X.
Proof.
  intros Hh Hrow w [Hp [Hu Hs]]. unfold Promise_all_awaiting.
  rewrite call_all_users, length_map, Hs, (settled_hashed e users Hh sl).
  set (rows := hashed_users e sl users).
  set (cs := map insert_row rows).
  assert (Hlen : List.length users = List.length cs).
  { unfold cs, rows. rewrite length_map, hashed_users_length. reflexivity. }
  rewrite Hlen, combine_map_r, reorder_map.
  set (todo := reorder (completion e) (combine (seq 0 (List.length cs)) cs)).
  assert (Hm : map snd todo = map insert_row (reorder (completion e) rows)).
  { unfold todo. rewrite <- reorder_map, map_snd_combine_seq, <- reorder_map. reflexivity. }
  rewrite <- Hlen.
  pose proof (triple_complete_rows e insert_row (reorder (completion e) rows)
                (fun pre => at_state t0 (tab pre) u (sl + List.length users)) X
                Hrow todo [] Hm) as H.
  match goal with
  | |- context [complete _ [] e ?w0] =>
      specialize (H w0); destruct (complete _ [] e w0) as [[x|got] w2]
  end; apply H; repeat split; cbn; assumption.
Qed.

Lemma invoice_rows_snoc n l i :
  invoice_rows n (l ++ [i]) = invoice_rows n l ++ [mkInvoiceRow (Generated (n + List.length l)) i].
Proof.
  revert n. induction l as [|j l IH]; intros n; cbn [invoice_rows app List.length].
  - rewrite Nat.add_0_r. reflexivity.
  - rewrite IH, Nat.add_succ_r. reflexivity.
Qed.

Lemma invoice_rows_fields n l : map inv_fields (invoice_rows n l) = l.
Proof. revert n. induction l as [|j l IH]; intros n; cbn; [|rewrite IH]; reflexivity. Qed.

Lemma invoice_rows_fresh n l k :
  n + List.length l <= k ->
  existsb (fun x => uuid_eqb (inv_id x) (Generated k)) (invoice_rows n l) = false.
Proof.
  revert n. induction l as [|j l IH]; intros n Hk; cbn [invoice_rows existsb]; [reflexivity|].
  cbn [List.length] in Hk. rewrite IH by lia. cbn [inv_id].
  unfold uuid_eqb. cbn [uuid_value value_eqb].
  destruct (Nat.eqb_spec n k); [lia | reflexivity].
Qed.

(** An id that equals a stored one is one the server can read. *)
Lemma uuid_known_valid {A} (key : A -> uuid) (l : list A) (k : uuid) :
  existsb (fun x => uuid_eqb (key x) k) l = true -> uuid_error k = None.
Proof.
  intros H. apply existsb_exists in H. destruct H as [x [_ H]].
  apply uuid_eqb_true in H. destruct H as [v [_ Hv]]. unfold uuid_error. rewrite Hv.
  reflexivity.
Qed.

Lemma int_error_int4 z : int4 z = true -> int_error z = None.
Proof. unfold int_error. intros ->. reflexivity. Qed.

(** The placeholder data that PostgreSQL accepts on empty tables: ids the
    server can read and of which no two are the same value, e-mail addresses
    and months that do not repeat, texts and numbers within the columns'
    types, dates the server reads as dates, invoices of customers that are in
    the data. *)
Record acceptable (e : env) (users : list User) (customers : list Customer)
       (invoices : list Invoice) (revenue : list Revenue) : Prop := mkAcceptable
  { user_ids : distinct_ids (map user_id users);
    user_emails : NoDup (map user_email users);
    user_values : forall u, In u users ->
      uuid_error (user_id u) = None /\ varchar 255 (user_name u) = true;
    customer_ids : distinct_ids (map customer_id customers);
    customer_emails : NoDup (map customer_email customers);
    customer_values : forall c, In c customers ->
      uuid_error (customer_id c) = None
      /\ varchar 255 (customer_name c) = true /\ varchar 255 (customer_email c) = true
      /\ varchar 255 (customer_image_url c) = true;
    invoice_values : forall i, In i invoices ->
      int4 (invoice_amount i) = true /\ varchar 255 (invoice_status i) = true
      /\ date_error e (invoice_date i) = None;
    invoice_customers : forall i, In i invoices ->
      existsb (fun c => uuid_eqb (customer_id c) (invoice_customer_id i)) customers = true;
    revenue_months : NoDup (map rev_month revenue);
    revenue_values : forall r, In r revenue ->
      varchar 4 (rev_month r) = true /\ int4 (rev_revenue r) = true }.

(** What an insert that meets no constraint does. *)
Lemma run_insert_user ext us cs invs rs u fresh :
  varchar 255 (user_name u) = true ->
  ~ In (uuid_value (user_id u)) (map uuid_value (map user_id us)) ->
  ~ In (user_email u) (map user_email us) ->
  run (INSERT_USER u) fresh (mkTables ext (Some us) cs invs rs)
  = inr (mkTables ext (Some (us ++ [u])) cs invs rs, done 1).
Proof.
  intros Hv Hi He. cbn -[fit existsb]. rewrite (fit_fits _ _ Hv).
  rewrite (existsb_no_uuid user_id _ _ Hi).
  rewrite (existsb_no_key user_email String.eqb _ _ String.eqb_eq He).
  destruct u; reflexivity.
Qed.

Lemma run_insert_customer ext us cs invs rs c fresh :
  varchar 255 (customer_name c) = true /\ varchar 255 (customer_email c) = true
  /\ varchar 255 (customer_image_url c) = true ->
  ~ In (uuid_value (customer_id c)) (map uuid_value (map customer_id cs)) ->
  ~ In (customer_email c) (map customer_email cs) ->
  run (INSERT_CUSTOMER c) fresh (mkTables ext us (Some cs) invs rs)
  = inr (mkTables ext us (Some (cs ++ [c])) invs rs, done 1).
Proof.
  intros [Hn [Hm Hu]] Hi He. cbn -[fit existsb].
  rewrite (fit_fits _ _ Hn), (fit_fits _ _ Hm), (fit_fits _ _ Hu).
  rewrite (existsb_no_uuid customer_id _ _ Hi).
  rewrite (existsb_no_key customer_email String.eqb _ _ String.eqb_eq He).
  destruct c; reflexivity.
Qed.

(** An invoice is stored under the generated id whenever its values fit and
    its customer is there, next to whatever the table holds. *)
Lemma run_insert_invoice ext us cs old l rs i n :
  (forall k, n <= k -> existsb (fun x => uuid_eqb (inv_id x) (Generated k)) old = false) ->
  int4 (invoice_amount i) = true ->
  varchar 255 (invoice_status i) = true ->
  existsb (fun c => uuid_eqb (customer_id c) (invoice_customer_id i)) cs = true ->
  run (INSERT_INVOICE i) (Generated (List.length l + n))
      (mkTables ext us (Some cs) (Some (old ++ invoice_rows n l)) rs)
  = inr (mkTables ext us (Some cs) (Some (old ++ invoice_rows n (l ++ [i]))) rs, done 1).
Proof.
  intros Hold Ha Hs Hc. cbn -[fit int4 existsb].
  rewrite Ha, (fit_fits _ _ Hs). cbn [negb].
  rewrite existsb_app, Hold by lia. rewrite invoice_rows_fresh by lia. cbn [orb].
  rewrite Hc, invoice_rows_snoc, (Nat.add_comm n), app_assoc.
  destruct i; reflexivity.
Qed.

Lemma run_insert_revenue ext us cs invs rs r fresh :
  varchar 4 (rev_month r) = true /\ int4 (rev_revenue r) = true ->
  (forall x, In x rs -> varchar 4 (rev_month x) = true) ->
  ~ In (rev_month r) (map rev_month rs) ->
  run (INSERT_REVENUE r) fresh (mkTables ext us cs invs (Some rs))
  = inr (mkTables ext us cs invs (Some (rs ++ [r])), done 1).
Proof.
  intros [Hm Hv] Hrs Hi. cbn -[fit int4 existsb]. rewrite Hv, (fit_fits _ _ Hm). cbn [negb].
  replace (existsb (fun x => varchar_eqb 4 (rev_month x) (rev_month r)) rs) with false.
  - destruct r; reflexivity.
  - symmetry. destruct (existsb _ rs) eqn:E; [|reflexivity]. exfalso. apply Hi.
    apply existsb_exists in E. destruct E as [x [Hx Hk]].
    rewrite (varchar_eqb_fits _ _ _ (Hrs x Hx) Hm) in Hk. apply String.eqb_eq in Hk.
    apply in_map_iff. exists x. split; assumption.
Qed.

Section FreshSeed.

Variable users : list User.
Variable customers : list Customer.
Variable invoices : list Invoice.
Variable revenue : list Revenue.
Variable e : env.
Variable u0 : nat.
Variable sl0 : nat.

Hypothesis no_fault : forall k, faulty e k = false.
Hypothesis hashing : forall n u, In u users -> bcrypt e n (user_password u) 10 <> None.
Hypothesis ok : acceptable e users customers invoices revenue.

Let never : exn -> world -> Prop := fun _ _ => False.

Let stored_users : list User := reorder (completion e) (hashed_users e sl0 users).

Lemma seedUsers_fresh :
  triple e (at_state empty_tables (mkTables true None None None None) u0 sl0)
         (SeedRoute.seedUsers users)
         (fun _ => at_state empty_tables (mkTables true (Some stored_users) None None None) u0
                            (sl0 + List.length users))
         never.
Proof.
  rewrite seedUsers_awaiting.
  eapply triple_bind.
  { apply (triple_statement_ok e empty_tables (CREATE_TABLE Users) _
             (mkTables true (Some []) None None None) (done 0) u0 sl0 no_fault);
      reflexivity. }
  intros ?. eapply triple_bind.
  { apply (triple_users_state e users empty_tables
             (fun pre => mkTables true (Some pre) None None None) u0 sl0 never hashing).
    intros pre x post Hl.
    pose proof (reorder_perm (completion e) (hashed_users e sl0 users)) as Hperm.
    assert (Hx : In x (hashed_users e sl0 users)).
    { apply (Permutation_in x Hperm). exact (in_middle _ _ _ _ Hl). }
    destruct (hashed_users_names _ _ _ _ Hx) as [u [Hu [Hname Hid]]].
    destruct (user_values _ _ _ _ _ ok u Hu) as [Hvalid Hfits].
    apply (triple_insert_ok e empty_tables (INSERT_USER x)
             (mkTables true (Some pre) None None None)
             (mkTables true (Some (pre ++ [x])) None None None) (done 1) u0
             (sl0 + List.length users) ("Error inserting user: " +++ user_email x)
             no_fault eq_refl).
    - cbn [bind_error]. rewrite Hid. exact Hvalid.
    - apply run_insert_user.
      + rewrite Hname. exact Hfits.
      + rewrite map_map.
        apply (new_key (fun v => uuid_value (user_id v))
                       (reorder (completion e) (hashed_users e sl0 users)) pre post x);
          [|exact Hl].
        rewrite <- map_map.
        apply (Permutation_NoDup (l := map uuid_value (map user_id (hashed_users e sl0 users)))).
        * apply Permutation_map, Permutation_map, Permutation_sym, Hperm.
        * rewrite hashed_users_ids. exact (user_ids _ _ _ _ _ ok).
      + apply (new_key user_email (reorder (completion e) (hashed_users e sl0 users))
                       pre post x); [|exact Hl].
        apply (Permutation_NoDup (l := map user_email (hashed_users e sl0 users))).
        * apply Permutation_map, Permutation_sym, Hperm.
        * rewrite hashed_users_emails. exact (user_emails _ _ _ _ _ ok). }
  intros l.
  apply (triple_ret e l
           (fun _ => at_state empty_tables (mkTables true (Some stored_users) None None None)
                              u0 (sl0 + List.length users))).
Qed.

Lemma seedCustomers_fresh us sl :
  triple e (at_state empty_tables (mkTables true (Some us) None None None) u0 sl)
         (SeedRoute.seedCustomers customers)
         (fun _ => at_state empty_tables (mkTables true (Some us) (Some customers) None None)
                            u0 sl)
         never.
Proof.
  unfold SeedRoute.seedCustomers.
  eapply triple_bind.
  { apply (triple_statement_ok e empty_tables (CREATE_TABLE Customers) _
             (mkTables true (Some us) (Some []) None None) (done 0) u0 sl no_fault);
      reflexivity. }
  intros ?. eapply triple_bind.
  { apply (triple_all_prefix e _
             (fun pre => at_state empty_tables (mkTables true (Some us) (Some pre) None None)
                                  u0 sl)).
    intros pre c post Hl.
    pose proof (in_middle _ _ _ _ Hl) as Hc.
    destruct (customer_values _ _ _ _ _ ok c Hc) as [Hvalid Hfits].
    replace (mkCustomer (customer_id c) (customer_name c) (customer_email c)
                        (customer_image_url c)) with c by (destruct c; reflexivity).
    eapply (triple_insert_ok e empty_tables); [exact no_fault | reflexivity | exact Hvalid |].
    apply run_insert_customer.
    - exact Hfits.
    - rewrite map_map.
      apply (new_key (fun v => uuid_value (customer_id v)) customers pre post c); [|exact Hl].
      rewrite <- map_map. exact (customer_ids _ _ _ _ _ ok).
    - exact (new_key customer_email customers pre post c (customer_emails _ _ _ _ _ ok) Hl). }
  intros l.
  apply (triple_ret e l
           (fun _ => at_state empty_tables (mkTables true (Some us) (Some customers) None None)
                              u0 sl)).
Qed.

Lemma seedInvoices_fresh us sl :
  triple e (at_state empty_tables (mkTables true (Some us) (Some customers) None None) u0 sl)
         (SeedRoute.seedInvoices invoices)
         (fun _ => at_state empty_tables
                            (mkTables true (Some us) (Some customers)
                                      (Some (invoice_rows u0 invoices)) None)
                            (List.length invoices + u0) sl)
         never.
Proof.
  unfold SeedRoute.seedInvoices.
  eapply triple_bind.
  { apply (triple_statement_ok e empty_tables (CREATE_TABLE Invoices) _
             (mkTables true (Some us) (Some customers) (Some []) None) (done 0) u0 sl no_fault);
      reflexivity. }
  intros ?. eapply triple_bind.
  { apply (triple_all_prefix e _
             (fun pre => at_state empty_tables
                           (mkTables true (Some us) (Some customers)
                                     (Some ([] ++ invoice_rows u0 pre)) None)
                           (List.length pre + u0) sl)).
    intros pre i post Hl.
    pose proof (in_middle _ _ _ _ Hl) as Hi.
    destruct (invoice_values _ _ _ _ _ ok i Hi) as [Ha [Hs Hd]].
    pose proof (invoice_customers _ _ _ _ _ ok i Hi) as Hc.
    replace (mkInvoice (invoice_customer_id i) (invoice_amount i) (invoice_status i)
                       (invoice_date i)) with i by (destruct i; reflexivity).
    rewrite length_app. cbn [List.length]. rewrite Nat.add_1_r. cbn [Nat.add].
    change (S (List.length pre + u0))
      with (next_uuid (INSERT_INVOICE i) (List.length pre + u0)).
    eapply (triple_insert_ok e empty_tables); [exact no_fault | reflexivity | |].
    - cbn [bind_error]. rewrite (uuid_known_valid _ _ _ Hc), (int_error_int4 _ Ha).
      exact Hd.
    - apply run_insert_invoice; [reflexivity | assumption..]. }
  intros l.
  apply (triple_ret e l
           (fun _ => at_state empty_tables
                              (mkTables true (Some us) (Some customers)
                                        (Some (invoice_rows u0 invoices)) None)
                              (List.length invoices + u0) sl)).
Qed.

Lemma seedRevenue_fresh us invs u sl :
  triple e (at_state empty_tables (mkTables true (Some us) (Some customers) (Some invs) None)
                     u sl)
         (SeedRoute.seedRevenue revenue)
         (fun _ => at_state empty_tables
                            (mkTables true (Some us) (Some customers) (Some invs)
                                      (Some revenue))
                            u sl)
         never.
Proof.
  unfold SeedRoute.seedRevenue.
  eapply triple_bind.
  { apply (triple_statement_ok e empty_tables (CREATE_TABLE RevenueT) _
             (mkTables true (Some us) (Some customers) (Some invs) (Some [])) (done 0) u sl
             no_fault);
      reflexivity. }
  intros ?. eapply triple_bind.
  { apply (triple_all_prefix e _
             (fun pre => at_state empty_tables
                           (mkTables true (Some us) (Some customers) (Some invs) (Some pre))
                           u sl)).
    intros pre r post Hl.
    pose proof (in_middle _ _ _ _ Hl) as Hr.
    destruct (revenue_values _ _ _ _ _ ok r Hr) as [Hm Hv].
    replace (mkRevenue (rev_month r) (rev_revenue r)) with r by (destruct r; reflexivity).
    eapply (triple_insert_ok e empty_tables);
      [exact no_fault | reflexivity | exact (int_error_int4 _ Hv) |].
    apply run_insert_revenue.
    - split; assumption.
    - intros x Hx. apply (revenue_values _ _ _ _ _ ok x). rewrite Hl.
      apply in_or_app. left. exact Hx.
    - exact (new_key rev_month revenue pre post r (revenue_months _ _ _ _ _ ok) Hl). }
  intros l.
  apply (triple_ret e l
           (fun _ => at_state empty_tables
                              (mkTables true (Some us) (Some customers) (Some invs)
                                        (Some revenue))
                              u sl)).
Qed.

Lemma seeding_fresh :
  triple e (fun w => pg w = mkSession empty_tables Idle /\ uuids w = u0 /\ salts w = sl0)
         (seeding users customers invoices revenue)
         (fun r w =>
            r = seeded
            /\ pg w = mkSession (mkTables true (Some stored_users) (Some customers)
                                          (Some (invoice_rows u0 invoices)) (Some revenue))
                                Idle)
         never.
Proof.
  unfold seeding, SeedRoute.createExtensions.
  eapply triple_bind with (R := fun _ => at_state empty_tables empty_tables u0 sl0).
  { intros w [Hp [Hu Hs]]. unfold client_sql. rewrite no_fault, Hp. cbn.
    repeat split; assumption. }
  intros ?. eapply triple_bind.
  { eapply triple_bind.
    - apply (triple_statement_ok e empty_tables CREATE_EXTENSION _
               (mkTables true None None None None) (done 0) u0 sl0 no_fault); reflexivity.
    - intros ?.
      apply (triple_ret e tt
               (fun _ => at_state empty_tables (mkTables true None None None None) u0 sl0)). }
  intros ?. eapply triple_bind; [exact seedUsers_fresh|].
  intros ?. eapply triple_bind; [apply seedCustomers_fresh|].
  intros ?. eapply triple_bind; [apply seedInvoices_fresh|].
  intros ?. eapply triple_bind; [apply seedRevenue_fresh|].
  intros ?. eapply triple_bind with
    (R := fun _ w =>
            pg w = mkSession (mkTables true (Some stored_users) (Some customers)
                                       (Some (invoice_rows u0 invoices)) (Some revenue))
                             Idle).
  { intros w [Hp _]. unfold client_sql. rewrite no_fault, Hp. cbn. reflexivity. }
  intros ? w Hw. cbn. split; [reflexivity | exact Hw].
Qed.

End FreshSeed.


(** A check that decides [distinct_ids] for ids the server can read. *)
Fixpoint distinctb (ids : list uuid) : bool :=
  match ids with
  | [] => true
  | x :: l =>
      match uuid_value x with
      | Some _ => negb (existsb (uuid_eqb x) l) && distinctb l
      | None => false
      end
  end.

Lemma distinctb_distinct ids : distinctb ids = true -> distinct_ids ids.
Proof.
  unfold distinct_ids. induction ids as [|x l IH]; cbn [distinctb map]; [constructor|].
  destruct (uuid_value x) as [v|] eqn:Ev; [|discriminate].
  intros H. apply andb_prop in H. destruct H as [Hx Hl].
  constructor; [|exact (IH Hl)].
  intros Hin. apply in_map_iff in Hin. destruct Hin as [y [Hy Hin]].
  apply negb_true_iff in Hx.
  assert (E : existsb (uuid_eqb x) l = true); [|congruence].
  apply existsb_exists. exists y. split; [exact Hin|].
  apply uuid_eqb_true. exists v. split; [exact Ev | exact Hy].
Qed.

Lemma sample_data_acceptable :
  acceptable postgres sample_users sample_customers sample_invoices sample_revenue.
Proof.
  constructor.
  - apply distinctb_distinct. vm_compute. reflexivity.
  - repeat constructor; cbn; intuition discriminate.
  - intros u [<-|[<-|[]]]; split; vm_compute; reflexivity.
  - apply distinctb_distinct. vm_compute. reflexivity.
  - repeat constructor; cbn; intuition discriminate.
  - intros c [<-|[<-|[]]]; repeat split; vm_compute; reflexivity.
  - intros i [<-|[<-|[]]]; repeat split; vm_compute; reflexivity.
  - intros i [<-|[<-|[]]]; vm_compute; reflexivity.
  - repeat constructor; cbn; intuition discriminate.
  - intros r [<-|[<-|[]]]; split; vm_compute; reflexivity.
Qed.


(** ** Seeding a database that holds the data already *)

(** What an insert does whose key is there: nothing. *)
Lemma run_insert_user_again ext us cs invs rs u fresh :
  varchar 255 (user_name u) = true ->
  existsb (fun x => uuid_eqb (user_id x) (user_id u)) us = true ->
  run (INSERT_USER u) fresh (mkTables ext (Some us) cs invs rs)
  = inr (mkTables ext (Some us) cs invs rs, done 0).
Proof.
  intros Hv Hi. cbn -[fit existsb]. rewrite (fit_fits _ _ Hv), Hi. reflexivity.
Qed.

Lemma run_insert_customer_again ext us cs invs rs c fresh :
  varchar 255 (customer_name c) = true /\ varchar 255 (customer_email c) = true
  /\ varchar 255 (customer_image_url c) = true ->
  existsb (fun x => uuid_eqb (customer_id x) (customer_id c)) cs = true ->
  run (INSERT_CUSTOMER c) fresh (mkTables ext us (Some cs) invs rs)
  = inr (mkTables ext us (Some cs) invs rs, done 0).
Proof.
  intros [Hn [Hm Hu]] Hi. cbn -[fit existsb].
  rewrite (fit_fits _ _ Hn), (fit_fits _ _ Hm), (fit_fits _ _ Hu), Hi. reflexivity.
Qed.

Lemma run_insert_revenue_again ext us cs invs rs r fresh :
  varchar 4 (rev_month r) = true /\ int4 (rev_revenue r) = true ->
  In (rev_month r) (map rev_month rs) ->
  run (INSERT_REVENUE r) fresh (mkTables ext us cs invs (Some rs))
  = inr (mkTables ext us cs invs (Some rs), done 0).
Proof.
  intros [Hm Hv] Hi. cbn -[fit int4 existsb]. rewrite Hv, (fit_fits _ _ Hm). cbn [negb].
  rewrite (existsb_month _ _ _ (fit_fits _ _ Hm) Hi). reflexivity.
Qed.

Section SeedAgain.

Variable users : list User.
Variable customers : list Customer.
Variable invoices : list Invoice.
Variable revenue : list Revenue.
Variable e : env.
Variable u0 : nat.
Variable sl0 : nat.

(** The tables before the run. *)
Variable us : list User.
Variable cs : list Customer.
Variable old : list InvoiceRow.
Variable rs : list Revenue.

Hypothesis no_fault : forall k, faulty e k = false.
Hypothesis hashing : forall n u, In u users -> bcrypt e n (user_password u) 10 <> None.
Hypothesis known_users : forall u, In u users ->
  varchar 255 (user_name u) = true
  /\ existsb (fun x => uuid_eqb (user_id x) (user_id u)) us = true.
Hypothesis known_customers : forall c, In c customers ->
  (varchar 255 (customer_name c) = true /\ varchar 255 (customer_email c) = true
   /\ varchar 255 (customer_image_url c) = true)
  /\ existsb (fun x => uuid_eqb (customer_id x) (customer_id c)) cs = true.
Hypothesis fitting_invoices : forall i, In i invoices ->
  (int4 (invoice_amount i) = true /\ varchar 255 (invoice_status i) = true
   /\ date_error e (invoice_date i) = None)
  /\ existsb (fun c => uuid_eqb (customer_id c) (invoice_customer_id i)) cs = true.
Hypothesis known_months : forall r, In r revenue ->
  (varchar 4 (rev_month r) = true /\ int4 (rev_revenue r) = true)
  /\ In (rev_month r) (map rev_month rs).
Hypothesis unused_ids : forall k,
  u0 <= k -> existsb (fun x => uuid_eqb (inv_id x) (Generated k)) old = false.

Let never : exn -> world -> Prop := fun _ _ => False.

Let held : tables := mkTables true (Some us) (Some cs) (Some old) (Some rs).

Let with_invoices (l : list Invoice) : tables :=
  mkTables true (Some us) (Some cs) (Some (old ++ invoice_rows u0 l)) (Some rs).

Lemma seedUsers_again :
  triple e (at_state held held u0 sl0) (SeedRoute.seedUsers users)
         (fun _ => at_state held held u0 (sl0 + List.length users)) never.
Proof.
  rewrite seedUsers_awaiting.
  eapply triple_bind.
  { apply (triple_statement_ok e held (CREATE_TABLE Users) _ held (done 0) u0 sl0 no_fault);
      reflexivity. }
  intros ?. eapply triple_bind.
  { apply (triple_users_state e users held (fun _ => held) u0 sl0 never hashing).
    intros pre x post Hl.
    assert (Hx : In x (hashed_users e sl0 users)).
    { apply (Permutation_in x (reorder_perm (completion e) (hashed_users e sl0 users))).
      exact (in_middle _ _ _ _ Hl). }
    destruct (hashed_users_names _ _ _ _ Hx) as [u [Hu [Hname Hid]]].
    destruct (known_users u Hu) as [Hfits Hknown].
    apply (triple_insert_ok e held (INSERT_USER x) held held (done 0) u0
             (sl0 + List.length users) ("Error inserting user: " +++ user_email x)
             no_fault eq_refl).
    - cbn [bind_error]. rewrite Hid. exact (uuid_known_valid _ _ _ Hknown).
    - apply run_insert_user_again; [rewrite Hname | rewrite Hid]; assumption. }
  intros l.
  apply (triple_ret e l (fun _ => at_state held held u0 (sl0 + List.length users))).
Qed.

Lemma seedCustomers_again sl :
  triple e (at_state held held u0 sl) (SeedRoute.seedCustomers customers)
         (fun _ => at_state held held u0 sl) never.
Proof.
  unfold SeedRoute.seedCustomers.
  eapply triple_bind.
  { apply (triple_statement_ok e held (CREATE_TABLE Customers) _ held (done 0) u0 sl
             no_fault); reflexivity. }
  intros ?. eapply triple_bind.
  { apply (triple_all_prefix e _ (fun _ => at_state held held u0 sl)).
    intros pre c post Hl.
    pose proof (in_middle _ _ _ _ Hl) as Hc.
    destruct (known_customers c Hc) as [Hfits Hknown].
    eapply (triple_insert_ok e held); [exact no_fault | reflexivity | |].
    - exact (uuid_known_valid _ _ _ Hknown).
    - apply run_insert_customer_again;
        cbn [customer_name customer_id customer_email customer_image_url]; assumption. }
  intros l. apply (triple_ret e l (fun _ => at_state held held u0 sl)).
Qed.

Lemma seedInvoices_again sl :
  triple e (at_state held held u0 sl) (SeedRoute.seedInvoices invoices)
         (fun _ => at_state held (with_invoices invoices) (List.length invoices + u0) sl)
         never.
Proof.
  unfold SeedRoute.seedInvoices.
  assert (E : held = with_invoices []).
  { unfold held, with_invoices. cbn [invoice_rows]. rewrite app_nil_r. reflexivity. }
  eapply triple_bind.
  { apply (triple_statement_ok e held (CREATE_TABLE Invoices) _ held (done 0) u0 sl
             no_fault); reflexivity. }
  intros ?. eapply triple_bind.
  { rewrite E at 2.
    apply (triple_all_prefix e _
             (fun pre => at_state held (with_invoices pre) (List.length pre + u0) sl)).
    intros pre i post Hl.
    pose proof (in_middle _ _ _ _ Hl) as Hi.
    destruct (fitting_invoices i Hi) as [[Ha [Hs Hd]] Hc].
    replace (mkInvoice (invoice_customer_id i) (invoice_amount i) (invoice_status i)
                       (invoice_date i)) with i by (destruct i; reflexivity).
    rewrite length_app. cbn [List.length]. rewrite Nat.add_1_r. cbn [Nat.add].
    change (S (List.length pre + u0))
      with (next_uuid (INSERT_INVOICE i) (List.length pre + u0)).
    eapply (triple_insert_ok e held); [exact no_fault | reflexivity | |].
    - cbn [bind_error]. rewrite (uuid_known_valid _ _ _ Hc), (int_error_int4 _ Ha).
      exact Hd.
    - apply run_insert_invoice; [exact unused_ids | assumption..]. }
  intros l.
  apply (triple_ret e l
           (fun _ => at_state held (with_invoices invoices) (List.length invoices + u0) sl)).
Qed.

Lemma seedRevenue_again l u sl :
  triple e (at_state held (with_invoices l) u sl) (SeedRoute.seedRevenue revenue)
         (fun _ => at_state held (with_invoices l) u sl) never.
Proof.
  unfold SeedRoute.seedRevenue.
  eapply triple_bind.
  { apply (triple_statement_ok e held (CREATE_TABLE RevenueT) _ (with_invoices l) (done 0)
             u sl no_fault); reflexivity. }
  intros ?. eapply triple_bind.
  { apply (triple_all_prefix e _ (fun _ => at_state held (with_invoices l) u sl)).
    intros pre r post Hl.
    pose proof (in_middle _ _ _ _ Hl) as Hr.
    destruct (known_months r Hr) as [[Hm Hv] Hknown].
    eapply (triple_insert_ok e held);
      [exact no_fault | reflexivity | exact (int_error_int4 _ Hv) |].
    apply run_insert_revenue_again; cbn [rev_month rev_revenue];
      [split|]; assumption. }
  intros x. apply (triple_ret e x (fun _ => at_state held (with_invoices l) u sl)).
Qed.

Lemma seeding_again :
  triple e (fun w => pg w = mkSession held Idle /\ uuids w = u0 /\ salts w = sl0)
         (seeding users customers invoices revenue)
         (fun r w => r = seeded /\ pg w = mkSession (with_invoices invoices) Idle)
         never.
Proof.
  unfold seeding, SeedRoute.createExtensions.
  eapply triple_bind with (R := fun _ => at_state held held u0 sl0).
  { intros w [Hp [Hu Hs]]. unfold client_sql. rewrite no_fault, Hp. cbn.
    repeat split; assumption. }
  intros ?. eapply triple_bind.
  { eapply triple_bind.
    - apply (triple_statement_ok e held CREATE_EXTENSION _ held (done 0) u0 sl0 no_fault);
        reflexivity.
    - intros ?. apply (triple_ret e tt (fun _ => at_state held held u0 sl0)). }
  intros ?. eapply triple_bind; [exact seedUsers_again|].
  intros ?. eapply triple_bind; [apply seedCustomers_again|].
  intros ?. eapply triple_bind; [apply seedInvoices_again|].
  intros ?. eapply triple_bind; [apply seedRevenue_again|].
  intros ?. eapply triple_bind with
    (R := fun _ w => pg w = mkSession (with_invoices invoices) Idle).
  { intros w [Hp _]. unfold client_sql. rewrite no_fault, Hp. cbn. reflexivity. }
  intros ? w Hw. cbn. split; [reflexivity | exact Hw].
Qed.

End SeedAgain.



(** ** The rows of the invoice query *)

(** The customer an invoice refers to, if it is there. *)
Definition customer_of (cs : list Customer) (id : uuid) : option Customer :=
  find (fun c => uuid_eqb id (customer_id c)) cs.

(** One line per invoice of amount 666 whose customer is there, listed by
    invoice. *)
Definition lines_of (invs : list Invoice) (cs : list Customer) : list InvoiceLine :=
  flat_map (fun i => match customer_of cs (invoice_customer_id i) with
                     | Some c => [mkLine 666 (customer_name c)]
                     | None => []
                     end)
           (filter (fun i => (invoice_amount i =? 666)%Z) invs).

Lemma filter_unique cs id :
  distinct_ids (map customer_id cs) ->
  filter (fun c => uuid_eqb id (customer_id c)) cs
  = match customer_of cs id with Some c => [c] | None => [] end.
Proof.
  unfold customer_of, distinct_ids. induction cs as [|c cs IH]; intros Hn; [reflexivity|].
  cbn [map] in Hn. inversion Hn as [|k ks Hk Hn' E]; subst. cbn [filter find].
  destruct (uuid_eqb id (customer_id c)) eqn:Ec.
  - f_equal. apply uuid_eqb_true in Ec. destruct Ec as [v [Hv1 Hv2]].
    clear IH Hn. induction cs as [|d cs IH]; [reflexivity|]. cbn [filter].
    cbn [map] in Hk, Hn'. inversion Hn'; subst.
    destruct (uuid_eqb id (customer_id d)) eqn:Ed.
    + exfalso. apply Hk. left. apply uuid_eqb_true in Ed. destruct Ed as [v' [Hd1 Hd2]].
      congruence.
    + apply IH; [intros H; apply Hk; right; exact H | assumption].
  - apply IH. exact Hn'.
Qed.

Lemma select_invoices_lines invs cs :
  distinct_ids (map customer_id cs) ->
  select_invoices invs cs = lines_of (map inv_fields invs) cs.
Proof.
  intros Hn. unfold select_invoices, lines_of.
  induction invs as [|i invs IH]; [reflexivity|]. cbn [map filter].
  destruct (invoice_amount (inv_fields i) =? 666)%Z eqn:Ea; [|exact IH].
  cbn [flat_map]. rewrite IH, (filter_unique cs _ Hn). f_equal.
  apply Z.eqb_eq in Ea. rewrite Ea.
  destruct (customer_of cs (invoice_customer_id (inv_fields i))); reflexivity.
Qed.

Lemma lines_of_length invs cs :
  List.length (lines_of invs cs)
  <= List.length (filter (fun i => (invoice_amount i =? 666)%Z) invs).
Proof.
  unfold lines_of. induction (filter _ invs) as [|i l IH]; [apply le_n|].
  cbn [flat_map]. rewrite length_app. cbn [List.length].
  destruct (customer_of cs (invoice_customer_id i)); cbn [List.length]; lia.
Qed.

(** X15.  The invoice query pairs each invoice with at most one customer.  When the
    two relations are there and no two customers have the same id, a run of
    [GET] of the query route that meets no outside failure answers 200 with,
    in some order, one line per invoice of amount 666 whose customer exists,
    each with the amount 666 and that customer's name; never more lines than
    there are such invoices.  This holds for both texts of the route. *)
Theorem query_one_line_per_invoice e w invs cs :
  invoices_t (committed (pg w)) = Some invs ->
  customers_t (committed (pg w)) = Some cs ->
  distinct_ids (map customer_id cs) ->
  faulty e (issued w) = false ->
  faulty e (S (issued w)) = false ->
  exists lines,
    Permutation lines (lines_of (map inv_fields invs) cs)
    /\ fst (QueryRoute.GET e w) = inr (listing lines)
    /\ fst (QueryRouteWithHeaders.GET e w) = inr (listing_json lines)
    /\ status (listing lines) = 200
    /\ status (listing_json lines) = 200
    /\ List.length lines
       <= List.length (filter (fun i => (invoice_amount (inv_fields i) =? 666)%Z) invs).
Proof.
  intros Hi Hc Hn Hf1 Hf2.
  exists (reorder (plan e) (select_invoices invs cs)).
  pose proof (reorder_perm (plan e) (select_invoices invs cs)) as Hperm.
  split; [rewrite <- (select_invoices_lines invs cs Hn); exact Hperm|].
  rewrite GET_listInvoices, GET_json_listInvoices. cbn [fst].
  pose proof (listInvoices_listed e w) as Hl.
  destruct (QueryRoute.listInvoices e w) as [res wl].
  inversion Hl as [Hf|code Hf Hcode|invs1 cs1 Hg1 Hg2 Hi1 Hc1]; subst; cbn [fst].
  - congruence.
  - exfalso. destruct Hcode as [[Hx _]|[_ [_ [Hx|Hx]]]]; congruence.
  - rewrite Hi in Hi1. rewrite Hc in Hc1. injection Hi1 as <-. injection Hc1 as <-.
    split; [reflexivity|]. split; [reflexivity|]. split; [reflexivity|].
    split; [reflexivity|].
    rewrite (Permutation_length Hperm), (select_invoices_lines invs cs Hn).
    etransitivity; [apply lines_of_length|].
    clear. induction invs as [|i invs IH]; [apply le_n|]. cbn [map filter].
    destruct (invoice_amount (inv_fields i) =? 666)%Z; cbn [List.length]; lia.
Qed.

Lemma sample_customers_distinct : distinct_ids (map customer_id sample_customers).
Proof. apply distinctb_distinct. vm_compute. reflexivity. Qed.

Lemma query_one_line_per_invoice_witness :
  invoices_t (committed (pg (snd first_run))) = Some (invoice_rows 0 sample_invoices)
  /\ customers_t (committed (pg (snd first_run))) = Some sample_customers
  /\ lines_of sample_invoices sample_customers = [mkLine 666 "Acme"]
  /\ exists lines,
      Permutation lines (lines_of (map inv_fields (invoice_rows 0 sample_invoices))
                                  sample_customers)
      /\ fst (QueryRoute.GET postgres (snd first_run)) = inr (listing lines)
      /\ fst (QueryRouteWithHeaders.GET postgres (snd first_run)) = inr (listing_json lines)
      /\ status (listing lines) = 200
      /\ status (listing_json lines) = 200
      /\ List.length lines
         <= List.length (filter (fun i => (invoice_amount (inv_fields i) =? 666)%Z)
                                (invoice_rows 0 sample_invoices)).
Proof.
  split; [vm_compute; reflexivity|]. split; [vm_compute; reflexivity|].
  split; [vm_compute; reflexivity|].
  apply (query_one_line_per_invoice postgres (snd first_run)).
  - vm_compute. reflexivity.
  - vm_compute. reflexivity.
  - exact sample_customers_distinct.
  - reflexivity.
  - reflexivity.
Defined.

(** X16.  [GET] of the query route never throws and never writes.  Whatever the
    database and the pool do, both texts of the route return a response, with
    status 200 or 500, and leave the database session, the id and salt
    counters and the number of borrowed clients as they were. *)
Theorem query_is_read_only e w :
  (exists resp, fst (QueryRoute.GET e w) = inr resp /\ (status resp = 200 \/ status resp = 500))
  /\ (exists resp, fst (QueryRouteWithHeaders.GET e w) = inr resp
                   /\ (status resp = 200 \/ status resp = 500))
  /\ snd (QueryRouteWithHeaders.GET e w) = snd (QueryRoute.GET e w)
  /\ pg (snd (QueryRoute.GET e w)) = pg w
  /\ uuids (snd (QueryRoute.GET e w)) = uuids w
  /\ salts (snd (QueryRoute.GET e w)) = salts w
  /\ borrowed (snd (QueryRoute.GET e w)) = borrowed w.
Proof.
  rewrite GET_listInvoices, GET_json_listInvoices. cbn [fst snd].
  pose proof (listInvoices_listed e w) as Hl.
  destruct (QueryRoute.listInvoices e w) as [res wl]. cbn [fst snd].
  inversion Hl; subst; cbn [pg uuids salts borrowed];
    (split; [eexists; split; [reflexivity|]; auto|]);
    (split; [eexists; split; [reflexivity|]; auto|]);
    repeat split; reflexivity.
Qed.

(** ** Seeding an empty database, then querying *)


